(** * Arcade driving game: simulation core

    A shallow embedding of the simulation core of the game (car controller,
    obstacle manager, collision detector, score manager and the orchestrating
    game engine) together with proofs of its specified properties and of
    further properties of the code.

    Conventions of the embedding:
    - a JavaScript [number] that only ever holds an integer (score, lives,
      combo, an animation-frame id) is a [Z] or a [nat]; every other number is
      an exact rational [Q] (rounding, NaN and infinities are not modelled);
    - [Math.floor] is [Qfloor], [Math.min]/[Math.max] are [Qmin]/[Qmax];
    - a JavaScript object used as a map, and a [Map], is a [gmap];
    - what the code obtains from outside itself is an explicit argument: the
      sine and cosine used by the rotation of three.js, the bounding box
      three.js computes for a mesh, its raycaster, the values drawn from
      [Math.random] and the wall clock [Date.now]. *)

From Stdlib Require Import ZArith QArith Qround Qabs Qminmax Lqa Lia List Bool.
From Stdlib Require Import String.
From stdpp Require Import base option list gmap strings.

Open Scope Q_scope.

(** ** Comparisons of rationals as booleans *)

Definition Qleb (a b : Q) : bool := Qle_bool a b.
Definition Qltb (a b : Q) : bool := negb (Qle_bool b a).

(** ** math-utils.ts *)

Module MathUtils.

(** [clamp(value, min, max) = Math.min(Math.max(value, min), max)] *)
Definition clamp (value min max : Q) : Q := Qmin (Qmax value min) max.

(** [lerp(a, b, t) = a + (b - a) * t] *)
Definition lerp (a b t : Q) : Q := a + (b - a) * t.

(** [random(min, max) = Math.random() * (max - min) + min], the value drawn
    from [Math.random] being the first argument. *)
Definition random (r min max : Q) : Q := r * (max - min) + min.


(** [degToRad(degrees)] and [radToDeg(radians)], given [Math.PI]. *)
Definition degToRad (PI degrees : Q) : Q := degrees * (PI / 180).
Definition radToDeg (PI radians : Q) : Q := radians * (180 / PI).

(** [randomInt(min, max) = Math.floor(Math.random() * (max - min + 1)) + min],
    the value drawn from [Math.random] being the first argument. *)
Definition randomInt (r min max : Q) : Q :=
  inject_Z (Qfloor (r * (max - min + 1))) + min.

(** The two loops of [normalizeAngle], each run for at most [fuel]
    iterations: [while (angle > PI) angle -= 2 * PI] and
    [while (angle < -PI) angle += 2 * PI]. *)
Fixpoint normalizeDown (fuel : nat) (PI angle : Q) : option Q :=
  if Qltb PI angle then
    match fuel with
    | O => None
    | S fuel' => normalizeDown fuel' PI (angle - 2 * PI)
    end
  else Some angle.

Fixpoint normalizeUp (fuel : nat) (PI angle : Q) : option Q :=
  if Qltb angle (- PI) then
    match fuel with
    | O => None
    | S fuel' => normalizeUp fuel' PI (angle + 2 * PI)
    end
  else Some angle.

Definition normalizeAngle (fuel : nat) (PI angle : Q) : option Q :=
  match normalizeDown fuel PI angle with
  | None => None
  | Some a => normalizeUp fuel PI a
  end.


(** [isPointInBounds(x, z, bounds)] *)
Record Bounds := mkBounds { minX : Q; maxX : Q; minZ : Q; maxZ : Q }.

Definition isPointInBounds (x z : Q) (bounds : Bounds) : bool :=
  Qleb (minX bounds) x && Qleb x (maxX bounds)
  && Qleb (minZ bounds) z && Qleb z (maxZ bounds).

(** [smoothDamp(current, target, velocity, smoothTime, maxSpeed, deltaTime)]:
    the value returned and the [velocity.value] it leaves behind. *)
Definition smoothDamp (current target velocity smoothTime maxSpeed deltaTime : Q)
    : Q * Q :=
  let smoothTime := Qmax 0.0001 smoothTime in
  let omega := 2 / smoothTime in
  let x := omega * deltaTime in
  let exp := 1 / (1 + x + 0.48 * x * x + 0.235 * x * x * x) in
  let change := current - target in
  let originalTo := target in
  let maxChange := maxSpeed * smoothTime in
  let clampedChange := clamp change (- maxChange) maxChange in
  let target := current - clampedChange in
  let temp := (velocity + omega * clampedChange) * deltaTime in
  let velocity1 := (velocity - omega * temp) * exp in
  let output := target + (clampedChange + temp) * exp in
  if Bool.eqb (Qltb 0 (originalTo - current)) (Qltb originalTo output) then
    (originalTo, (originalTo - originalTo) / deltaTime)
  else (output, velocity1).

End MathUtils.

(** ** The parts of three.js the core uses *)

Module Three.

Record Vector3 := mkVector3 { x : Q; y : Q; z : Q }.

Definition add (a b : Vector3) : Vector3 :=
  mkVector3 (x a + x b) (y a + y b) (z a + z b).

Definition sub (a b : Vector3) : Vector3 :=
  mkVector3 (x a - x b) (y a - y b) (z a - z b).

Definition multiplyScalar (a : Vector3) (s : Q) : Vector3 :=
  mkVector3 (x a * s) (y a * s) (z a * s).

Definition set_x (a : Vector3) (v : Q) : Vector3 := mkVector3 v (y a) (z a).
Definition set_y (a : Vector3) (v : Q) : Vector3 := mkVector3 (x a) v (z a).

(** Componentwise equality of rationals. *)
Definition veq (a b : Vector3) : Prop := x a == x b /\ y a == y b /\ z a == z b.

Definition lengthSq (a : Vector3) : Q := x a * x a + y a * y a + z a * z a.

(** [v.applyAxisAngle(new Vector3(0, 1, 0), angle)]: the rotation of [v]
    about the vertical axis, given the sine and the cosine of the angle. *)
Definition applyAxisAngleY (sn cs : Q) (v : Vector3) : Vector3 :=
  mkVector3 (x v * cs + z v * sn) (y v) (z v * cs - x v * sn).

Record Box3 := mkBox3 { bmin : Vector3; bmax : Vector3 }.

Definition isEmpty (b : Box3) : bool :=
  Qltb (x (bmax b)) (x (bmin b)) || Qltb (y (bmax b)) (y (bmin b))
  || Qltb (z (bmax b)) (z (bmin b)).

Definition getCenter (b : Box3) : Vector3 :=
  if isEmpty b then mkVector3 0 0 0
  else multiplyScalar (add (bmin b) (bmax b)) (1 # 2).

Definition getSize (b : Box3) : Vector3 :=
  if isEmpty b then mkVector3 0 0 0 else sub (bmax b) (bmin b).

Definition setFromCenterAndSize (center size : Vector3) : Box3 :=
  let halfSize := multiplyScalar size (1 # 2) in
  mkBox3 (sub center halfSize) (add center halfSize).

(** [a.intersectsBox(b)]: the boxes overlap on all three axes. *)
Definition intersectsBox (a b : Box3) : bool :=
  Qleb (x (bmin a)) (x (bmax b)) && Qleb (x (bmin b)) (x (bmax a))
  && Qleb (y (bmin a)) (y (bmax b)) && Qleb (y (bmin b)) (y (bmax a))
  && Qleb (z (bmin a)) (z (bmax b)) && Qleb (z (bmin b)) (z (bmax a)).

(** Further operations of three.js that the collision detector uses. *)

Definition dot (a b : Vector3) : Q := x a * x b + y a * y b + z a * z b.

(** [v.reflect(normal)]: [v - 2 (v . normal) normal]. *)
Definition reflect (v normal : Vector3) : Vector3 :=
  sub v (multiplyScalar normal (2 * dot v normal)).

(** [box.expandByScalar(s)] *)
Definition expandByScalar (b : Box3) (s : Q) : Box3 :=
  mkBox3 (mkVector3 (x (bmin b) - s) (y (bmin b) - s) (z (bmin b) - s))
    (mkVector3 (x (bmax b) + s) (y (bmax b) + s) (z (bmax b) + s)).

(** [box.containsPoint(p)] *)
Definition containsPoint (b : Box3) (p : Vector3) : bool :=
  Qleb (x (bmin b)) (x p) && Qleb (x p) (x (bmax b))
  && Qleb (y (bmin b)) (y p) && Qleb (y p) (y (bmax b))
  && Qleb (z (bmin b)) (z p) && Qleb (z p) (z (bmax b)).

(** [a.intersect(b)]: the componentwise larger minimum and smaller maximum.
    three.js replaces an empty result by its canonical empty box; [isEmpty]
    and [getSize], the only readers here, do not tell the two apart. *)
Definition intersect (a b : Box3) : Box3 :=
  mkBox3
    (mkVector3 (Qmax (x (bmin a)) (x (bmin b))) (Qmax (y (bmin a)) (y (bmin b)))
       (Qmax (z (bmin a)) (z (bmin b))))
    (mkVector3 (Qmin (x (bmax a)) (x (bmax b))) (Qmin (y (bmax a)) (y (bmax b)))
       (Qmin (z (bmax a)) (z (bmax b)))).

End Three.

(** ** CarController.ts *)

Module CarController.
Import Three.

Record ControlSettings := mkControlSettings {
  sensitivity : Q;
  invertSteering : bool
}.

Record Wheel := mkWheel { wheel_rotation_x : Q; wheel_rotation_y : Q }.

Record Wheels := mkWheels {
  frontLeft : Wheel;
  frontRight : Wheel;
  rearLeft : Wheel;
  rearRight : Wheel
}.

(** The car's scene-graph handle ([THREE.Group]): its transform and the wheel
    references the controller looks up on it. *)
Record CarMesh := mkCarMesh {
  mesh_position : Vector3;
  mesh_rotation : Vector3;
  wheels : option Wheels
}.

Record t := mkCar {
  car : option CarMesh;
  position : Vector3;
  velocity : Vector3;
  rotation : Q;
  speed : Q;
  maxSpeed : Q;
  acceleration : Q;
  deceleration : Q;
  turnSpeed : Q;
  keys : gmap string bool;
  settings : ControlSettings;
  wheelRotation : Q;
  engineSound : Q;
  boundingBox : Box3
}.

(** The field initialisers of the class. *)
Definition new : t :=
  {| car := None;
     position := mkVector3 0 0 0;
     velocity := mkVector3 0 0 0;
     rotation := 0;
     speed := 0;
     maxSpeed := 25;
     acceleration := 15;
     deceleration := 10;
     turnSpeed := 2.5;
     keys := ∅;
     settings := mkControlSettings 1 false;
     wheelRotation := 0;
     engineSound := 0;
     boundingBox := mkBox3 (mkVector3 0 0 0) (mkVector3 0 0 0) |}.

(** [this.keys[code]] read as a condition: a missing key is falsy. *)
Definition key (c : t) (code : string) : bool := default false (keys c !! code).

Section Controller.

(** Sine and cosine, as the rotation about the vertical axis uses them. *)
Variables sin cos : Q -> Q.
(** [new THREE.Box3().setFromObject(car)]. *)
Variable setFromObject : CarMesh -> Box3.

(** The unit vector of the heading: [(0, 0, -1)] turned by [rotation]. *)
Definition direction (rot : Q) : Vector3 :=
  applyAxisAngleY (sin rot) (cos rot) (mkVector3 0 0 (-1)).

Definition updateBoundingBox (c : t) : t :=
  match car c with
  | None => c
  | Some m =>
      let box := setFromObject m in
      let center := getCenter box in
      let size := multiplyScalar (getSize box) 0.8 in
      {| car := car c; position := position c; velocity := velocity c;
         rotation := rotation c; speed := speed c; maxSpeed := maxSpeed c;
         acceleration := acceleration c; deceleration := deceleration c;
         turnSpeed := turnSpeed c; keys := keys c; settings := settings c;
         wheelRotation := wheelRotation c; engineSound := engineSound c;
         boundingBox := setFromCenterAndSize center size |}
  end.

Definition initialize (carMesh : CarMesh) (controlSettings : ControlSettings)
    (c : t) : t :=
  let pos := mkVector3 0 0.5 0 in
  updateBoundingBox
    {| car := Some (mkCarMesh pos (mesh_rotation carMesh) (wheels carMesh));
       position := pos; velocity := velocity c;
       rotation := rotation c; speed := speed c; maxSpeed := maxSpeed c;
       acceleration := acceleration c; deceleration := deceleration c;
       turnSpeed := turnSpeed c; keys := keys c; settings := controlSettings;
       wheelRotation := wheelRotation c; engineSound := engineSound c;
       boundingBox := boundingBox c |}.

Definition set_speed_rotation (c : t) (s r : Q) : t :=
  {| car := car c; position := position c; velocity := velocity c;
     rotation := r; speed := s; maxSpeed := maxSpeed c;
     acceleration := acceleration c; deceleration := deceleration c;
     turnSpeed := turnSpeed c; keys := keys c; settings := settings c;
     wheelRotation := wheelRotation c; engineSound := engineSound c;
     boundingBox := boundingBox c |}.

Definition handleInput (deltaTime : Q) (c : t) : t :=
  let inputAcceleration := key c "ArrowUp" || key c "KeyW" in
  let inputBraking := key c "ArrowDown" || key c "KeyS" in
  let inputSteering :=
    (if key c "ArrowLeft" || key c "KeyA" then -1 else 0)
    + (if key c "ArrowRight" || key c "KeyD" then 1 else 0) in
  let adjustedSteering := inputSteering * sensitivity (settings c) in
  let finalSteering :=
    if invertSteering (settings c) then - adjustedSteering
    else adjustedSteering in
  let speed1 :=
    if inputAcceleration then
      Qmin (speed c + acceleration c * deltaTime) (maxSpeed c)
    else if inputBraking then
      Qmax (speed c - deceleration c * deltaTime) (- maxSpeed c * 0.5)
    else if Qltb 0 (speed c) then
      Qmax (speed c - deceleration c * 0.5 * deltaTime) 0
    else if Qltb (speed c) 0 then
      Qmin (speed c + deceleration c * 0.5 * deltaTime) 0
    else speed c in
  let rotation1 :=
    if Qltb 0.1 (Qabs speed1) && Qltb 0.1 (Qabs finalSteering) then
      let steeringEffect := finalSteering * turnSpeed c * deltaTime in
      let speedFactor := Qabs speed1 / maxSpeed c in
      rotation c + steeringEffect * speedFactor
    else rotation c in
  set_speed_rotation c speed1 rotation1.

Definition updatePhysics (deltaTime : Q) (c : t) : t :=
  match car c with
  | None => c
  | Some m =>
      let vel := multiplyScalar (direction (rotation c)) (speed c) in
      let pos1 := add (position c) (multiplyScalar vel deltaTime) in
      let pos2 := set_x pos1 (MathUtils.clamp (x pos1) (-8) 8) in
      let pos3 := set_y pos2 0.5 in
      let bankingAngle := MathUtils.clamp (x vel * -0.1) (-0.3) 0.3 in
      let rot :=
        mkVector3 (x (mesh_rotation m)) (rotation c)
          (MathUtils.lerp (z (mesh_rotation m)) bankingAngle 0.1) in
      {| car := Some (mkCarMesh pos3 rot (wheels m));
         position := pos3; velocity := vel;
         rotation := rotation c; speed := speed c; maxSpeed := maxSpeed c;
         acceleration := acceleration c; deceleration := deceleration c;
         turnSpeed := turnSpeed c; keys := keys c; settings := settings c;
         wheelRotation := wheelRotation c; engineSound := engineSound c;
         boundingBox := boundingBox c |}
  end.

Definition updateVisuals (deltaTime : Q) (c : t) : t :=
  match car c with
  | None => c
  | Some m =>
      let wr := wheelRotation c + speed c * deltaTime * 2 in
      let steeringAngle :=
        (if key c "ArrowLeft" || key c "KeyA" then -0.3 else 0)
        + (if key c "ArrowRight" || key c "KeyD" then 0.3 else 0) in
      let ws :=
        match wheels m with
        | None => None
        | Some w =>
            Some (mkWheels (mkWheel wr steeringAngle) (mkWheel wr steeringAngle)
                    (mkWheel wr (wheel_rotation_y (rearLeft w)))
                    (mkWheel wr (wheel_rotation_y (rearRight w))))
        end in
      {| car := Some (mkCarMesh (mesh_position m) (mesh_rotation m) ws);
         position := position c; velocity := velocity c;
         rotation := rotation c; speed := speed c; maxSpeed := maxSpeed c;
         acceleration := acceleration c; deceleration := deceleration c;
         turnSpeed := turnSpeed c; keys := keys c; settings := settings c;
         wheelRotation := wr; engineSound := Qabs (speed c) / maxSpeed c;
         boundingBox := boundingBox c |}
  end.

(** [update(deltaTime)]: nothing happens before the car handle exists. *)
Definition update (deltaTime : Q) (c : t) : t :=
  match car c with
  | None => c
  | Some _ =>
      updateBoundingBox
        (updateVisuals deltaTime (updatePhysics deltaTime (handleInput deltaTime c)))
  end.

Definition set_key (code : string) (b : bool) (c : t) : t :=
  {| car := car c; position := position c; velocity := velocity c;
     rotation := rotation c; speed := speed c; maxSpeed := maxSpeed c;
     acceleration := acceleration c; deceleration := deceleration c;
     turnSpeed := turnSpeed c; keys := <[code := b]> (keys c);
     settings := settings c;
     wheelRotation := wheelRotation c; engineSound := engineSound c;
     boundingBox := boundingBox c |}.

Definition handleKeyDown (code : string) (c : t) : t := set_key code true c.
Definition handleKeyUp (code : string) (c : t) : t := set_key code false c.

(** [handleCollision()]: the collision impulse. *)
Definition handleCollision (c : t) : t :=
  let speed1 := speed c * 0.3 in
  let pushBack :=
    applyAxisAngleY (sin (rotation c)) (cos (rotation c)) (mkVector3 0 0 1) in
  let pos1 := add (position c) (multiplyScalar pushBack 2) in
  let pos2 := set_x pos1 (MathUtils.clamp (x pos1) (-8) 8) in
  {| car :=
       match car c with
       | None => None
       | Some m => Some (mkCarMesh pos2 (mesh_rotation m) (wheels m))
       end;
     position := pos2; velocity := velocity c;
     rotation := rotation c; speed := speed1; maxSpeed := maxSpeed c;
     acceleration := acceleration c; deceleration := deceleration c;
     turnSpeed := turnSpeed c; keys := keys c; settings := settings c;
     wheelRotation := wheelRotation c; engineSound := engineSound c;
     boundingBox := boundingBox c |}.

Definition reset (c : t) : t :=
  let pos := mkVector3 0 0.5 0 in
  {| car :=
       match car c with
       | None => None
       | Some m => Some (mkCarMesh pos (mkVector3 0 0 0) (wheels m))
       end;
     position := pos; velocity := mkVector3 0 0 0;
     rotation := 0; speed := 0; maxSpeed := maxSpeed c;
     acceleration := acceleration c; deceleration := deceleration c;
     turnSpeed := turnSpeed c; keys := ∅; settings := settings c;
     wheelRotation := 0; engineSound := 0;
     boundingBox := boundingBox c |}.

End Controller.

(** The accessors. *)

Definition updateSettings (newSettings : ControlSettings) (c : t) : t :=
  {| car := car c; position := position c; velocity := velocity c;
     rotation := rotation c; speed := speed c; maxSpeed := maxSpeed c;
     acceleration := acceleration c; deceleration := deceleration c;
     turnSpeed := turnSpeed c; keys := keys c; settings := newSettings;
     wheelRotation := wheelRotation c; engineSound := engineSound c;
     boundingBox := boundingBox c |}.

Definition getNormalizedSpeed (c : t) : Q := Qabs (speed c) / maxSpeed c.

Definition isMoving (c : t) : bool := Qltb 0.1 (Qabs (speed c)).

Definition isAccelerating (c : t) : bool := key c "ArrowUp" || key c "KeyW".

Definition isBraking (c : t) : bool := key c "ArrowDown" || key c "KeyS".

Definition isTurning (c : t) : bool :=
  key c "ArrowLeft" || key c "KeyA" || key c "ArrowRight" || key c "KeyD".

Definition getSteeringInput (c : t) : Q :=
  let left := if key c "ArrowLeft" || key c "KeyA" then -1 else 0 in
  let right := if key c "ArrowRight" || key c "KeyD" then 1 else 0 in
  left + right.

(** The calls a client makes on a controller, and a session of them, the
    earliest first. *)
Inductive Call :=
| CUpdate (deltaTime : Q)
| CKeyDown (code : string)
| CKeyUp (code : string)
| CCollision
| CReset
| CSettings (newSettings : ControlSettings).

Definition call (sin cos : Q -> Q) (setFromObject : CarMesh -> Box3)
    (k : Call) (c : t) : t :=
  match k with
  | CUpdate deltaTime => update sin cos setFromObject deltaTime c
  | CKeyDown code => handleKeyDown code c
  | CKeyUp code => handleKeyUp code c
  | CCollision => handleCollision sin cos c
  | CReset => reset c
  | CSettings newSettings => updateSettings newSettings c
  end.

Definition run (sin cos : Q -> Q) (setFromObject : CarMesh -> Box3)
    (ks : list Call) (c : t) : t :=
  fold_left (fun st k => call sin cos setFromObject k st) ks c.

End CarController.

(** ** ScoreManager.ts *)

Module ScoreManager.

Record t := mkScore {
  score : Z;
  highScore : Z;
  distance : Q;
  lives : Z;
  maxLives : Z;
  combo : Z;
  maxCombo : Z;
  lastTime : Q;
  gameStartTime : Q;
  timeSurvived : Q;
  comboTimer : Q;
  lastObstacleAvoidanceTime : Q
}.

Definition DISTANCE_MULTIPLIER : Q := 10.
Definition SPEED_MULTIPLIER : Q := 5.
Definition COMBO_MULTIPLIER : Q := 50.
Definition TIME_MULTIPLIER : Q := 2.
Definition OBSTACLE_AVOIDANCE_POINTS : Q := 100.
Definition COMBO_TIMEOUT : Q := 3.

(** The field initialisers of the class. *)
Definition new : t :=
  {| score := 0; highScore := 0; distance := 0; lives := 3; maxLives := 3;
     combo := 0; maxCombo := 0; lastTime := 0; gameStartTime := 0;
     timeSurvived := 0; comboTimer := 0; lastObstacleAvoidanceTime := 0 |}.

(** [Date.now() / 1000], [now] being the clock's milliseconds. *)
Definition seconds (now : Z) : Q := inject_Z now / 1000.

Definition set_combo (s : t) (c : Z) (timer : Q) : t :=
  {| score := score s; highScore := highScore s; distance := distance s;
     lives := lives s; maxLives := maxLives s; combo := c;
     maxCombo := maxCombo s; lastTime := lastTime s;
     gameStartTime := gameStartTime s; timeSurvived := timeSurvived s;
     comboTimer := timer;
     lastObstacleAvoidanceTime := lastObstacleAvoidanceTime s |}.

Definition resetCombo (s : t) : t :=
  if (0 <? combo s)%Z then set_combo s 0%Z 0 else s.

Definition update (deltaTime carSpeed : Q) (s : t) : t :=
  let distanceDelta := Qabs carSpeed * deltaTime in
  let score1 := (score s + Qfloor (distanceDelta * DISTANCE_MULTIPLIER))%Z in
  let score2 :=
    if Qltb 15 carSpeed then
      (score1 + Qfloor ((carSpeed - 15) * SPEED_MULTIPLIER * deltaTime))%Z
    else score1 in
  let score3 := (score2 + Qfloor (TIME_MULTIPLIER * deltaTime))%Z in
  let s1 :=
    {| score := score3; highScore := highScore s;
       distance := distance s + distanceDelta;
       lives := lives s; maxLives := maxLives s; combo := combo s;
       maxCombo := maxCombo s; lastTime := lastTime s;
       gameStartTime := gameStartTime s;
       timeSurvived := timeSurvived s + deltaTime;
       comboTimer := comboTimer s - deltaTime;
       lastObstacleAvoidanceTime := lastObstacleAvoidanceTime s |} in
  if Qleb (comboTimer s1) 0 && (0 <? combo s1)%Z then resetCombo s1 else s1.

(** The per-type factor of the [switch] on the obstacle type. *)
Definition typeMultiplier (obstacleType : string) : Q :=
  if String.eqb obstacleType "wall" then 1.5
  else if String.eqb obstacleType "moving_barrier" then 2.0
  else if String.eqb obstacleType "narrow_passage" then 2.5
  else 1.0.

(** The reward before any combo bonus. *)
Definition basePoints (obstacleType : string) (difficulty : Q) : Q :=
  OBSTACLE_AVOIDANCE_POINTS * typeMultiplier obstacleType * difficulty.

(** [awardObstacleAvoidance(obstacleType, difficulty)], [now] being the value
    of [Date.now()] at the call. *)
Definition awardObstacleAvoidance (obstacleType : string) (difficulty : Q)
    (now : Z) (s : t) : t :=
  let currentTime := seconds now in
  let points := basePoints obstacleType difficulty in
  let inWindow := Qleb (currentTime - lastObstacleAvoidanceTime s) 2.0 in
  let combo1 := if inWindow then (combo s + 1)%Z else 1%Z in
  let points1 :=
    if inWindow then points + inject_Z combo1 * COMBO_MULTIPLIER else points in
  {| score := (score s + Qfloor points1)%Z; highScore := highScore s;
     distance := distance s; lives := lives s; maxLives := maxLives s;
     combo := combo1; maxCombo := Z.max (maxCombo s) combo1;
     lastTime := lastTime s; gameStartTime := gameStartTime s;
     timeSurvived := timeSurvived s; comboTimer := COMBO_TIMEOUT;
     lastObstacleAvoidanceTime := currentTime |}.

Definition set_lives (s : t) (l : Z) : t :=
  {| score := score s; highScore := highScore s; distance := distance s;
     lives := l; maxLives := maxLives s; combo := combo s;
     maxCombo := maxCombo s; lastTime := lastTime s;
     gameStartTime := gameStartTime s; timeSurvived := timeSurvived s;
     comboTimer := comboTimer s;
     lastObstacleAvoidanceTime := lastObstacleAvoidanceTime s |}.

(** [loseLife()]: the state afterwards (the method returns its [lives]). *)
Definition loseLife (s : t) : t :=
  resetCombo (set_lives s (Z.max 0 (lives s - 1))).

Definition gainLife (s : t) : t :=
  if (lives s <? maxLives s)%Z then set_lives s (lives s + 1)%Z else s.

Definition calculateFinalScore (s : t) : Z :=
  let survivalBonus := Qfloor (timeSurvived s * 50) in
  let distanceMilestones := Qfloor (distance s / 1000) in
  let distanceBonus := (distanceMilestones * 1000)%Z in
  let comboBonus := (maxCombo s * 200)%Z in
  (score s + survivalBonus + distanceBonus + comboBonus)%Z.

(** [checkHighScore()]: the state afterwards and the returned flag. *)
Definition checkHighScore (s : t) : t * bool :=
  let finalScore := calculateFinalScore s in
  if (highScore s <? finalScore)%Z then
    ({| score := score s; highScore := finalScore; distance := distance s;
        lives := lives s; maxLives := maxLives s; combo := combo s;
        maxCombo := maxCombo s; lastTime := lastTime s;
        gameStartTime := gameStartTime s; timeSurvived := timeSurvived s;
        comboTimer := comboTimer s;
        lastObstacleAvoidanceTime := lastObstacleAvoidanceTime s |}, true)
  else (s, false).

Definition reset (now : Z) (s : t) : t :=
  {| score := 0; highScore := highScore s; distance := 0;
     lives := maxLives s; maxLives := maxLives s; combo := 0;
     maxCombo := 0; lastTime := lastTime s;
     gameStartTime := seconds now; timeSurvived := 0;
     comboTimer := 0; lastObstacleAvoidanceTime := 0 |}.

(** [loadHighScore()]: [saved] is the number read from the key-value store,
    if there is one ([parseInt(saved, 10) || 0]). *)
Definition loadHighScore (saved : option Z) (s : t) : t :=
  match saved with
  | None => s
  | Some v =>
      {| score := score s; highScore := v; distance := distance s;
         lives := lives s; maxLives := maxLives s; combo := combo s;
         maxCombo := maxCombo s; lastTime := lastTime s;
         gameStartTime := gameStartTime s; timeSurvived := timeSurvived s;
         comboTimer := comboTimer s;
         lastObstacleAvoidanceTime := lastObstacleAvoidanceTime s |}
  end.

Definition initialize (saved : option Z) (now : Z) (s : t) : t :=
  reset now (loadHighScore saved s).

(** The calls a client can make on a score manager, and their effect. *)
Inductive Call :=
| CInitialize (saved : option Z) (now : Z)
| CUpdate (deltaTime carSpeed : Q)
| CAward (obstacleType : string) (difficulty : Q) (now : Z)
| CLoseLife
| CGainLife
| CCheckHighScore
| CReset (now : Z).

Definition call (c : Call) (s : t) : t :=
  match c with
  | CInitialize saved now => initialize saved now s
  | CUpdate dt v => update dt v s
  | CAward ty d now => awardObstacleAvoidance ty d now s
  | CLoseLife => loseLife s
  | CGainLife => gainLife s
  | CCheckHighScore => fst (checkHighScore s)
  | CReset now => reset now s
  end.

(** The state after a sequence of calls, the earliest first. *)
Definition run (cs : list Call) (s : t) : t :=
  fold_left (fun st c => call c st) cs s.

(** [getScoreRanking(score)] *)
Definition getScoreRanking (score : Z) : string :=
  if (50000 <=? score)%Z then "S+"
  else if (30000 <=? score)%Z then "S"
  else if (20000 <=? score)%Z then "A+"
  else if (15000 <=? score)%Z then "A"
  else if (10000 <=? score)%Z then "B+"
  else if (7000 <=? score)%Z then "B"
  else if (5000 <=? score)%Z then "C+"
  else if (3000 <=? score)%Z then "C"
  else if (1000 <=? score)%Z then "D"
  else "F".

(** [getPerformanceStats()] *)
Record PerformanceStats := mkPerformanceStats {
  averageSpeed : Q;
  obstaclesAvoided : Z;
  accuracyRate : Q;
  survivalTime : Q
}.

Definition getPerformanceStats (s : t) : PerformanceStats :=
  let averageSpeed := distance s / Qmax (timeSurvived s) 1 in
  let obstaclesAvoided := Qfloor (distance s / 100) in
  let accuracyRate :=
    Qmin 100
      (inject_Z (combo s) / Qmax (inject_Z obstaclesAvoided) 1 * 100) in
  mkPerformanceStats averageSpeed obstaclesAvoided accuracyRate (timeSurvived s).

(** [checkMilestones()] *)
Definition checkMilestones (s : t) : list string :=
  (if Qleb 1000 (distance s) && Qltb (distance s) 1100 then ["1KM_TRAVELED"]
   else if Qleb 5000 (distance s) && Qltb (distance s) 5100
        then ["5KM_TRAVELED"] else [])
  ++ (if (combo s =? 10)%Z then ["10X_COMBO"]
      else if (combo s =? 25)%Z then ["25X_COMBO"] else [])
  ++ (if Qleb 60 (timeSurvived s) && Qltb (timeSurvived s) 61
      then ["1MIN_SURVIVAL"]
      else if Qleb 300 (timeSurvived s) && Qltb (timeSurvived s) 301
           then ["5MIN_SURVIVAL"] else []).

End ScoreManager.

(** ** ObstacleManager.ts *)

Module ObstacleManager.
Import Three.

Inductive ObstacleType := barrier | wall | cone.

#[global] Instance ObstacleType_eq_dec : EqDecision ObstacleType.
Proof. solve_decision. Defined.

#[global] Instance ObstacleType_countable : Countable ObstacleType.
Proof.
  refine (inj_countable'
            (fun ty => match ty with barrier => 0%nat | wall => 1%nat | cone => 2%nat end)
            (fun n => match n with 0%nat => barrier | 1%nat => wall | _ => cone end) _).
  intros []; reflexivity.
Defined.

Inductive Pattern :=
| single_barrier | double_barrier | wall_gap
| cone_slalom | narrow_passage | moving_barriers.

(** An obstacle's [THREE.Mesh], as far as the manager reads and writes it. *)
Record Mesh := mkMesh {
  visible : bool;
  mesh_position : Vector3;
  scale_x : Q
}.

(** [ObstacleData]. Its [mesh] is a reference: [M] is the address of the mesh
    in the manager's store, or the mesh object itself for a client that only
    reads it. *)
Record ObstacleData (M : Type) := mkObstacle {
  mesh : M;
  type : ObstacleType;
  position : Vector3;
  boundingBox : Box3;
  isActive : bool;
  speed : option Q;
  direction : option Vector3
}.
Arguments mkObstacle {M}.
Arguments mesh {M}.
Arguments type {M}.
Arguments position {M}.
Arguments boundingBox {M}.
Arguments isActive {M}.
Arguments speed {M}.
Arguments direction {M}.

(** The manager. Meshes are shared between the pools and the obstacles that
    use them, so they live in a store ([meshes]) and are named by address.
    [drawn] counts the values taken from [Math.random] so far; [placed] is a
    ghost record of the patterns dispatched, the latest last. *)
Record t := mkManager {
  scene : option (gset nat);
  meshes : gmap nat Mesh;
  obstacles : list (ObstacleData nat);
  obstaclePool : gmap ObstacleType (list nat);
  spawnDistance : Q;
  despawnDistance : Q;
  lastSpawnZ : Q;
  difficulty : Q;
  timeSinceStart : Q;
  drawn : nat;
  placed : list (Q * Pattern)
}.

Definition new : t :=
  {| scene := None; meshes := ∅; obstacles := []; obstaclePool := ∅;
     spawnDistance := 100; despawnDistance := -50; lastSpawnZ := 50;
     difficulty := 1; timeSinceStart := 0; drawn := 0; placed := [] |}.

Definition patterns : list Pattern :=
  [single_barrier; double_barrier; wall_gap; cone_slalom; narrow_passage;
   moving_barriers].

(** [patterns[Math.floor(r * patterns.length)]], [r] being the value drawn. *)
Definition patternAt (r : Q) : option Pattern :=
  let patternIndex := Qfloor (r * inject_Z (Z.of_nat (length patterns))) in
  if (0 <=? patternIndex)%Z then patterns !! Z.to_nat patternIndex else None.

Definition poolSize : nat := 20.
Definition types : list ObstacleType := [barrier; wall; cone].

(** *** Field updates *)

Definition set_scene (v : option (gset nat)) (s : t) : t :=
  {| scene := v; meshes := meshes s; obstacles := obstacles s;
     obstaclePool := obstaclePool s; spawnDistance := spawnDistance s;
     despawnDistance := despawnDistance s; lastSpawnZ := lastSpawnZ s;
     difficulty := difficulty s; timeSinceStart := timeSinceStart s;
     drawn := drawn s; placed := placed s |}.

Definition set_meshes (v : gmap nat Mesh) (s : t) : t :=
  {| scene := scene s; meshes := v; obstacles := obstacles s;
     obstaclePool := obstaclePool s; spawnDistance := spawnDistance s;
     despawnDistance := despawnDistance s; lastSpawnZ := lastSpawnZ s;
     difficulty := difficulty s; timeSinceStart := timeSinceStart s;
     drawn := drawn s; placed := placed s |}.

Definition set_obstacles (v : list (ObstacleData nat)) (s : t) : t :=
  {| scene := scene s; meshes := meshes s; obstacles := v;
     obstaclePool := obstaclePool s; spawnDistance := spawnDistance s;
     despawnDistance := despawnDistance s; lastSpawnZ := lastSpawnZ s;
     difficulty := difficulty s; timeSinceStart := timeSinceStart s;
     drawn := drawn s; placed := placed s |}.

Definition set_obstaclePool (v : gmap ObstacleType (list nat)) (s : t) : t :=
  {| scene := scene s; meshes := meshes s; obstacles := obstacles s;
     obstaclePool := v; spawnDistance := spawnDistance s;
     despawnDistance := despawnDistance s; lastSpawnZ := lastSpawnZ s;
     difficulty := difficulty s; timeSinceStart := timeSinceStart s;
     drawn := drawn s; placed := placed s |}.

Definition set_lastSpawnZ (v : Q) (s : t) : t :=
  {| scene := scene s; meshes := meshes s; obstacles := obstacles s;
     obstaclePool := obstaclePool s; spawnDistance := spawnDistance s;
     despawnDistance := despawnDistance s; lastSpawnZ := v;
     difficulty := difficulty s; timeSinceStart := timeSinceStart s;
     drawn := drawn s; placed := placed s |}.

Definition set_difficulty (v : Q) (s : t) : t :=
  {| scene := scene s; meshes := meshes s; obstacles := obstacles s;
     obstaclePool := obstaclePool s; spawnDistance := spawnDistance s;
     despawnDistance := despawnDistance s; lastSpawnZ := lastSpawnZ s;
     difficulty := v; timeSinceStart := timeSinceStart s;
     drawn := drawn s; placed := placed s |}.

Definition set_timeSinceStart (v : Q) (s : t) : t :=
  {| scene := scene s; meshes := meshes s; obstacles := obstacles s;
     obstaclePool := obstaclePool s; spawnDistance := spawnDistance s;
     despawnDistance := despawnDistance s; lastSpawnZ := lastSpawnZ s;
     difficulty := difficulty s; timeSinceStart := v;
     drawn := drawn s; placed := placed s |}.

Definition set_drawn (v : nat) (s : t) : t :=
  {| scene := scene s; meshes := meshes s; obstacles := obstacles s;
     obstaclePool := obstaclePool s; spawnDistance := spawnDistance s;
     despawnDistance := despawnDistance s; lastSpawnZ := lastSpawnZ s;
     difficulty := difficulty s; timeSinceStart := timeSinceStart s;
     drawn := v; placed := placed s |}.

Definition set_placed (v : list (Q * Pattern)) (s : t) : t :=
  {| scene := scene s; meshes := meshes s; obstacles := obstacles s;
     obstaclePool := obstaclePool s; spawnDistance := spawnDistance s;
     despawnDistance := despawnDistance s; lastSpawnZ := lastSpawnZ s;
     difficulty := difficulty s; timeSinceStart := timeSinceStart s;
     drawn := drawn s; placed := v |}.

Definition set_motion (sp : option Q) (dir : option Vector3)
    (o : ObstacleData nat) : ObstacleData nat :=
  mkObstacle (mesh o) (type o) (position o) (boundingBox o) (isActive o) sp dir.

(** *** Methods as state transformers *)

Definition M (A : Type) : Type := t -> A * t.

Definition ret {A} (a : A) : M A := fun s => (a, s).

Definition bind {A B} (m : M A) (k : A -> M B) : M B :=
  fun s => let (a, s1) := m s in k a s1.

Definition modify (f : t -> t) : M unit := fun s => (tt, f s).

Definition exec {A} (m : M A) (s : t) : t := snd (m s).

Notation "x <- m ;; k" := (bind m (fun x => k))
  (at level 100, m at next level, right associativity).
Notation "m ;;; k" := (bind m (fun _ => k))
  (at level 100, right associativity).

(** Repeat the body for [i = start, start + 1, ...], [n] times. *)
Fixpoint forLoop (n : nat) (start : Z) (body : Z -> M unit) : M unit :=
  match n with
  | O => ret tt
  | S n' => body start ;;; forLoop n' (start + 1)%Z body
  end.

Section Manager.

(** The successive values of [Math.random()]. *)
Variable Math_random : nat -> Q.
(** [new THREE.Box3().setFromObject(mesh)] for a mesh of the given type. *)
Variable setFromObject : ObstacleType -> Mesh -> Box3.

Definition random_ : M Q :=
  fun s => (Math_random (drawn s), set_drawn (S (drawn s)) s).

Definition random (min max : Q) : M Q :=
  r <- random_ ;; ret (MathUtils.random r min max).

(** [ThreeUtils.createObstacleGeometry(type)], then [visible = false]. *)
Definition createObstacleGeometry (ty : ObstacleType) : Mesh :=
  mkMesh false (mkVector3 0 (if decide (ty = cone) then 0.75 else 1) 0) 1.

(** The addresses [a, a + 1, ..., a + n - 1] of [n] new meshes. *)
Definition allocate (ty : ObstacleType) (a : nat) (n : nat)
    (store : gmap nat Mesh) : gmap nat Mesh :=
  foldr (fun i st => <[i := createObstacleGeometry ty]> st) store (seq a n).

(** An address no mesh lives at yet. *)
Definition freshAddress (store : gmap nat Mesh) : nat :=
  S (foldr Nat.max 0%nat (map fst (map_to_list store))).

Definition createObstaclePool (s : t) : t :=
  fold_left
    (fun st ty =>
       let a := freshAddress (meshes st) in
       set_obstaclePool (<[ty := seq a poolSize]> (obstaclePool st))
         (set_meshes (allocate ty a poolSize (meshes st)) st))
    types s.

(** [pool.find(obj => !obj.visible)]: the first mesh of the type's pool that
    is not in use. *)
Definition getObstacleFromPool (ty : ObstacleType) (s : t) : option nat :=
  match obstaclePool s !! ty with
  | None => None
  | Some pool =>
      snd <$> list_find (fun a => visible <$> meshes s !! a = Some false) pool
  end.

Definition returnObstacleToPool (a : nat) (s : t) : t :=
  set_meshes
    (alter (fun m => mkMesh false (mkVector3 0 (-100) 0) (scale_x m)) a (meshes s))
    s.

Definition sceneAdd (a : nat) (s : t) : t :=
  set_scene (union {[a]} <$> scene s) s.

Definition sceneRemove (a : nat) (s : t) : t :=
  set_scene ((fun children => children ∖ {[a]}) <$> scene s) s.

(** [createObstacle(type, x, z)]: the index in [obstacles] of the obstacle
    created, or [None] (the code's [null]). *)
Definition createObstacle (ty : ObstacleType) (px pz : Q) : M (option nat) :=
  fun s =>
    match scene s with
    | None => (None, s)
    | Some _ =>
        match getObstacleFromPool ty s with
        | None => (None, s)
        | Some a =>
            let pos := mkVector3 px (if decide (ty = cone) then 0.75 else 1) pz in
            let upd := fun m => mkMesh true pos (scale_x m) in
            let store := alter upd a (meshes s) in
            let box :=
              match store !! a with
              | Some m => setFromObject ty m
              | None => mkBox3 pos pos
              end in
            let s1 := sceneAdd a (set_meshes store s) in
            let obstacleData := mkObstacle a ty pos box true None None in
            (Some (length (obstacles s1)),
             set_obstacles (obstacles s1 ++ [obstacleData]) s1)
        end
    end.

(** [created.mesh.scale.x = v] for the obstacle at index [i]. *)
Definition setMeshScaleX (i : nat) (v : Q) (s : t) : t :=
  match obstacles s !! i with
  | None => s
  | Some o =>
      set_meshes
        (alter (fun m => mkMesh (visible m) (mesh_position m) v) (mesh o) (meshes s))
        s
  end.

(** [created.speed = sp; created.direction = dir] for the obstacle at [i]. *)
Definition setMotion (i : nat) (sp : Q) (dir : Vector3) (s : t) : t :=
  set_obstacles (alter (set_motion (Some sp) (Some dir)) i (obstacles s)) s.

Definition spawnSingleBarrier (pz : Q) : M unit :=
  px <- random (-6) 6 ;;
  createObstacle barrier px pz ;;;
  ret tt.

Definition spawnDoubleBarrier (pz : Q) : M unit :=
  gap <- random 4 6 ;;
  centerX <- random (-3) 3 ;;
  createObstacle barrier (centerX - gap / 2) pz ;;;
  createObstacle barrier (centerX + gap / 2) pz ;;;
  ret tt.

Definition spawnWallGap (pz : Q) : M unit :=
  gapCenter <- random (-4) 4 ;;
  gapWidth <- random 3 5 ;;
  (if Qltb (-8) (gapCenter - gapWidth / 2) then
     leftWall <- createObstacle wall (gapCenter - gapWidth / 2 - 4) pz ;;
     match leftWall with
     | Some i => modify (setMeshScaleX i 0.5)
     | None => ret tt
     end
   else ret tt) ;;;
  (if Qltb (gapCenter + gapWidth / 2) 8 then
     rightWall <- createObstacle wall (gapCenter + gapWidth / 2 + 4) pz ;;
     match rightWall with
     | Some i => modify (setMeshScaleX i 0.5)
     | None => ret tt
     end
   else ret tt).

Definition spawnConeSlalom (pz : Q) : M unit :=
  fun s =>
    let numCones := (3 + Qfloor (difficulty s))%Z in
    let spacing := 8 in
    forLoop (Z.to_nat numCones) 0%Z
      (fun i =>
         r <- random (-1) 1 ;;
         let px := (if (i mod 2 =? 0)%Z then -3 else 3) + r in
         createObstacle cone px (pz + inject_Z i * spacing) ;;;
         ret tt)
      s.

Definition spawnNarrowPassage (pz : Q) : M unit :=
  fun s =>
    let passageWidth := Qmax 3 (5 - difficulty s) in
    (createObstacle barrier (- passageWidth / 2 - 1) pz ;;;
     createObstacle barrier (passageWidth / 2 + 1) pz ;;;
     createObstacle barrier (- passageWidth / 2 - 1) (pz + 5) ;;;
     createObstacle barrier (passageWidth / 2 + 1) (pz + 5) ;;;
     ret tt) s.

Definition spawnMovingBarriers (pz : Q) : M unit :=
  leftBarrier <- createObstacle barrier (-4) pz ;;
  rightBarrier <- createObstacle barrier 4 pz ;;
  match leftBarrier with
  | Some i =>
      sp <- random 2 4 ;; modify (setMotion i sp (mkVector3 1 0 0))
  | None => ret tt
  end ;;;
  match rightBarrier with
  | Some i =>
      sp <- random 2 4 ;; modify (setMotion i sp (mkVector3 (-1) 0 0))
  | None => ret tt
  end.

Definition spawnPattern (p : Pattern) (pz : Q) : M unit :=
  match p with
  | single_barrier => spawnSingleBarrier pz
  | double_barrier => spawnDoubleBarrier pz
  | wall_gap => spawnWallGap pz
  | cone_slalom => spawnConeSlalom pz
  | narrow_passage => spawnNarrowPassage pz
  | moving_barriers => spawnMovingBarriers pz
  end.

(** [spawnObstaclePattern(z)]: without a scene nothing happens; otherwise the
    pattern at index [floor(Math.random() * patterns.length)] is run (an index
    outside the table selects no case of the [switch]). *)
Definition spawnObstaclePattern (pz : Q) : M unit :=
  fun s =>
    match scene s with
    | None => (tt, s)
    | Some _ =>
        (r <- random_ ;;
         match patternAt r with
         | Some p =>
             modify (fun st => set_placed (placed st ++ [(pz, p)]) st) ;;;
             spawnPattern p pz
         | None => ret tt
         end) s
    end.

(** [for (let z = 20; z < 100; z += 15) spawnObstaclePattern(z)] *)
Definition spawnInitialObstacles : M unit :=
  spawnObstaclePattern 20 ;;; spawnObstaclePattern 35 ;;;
  spawnObstaclePattern 50 ;;; spawnObstaclePattern 65 ;;;
  spawnObstaclePattern 80 ;;; spawnObstaclePattern 95.

Definition initialize (s : t) : t :=
  exec spawnInitialObstacles (createObstaclePool (set_scene (Some ∅) s)).

Definition updateDifficulty (s : t) : t :=
  set_difficulty (Qmin (1 + timeSinceStart s / 30) 5) s.

(** The callback of [this.obstacles.filter] in [cleanupObstacles]. *)
Fixpoint cleanupFilter (carPosition : Vector3) (obs : list (ObstacleData nat))
    (s : t) : list (ObstacleData nat) * t :=
  match obs with
  | [] => ([], s)
  | o :: rest =>
      if Qltb (z (position o)) (z carPosition + despawnDistance s) then
        cleanupFilter carPosition rest
          (returnObstacleToPool (mesh o) (sceneRemove (mesh o) s))
      else
        let (kept, s1) := cleanupFilter carPosition rest s in
        (o :: kept, s1)
  end.

Definition cleanupObstacles (carPosition : Vector3) (s : t) : t :=
  let (kept, s1) := cleanupFilter carPosition (obstacles s) s in
  set_obstacles kept s1.

(** The [while] loop of [spawnObstacles], run for at most [fuel] iterations:
    [None] when the loop is still running after them. *)
Fixpoint spawnLoop (fuel : nat) (spawnZ : Q) (s : t) : option t :=
  if Qltb (lastSpawnZ s) spawnZ then
    match fuel with
    | O => None
    | S fuel' =>
        let (inc, s1) := random 10 (20 / difficulty s) s in
        let s2 := set_lastSpawnZ (lastSpawnZ s1 + inc) s1 in
        spawnLoop fuel' spawnZ (exec (spawnObstaclePattern (lastSpawnZ s2)) s2)
    end
  else Some s.

Definition spawnObstacles (fuel : nat) (carPosition : Vector3) (s : t)
    : option t :=
  spawnLoop fuel (z carPosition + spawnDistance s) s.

(** One obstacle of [updateMovingObstacles]: a number counts as present when
    it is not zero. *)
Definition moveObstacle (deltaTime : Q) (o : ObstacleData nat) (s : t)
    : ObstacleData nat * t :=
  match speed o, direction o with
  | Some sp, Some dir =>
      if Qeq_bool sp 0 then (o, s)
      else
        match meshes s !! mesh o with
        | None => (o, s)
        | Some m =>
            let movement := multiplyScalar dir (sp * deltaTime) in
            let pos := add (mesh_position m) movement in
            let m1 := mkMesh (visible m) pos (scale_x m) in
            let dir1 :=
              if Qltb 7 (x pos) || Qltb (x pos) (-7)
              then set_x dir (x dir * -1) else dir in
            (mkObstacle (mesh o) (type o) pos (setFromObject (type o) m1)
               (isActive o) (Some sp) (Some dir1),
             set_meshes (<[mesh o := m1]> (meshes s)) s)
        end
  | _, _ => (o, s)
  end.

Fixpoint moveAll (deltaTime : Q) (obs : list (ObstacleData nat)) (s : t)
    : list (ObstacleData nat) * t :=
  match obs with
  | [] => ([], s)
  | o :: rest =>
      let (o1, s1) := moveObstacle deltaTime o s in
      let (rest1, s2) := moveAll deltaTime rest s1 in
      (o1 :: rest1, s2)
  end.

Definition updateMovingObstacles (deltaTime : Q) (s : t) : t :=
  let (obs, s1) := moveAll deltaTime (obstacles s) s in
  set_obstacles obs s1.

(** [update(deltaTime, carPosition)], its spawn loop bounded by [fuel]. *)
Definition update (fuel : nat) (deltaTime : Q) (carPosition : Vector3)
    (s : t) : option t :=
  let s1 := set_timeSinceStart (timeSinceStart s + deltaTime) s in
  let s2 := updateDifficulty s1 in
  let s3 := cleanupObstacles carPosition s2 in
  match spawnObstacles fuel carPosition s3 with
  | None => None
  | Some s4 => Some (updateMovingObstacles deltaTime s4)
  end.

(** [getObstacles()]: the active obstacles. *)
Definition getObstacles (s : t) : list (ObstacleData nat) :=
  filter (fun o => isActive o = true) (obstacles s).

Definition getActiveObstacleCount (s : t) : nat := length (obstacles s).

Definition getDifficulty (s : t) : Q := difficulty s.

Definition reset (s : t) : t :=
  let s1 :=
    fold_left
      (fun st o => returnObstacleToPool (mesh o) (sceneRemove (mesh o) st))
      (obstacles s) s in
  let s2 :=
    set_timeSinceStart 0
      (set_difficulty 1 (set_lastSpawnZ 50 (set_obstacles [] s1))) in
  exec spawnInitialObstacles s2.

End Manager.

(** [dispose()]: the obstacles leave the scene, and the list and the pools
    are emptied (releasing the geometry has no effect on this state). *)
Definition dispose (s : t) : t :=
  let s1 := fold_left (fun st o => sceneRemove (mesh o) st) (obstacles s) s in
  set_obstaclePool ∅ (set_obstacles [] s1).

End ObstacleManager.

(** ** CollisionDetector.ts *)

Module CollisionDetector.
Import Three.
Import ObstacleManager.

(** One entry of what [raycaster.intersectObject] returns. *)
Record Intersection := mkIntersection {
  distance : Q;
  point : Vector3;
  faceNormal : option Vector3
}.

Record CollisionResult (M : Type) := mkResult {
  hasCollision : bool;
  obstacle : option (ObstacleData M);
  impactPoint : option Vector3;
  impactNormal : option Vector3
}.
Arguments mkResult {M}.
Arguments hasCollision {M}.
Arguments obstacle {M}.
Arguments impactPoint {M}.
Arguments impactNormal {M}.

Definition noCollision {M} : CollisionResult M := mkResult false None None None.

(** What a call of [checkCollisions] leaves behind: the result it returns,
    the obstacles as the call has updated them (it refreshes the bounding box
    of each obstacle it visits) and, as a ghost record, the obstacles the
    narrow phase was run on, in order. *)
Record Outcome (M : Type) := mkOutcome {
  result : CollisionResult M;
  obstaclesAfter : list (ObstacleData M);
  narrowPhase : list (ObstacleData M)
}.
Arguments mkOutcome {M}.
Arguments result {M}.
Arguments obstaclesAfter {M}.
Arguments narrowPhase {M}.

Section Detector.

(** The type of meshes, the box three.js computes for one, and the raycaster:
    the intersections of the ray from an origin along a direction with a
    mesh, the nearest first. *)
Variable M : Type.
Variable setFromObject : M -> Box3.
Variable intersectObject : Vector3 -> Vector3 -> M -> list Intersection.

Definition directions : list Vector3 :=
  [mkVector3 1 0 0; mkVector3 (-1) 0 0; mkVector3 0 0 1;
   mkVector3 0 0 (-1); mkVector3 0 1 0; mkVector3 0 (-1) 0].

Definition set_boundingBox (b : Box3) (o : ObstacleData M) : ObstacleData M :=
  mkObstacle (mesh o) (type o) (position o) b (isActive o) (speed o)
    (direction o).

(** The loop over the six ray directions. *)
Fixpoint castRays (carCenter : Vector3) (maxDistance : Q)
    (o : ObstacleData M) (dirs : list Vector3) : CollisionResult M :=
  match dirs with
  | [] => noCollision
  | d :: rest =>
      match intersectObject carCenter d (mesh o) with
      | i :: _ =>
          if Qleb (distance i) maxDistance then
            mkResult true (Some o) (Some (point i))
              (Some (default (mkVector3 0 1 0) (faceNormal i)))
          else castRays carCenter maxDistance o rest
      | [] => castRays carCenter maxDistance o rest
      end
  end.

Definition detailedCollisionCheck (carBoundingBox : Box3)
    (o : ObstacleData M) : CollisionResult M :=
  let carCenter := getCenter carBoundingBox in
  let carSize := getSize carBoundingBox in
  let maxDistance := Qmax (Qmax (x carSize) (y carSize)) (z carSize) * 0.6 in
  castRays carCenter maxDistance o directions.

(** [checkCollisions(carBoundingBox, obstacles)] *)
Fixpoint checkCollisions (carBoundingBox : Box3)
    (obstacles : list (ObstacleData M)) : Outcome M :=
  match obstacles with
  | [] => mkOutcome noCollision [] []
  | o :: rest =>
      if negb (isActive o) then
        let out := checkCollisions carBoundingBox rest in
        mkOutcome (result out) (o :: obstaclesAfter out) (narrowPhase out)
      else
        let o1 := set_boundingBox (setFromObject (mesh o)) o in
        if intersectsBox carBoundingBox (boundingBox o1) then
          let detailedResult := detailedCollisionCheck carBoundingBox o1 in
          if hasCollision detailedResult then
            mkOutcome detailedResult (o1 :: rest) [o1]
          else
            let out := checkCollisions carBoundingBox rest in
            mkOutcome (result out) (o1 :: obstaclesAfter out)
              (o1 :: narrowPhase out)
        else
          let out := checkCollisions carBoundingBox rest in
          mkOutcome (result out) (o1 :: obstaclesAfter out) (narrowPhase out)
  end.

(** [predictCollision(carBoundingBox, carVelocity, obstacles, lookAheadTime)] *)
Definition futureBoundingBox (carBoundingBox : Box3) (carVelocity : Vector3)
    (lookAheadTime : Q) : Box3 :=
  let carCenter := getCenter carBoundingBox in
  let futurePosition := add carCenter (multiplyScalar carVelocity lookAheadTime) in
  let carSize := getSize carBoundingBox in
  setFromCenterAndSize futurePosition carSize.

Definition predictCollision (carBoundingBox : Box3) (carVelocity : Vector3)
    (obstacles : list (ObstacleData M)) (lookAheadTime : Q) : Outcome M :=
  checkCollisions (futureBoundingBox carBoundingBox carVelocity lookAheadTime)
    obstacles.

End Detector.

(** [checkRoadBoundaries(carPosition, roadWidth)]; the default width is 20. *)
Definition checkRoadBoundaries (carPosition : Vector3) (roadWidth : Q) : bool :=
  let halfWidth := roadWidth / 2 in
  Qleb (- halfWidth) (x carPosition) && Qleb (x carPosition) halfWidth.

Definition defaultRoadWidth : Q := 20.

(** [checkBoxCollision(box1, box2, tolerance)] *)
Definition checkBoxCollision (box1 box2 : Box3) (tolerance : Q) : bool :=
  if Qeq_bool tolerance 0 then intersectsBox box1 box2
  else intersectsBox (expandByScalar box1 tolerance)
         (expandByScalar box2 tolerance).

(** [calculateCollisionResponse(carVelocity, impactNormal, restitution)]; the
    default restitution is 0.3. *)
Definition calculateCollisionResponse (carVelocity impactNormal : Vector3)
    (restitution : Q) : Vector3 :=
  multiplyScalar (reflect carVelocity impactNormal) restitution.

(** The loop of [checkMultipleCollisions], [index] being that of the first
    box of the list. *)
Fixpoint collisionIndices (carBoundingBox : Box3) (boxes : list Box3)
    (index : nat) : list nat :=
  match boxes with
  | [] => []
  | box :: rest =>
      if intersectsBox carBoundingBox box
      then index :: collisionIndices carBoundingBox rest (S index)
      else collisionIndices carBoundingBox rest (S index)
  end.

Definition checkMultipleCollisions (carBoundingBox : Box3)
    (objectBoundingBoxes : list Box3) : list nat :=
  collisionIndices carBoundingBox objectBoundingBoxes 0.

(** [getCollisionPenetration(box1, box2)] *)
Definition getCollisionPenetration (box1 box2 : Box3) : Q :=
  if negb (intersectsBox box1 box2) then 0
  else
    let size := getSize (intersect box1 box2) in
    Qmin (Qmin (x size) (y size)) (z size).

Definition isPointInBox (point : Vector3) (box : Box3) : bool :=
  containsPoint box point.

(** [getClosestPointOnBox(point, box)] *)
Definition getClosestPointOnBox (point : Vector3) (box : Box3) : Vector3 :=
  mkVector3 (Qmax (x (bmin box)) (Qmin (x point) (x (bmax box))))
    (Qmax (y (bmin box)) (Qmin (y point) (y (bmax box))))
    (Qmax (z (bmin box)) (Qmin (z point) (z (bmax box)))).

End CollisionDetector.

(** ** GameEngine.ts *)

Module GameEngine.

Inductive GameState := MENU | PLAYING | PAUSED | GAME_OVER | SETTINGS.

#[global] Instance GameState_eq_dec : EqDecision GameState.
Proof. solve_decision. Defined.

Record GameStats := mkStats {
  score : Z;
  distance : Q;
  speed : Q;
  lives : Z;
  combo : Z;
  obstaclesAvoided : Z;
  timeElapsed : Q;
  level : Z
}.

(** What the engine hands to [requestAnimationFrame]: its game loop, or the
    screen-shake closure with its elapsed [shakeTime]. *)
Inductive Callback := gameLoopCb | shakeCb (shakeTime : Q).

#[global] Instance Callback_is_gameLoop_dec (c : Callback) : Decision (c = gameLoopCb).
Proof. destruct c; [left; reflexivity | right; discriminate]. Defined.

(** What the engine reports to its observers. *)
Inductive Notification :=
| StateChange (st : GameState)
| StatsUpdate (stats : GameStats)
| GameOver (finalStats : GameStats).

(** What one tick reads from outside the engine: the clock's delta, the car
    controller's distance and speed, whether some active obstacle's bounding
    box collides with the car's, and the score manager's [calculateScore]. *)
Record Tick := mkTick {
  deltaTime : Q;
  distanceTraveled : Q;
  carSpeed : Q;
  collision : bool;
  calculateScore : Z -> Z -> Z -> Z
}.

(** The engine and, of the browser, the animation-frame requests that are
    pending ([frames], by id) and the next id it hands out. [updates] is a
    ghost count of the executions of [updateGame]; [emitted] the notifications
    sent so far, the latest last. *)
Record t := mkEngine {
  gameState : GameState;
  stats : GameStats;
  animationId : option nat;
  clockRunning : bool;
  frames : list (nat * Callback);
  nextFrameId : nat;
  updates : nat;
  emitted : list Notification
}.

Definition initialStats : GameStats := mkStats 0 0 0 3 0 0 0 1.

Definition new : t :=
  {| gameState := MENU; stats := initialStats; animationId := None;
     clockRunning := false; frames := []; nextFrameId := 1; updates := 0;
     emitted := [] |}.

Definition set_gameState (v : GameState) (e : t) : t :=
  {| gameState := v; stats := stats e; animationId := animationId e;
     clockRunning := clockRunning e; frames := frames e;
     nextFrameId := nextFrameId e; updates := updates e;
     emitted := emitted e |}.

Definition set_stats (v : GameStats) (e : t) : t :=
  {| gameState := gameState e; stats := v; animationId := animationId e;
     clockRunning := clockRunning e; frames := frames e;
     nextFrameId := nextFrameId e; updates := updates e;
     emitted := emitted e |}.

Definition set_animationId (v : option nat) (e : t) : t :=
  {| gameState := gameState e; stats := stats e; animationId := v;
     clockRunning := clockRunning e; frames := frames e;
     nextFrameId := nextFrameId e; updates := updates e;
     emitted := emitted e |}.

Definition set_clockRunning (v : bool) (e : t) : t :=
  {| gameState := gameState e; stats := stats e; animationId := animationId e;
     clockRunning := v; frames := frames e;
     nextFrameId := nextFrameId e; updates := updates e;
     emitted := emitted e |}.

Definition set_frames (v : list (nat * Callback)) (e : t) : t :=
  {| gameState := gameState e; stats := stats e; animationId := animationId e;
     clockRunning := clockRunning e; frames := v;
     nextFrameId := nextFrameId e; updates := updates e;
     emitted := emitted e |}.

Definition emit (n : Notification) (e : t) : t :=
  {| gameState := gameState e; stats := stats e; animationId := animationId e;
     clockRunning := clockRunning e; frames := frames e;
     nextFrameId := nextFrameId e; updates := updates e;
     emitted := emitted e ++ [n] |}.

Definition countUpdate (e : t) : t :=
  {| gameState := gameState e; stats := stats e; animationId := animationId e;
     clockRunning := clockRunning e; frames := frames e;
     nextFrameId := nextFrameId e; updates := S (updates e);
     emitted := emitted e |}.

(** [requestAnimationFrame(cb)]: the id of the request and the state after. *)
Definition requestAnimationFrame (cb : Callback) (e : t) : nat * t :=
  (nextFrameId e,
   {| gameState := gameState e; stats := stats e; animationId := animationId e;
      clockRunning := clockRunning e; frames := frames e ++ [(nextFrameId e, cb)];
      nextFrameId := S (nextFrameId e); updates := updates e;
      emitted := emitted e |}).

Definition cancelAnimationFrame (id : nat) (e : t) : t :=
  set_frames (filter (fun f => fst f <> id) (frames e)) e.

Definition resetGameStats (e : t) : t := set_stats initialStats e.

Definition pauseGame (e : t) : t :=
  if decide (gameState e = PLAYING) then
    emit (StateChange PAUSED) (set_clockRunning false (set_gameState PAUSED e))
  else e.

(** [endGame()]: an [animationId] of [0] counts as absent. *)
Definition endGame (e : t) : t :=
  let e1 := set_clockRunning false (set_gameState GAME_OVER e) in
  let e2 :=
    match animationId e1 with
    | Some id =>
        if decide (id = 0%nat) then e1
        else set_animationId None (cancelAnimationFrame id e1)
    | None => e1
    end in
  emit (StateChange GAME_OVER) (emit (GameOver (stats e2)) e2).

(** The closure [shake] of [addScreenShake], at elapsed time [shakeTime]. *)
Definition shake (shakeTime : Q) (e : t) : t :=
  if Qltb shakeTime 0.3 then
    snd (requestAnimationFrame (shakeCb (shakeTime + 0.016)) e)
  else e.

Definition addScreenShake (e : t) : t := shake 0 e.

Definition handleCollision (e : t) : t :=
  let st := stats e in
  addScreenShake
    (set_stats
       (mkStats (score st) (distance st) (speed st) (lives st - 1)%Z 0%Z
          (obstaclesAvoided st) (timeElapsed st) (level st))
       e).

Definition updateGame (tk : Tick) (e : t) : t :=
  let e0 := countUpdate e in
  let st := stats e0 in
  let e1 :=
    set_stats
      (mkStats (score st) (distanceTraveled tk) (carSpeed tk) (lives st)
         (combo st) (obstaclesAvoided st) (timeElapsed st + deltaTime tk)
         (level st))
      e0 in
  let e2 := if collision tk then handleCollision e1 else e1 in
  let st2 := stats e2 in
  let distanceScore := Qfloor (distance st2 / 10) in
  let speedBonus := Qfloor (speed st2 * 2) in
  let newScore := calculateScore tk distanceScore speedBonus (combo st2) in
  let newLevel := (Qfloor (distance st2 / 1000) + 1)%Z in
  let st3 :=
    mkStats newScore (distance st2) (speed st2) (lives st2) (combo st2)
      (obstaclesAvoided st2) (timeElapsed st2)
      (if (level st2 <? newLevel)%Z then newLevel else level st2) in
  let e3 := emit (StatsUpdate st3) (set_stats st3 e2) in
  if (lives (stats e3) <=? 0)%Z then endGame e3 else e3.

Definition gameLoop (tk : Tick) (e : t) : t :=
  if decide (gameState e = PLAYING) then
    let e1 := updateGame tk e in
    let (id, e2) := requestAnimationFrame gameLoopCb e1 in
    set_animationId (Some id) e2
  else e.

Definition startGame (tk : Tick) (e : t) : t :=
  gameLoop tk
    (emit (StateChange PLAYING)
       (set_clockRunning true (set_gameState PLAYING (resetGameStats e)))).

Definition resumeGame (tk : Tick) (e : t) : t :=
  if decide (gameState e = PAUSED) then
    gameLoop tk
      (emit (StateChange PLAYING)
         (set_clockRunning true (set_gameState PLAYING e)))
  else e.

Definition resetGame (e : t) : t :=
  emit (StateChange MENU) (set_gameState MENU (resetGameStats e)).

Definition handleKeyDown (code : string) (tk : Tick) (e : t) : t :=
  if decide (gameState e = PLAYING) then
    if String.eqb code "Escape" then pauseGame e else e
  else if decide (gameState e = PAUSED) then
    if String.eqb code "Escape" then resumeGame tk e else e
  else e.

Definition handleWindowBlur (e : t) : t :=
  if decide (gameState e = PLAYING) then pauseGame e else e.

(** The browser runs the pending request [id], if there is one. *)
Definition fireFrame (id : nat) (tk : Tick) (e : t) : t :=
  match list_find (fun f => fst f = id) (frames e) with
  | None => e
  | Some (_, (_, cb)) =>
      let e1 := cancelAnimationFrame id e in
      match cb with
      | gameLoopCb => gameLoop tk e1
      | shakeCb shakeTime => shake shakeTime e1
      end
  end.

(** What can happen to an engine: the browser runs a pending frame or
    delivers a window event, or a client calls a public method. *)
Inductive Event :=
| EFrame (id : nat)
| EKeyDown (code : string)
| EKeyUp (code : string)
| EBlur
| EFocus
| EStartGame
| EPauseGame
| EResumeGame
| EEndGame
| EResetGame.

(** The effect of an event; [tk] is what a tick run by it reads. *)
Definition handle (ev : Event) (tk : Tick) (e : t) : t :=
  match ev with
  | EFrame id => fireFrame id tk e
  | EKeyDown code => handleKeyDown code tk e
  | EKeyUp _ => e
  | EBlur => handleWindowBlur e
  | EFocus => e
  | EStartGame => startGame tk e
  | EPauseGame => pauseGame e
  | EResumeGame => resumeGame tk e
  | EEndGame => endGame e
  | EResetGame => resetGame e
  end.

Definition run (evs : list (Event * Tick)) (e : t) : t :=
  fold_left (fun st et => handle (fst et) (snd et) st) evs e.

End GameEngine.

(** * The vocabulary of the properties

    The predicates the properties are stated with. None of them is code of
    the game: they describe its states and runs. *)

(** ** Score manager *)

Section ScoreManagerVocabulary.
Import ScoreManager.

(** What every call keeps true: the lives are between zero and the maximum,
    the maximum stays the constructor's 3, and the combo is never negative. *)
Definition score_invariant (s : ScoreManager.t) : Prop :=
  (0 <= lives s <= maxLives s)%Z /\ maxLives s = 3%Z /\ (0 <= combo s)%Z.

(** A call made in the course of a round: not one that starts a round, and
    with a frame duration, or a difficulty, that is not negative. *)
Definition within_round (c : Call) : Prop :=
  match c with
  | CInitialize _ _ | CReset _ => False
  | CUpdate deltaTime _ => 0 <= deltaTime
  | CAward _ difficulty _ => 0 <= difficulty
  | CLoseLife | CGainLife | CCheckHighScore => True
  end.

(** The combo is at most the largest one recorded, and a running combo has
    time left on its timer. *)
Definition combo_invariant (s : ScoreManager.t) : Prop :=
  (0 <= combo s <= maxCombo s)%Z /\ ((0 < combo s)%Z -> 0 < comboTimer s).

(** Frames given by their duration and the car's speed: the updates they
    stand for, and the time they take. *)
Definition updates (frames : list (Q * Q)) : list Call :=
  map (fun f => CUpdate (fst f) (snd f)) frames.

Fixpoint elapsed (frames : list (Q * Q)) : Q :=
  match frames with
  | [] => 0
  | f :: rest => fst f + elapsed rest
  end.

(** The code keeps its combo timer in floating point, so the timer and the
    sum of the frames' durations can drift apart by the rounding of one
    subtraction per frame: less than 2.3e-16 each while the timer is within
    its three seconds, hence less than a nanosecond over a million frames. *)
Definition timerMargin : Q := 1 # 1000000000.

Definition frameLimit : Z := 1000000.

End ScoreManagerVocabulary.

(** ** Car controller *)

Section CarControllerVocabulary.
Import CarController.

(** The speed is between half the top speed backwards and the top speed
    forwards, for rates that are not negative. *)
Definition speed_limits (c : CarController.t) : Prop :=
  0 <= maxSpeed c /\ 0 <= acceleration c /\ 0 <= deceleration c
  /\ - maxSpeed c * 0.5 <= speed c <= maxSpeed c.

(** Time does not run backwards: no frame has a negative duration. *)
Definition forward_in_time (ks : list CarController.Call) : Prop :=
  Forall (fun k => match k with CUpdate deltaTime => 0 <= deltaTime | _ => True end)
    ks.

(** None of the keys that accelerate or brake is held. *)
Definition coasting (c : CarController.t) : Prop :=
  isAccelerating c = false /\ isBraking c = false.

(** Whether the key [code] is held after the calls [ks], given whether it
    was held before: its key-down presses it, its key-up and a reset release
    it, and no other call matters. *)
Fixpoint heldAfter (code : string) (ks : list CarController.Call)
    (held : bool) : bool :=
  match ks with
  | [] => held
  | k :: rest =>
      heldAfter code rest
        match k with
        | CKeyDown code' => if String.eqb code' code then true else held
        | CKeyUp code' => if String.eqb code' code then false else held
        | CReset => false
        | _ => held
        end
  end.

(** A box lies within another one. *)
Definition boxWithin (a b : Three.Box3) : Prop :=
  Three.x (Three.bmin b) <= Three.x (Three.bmin a)
  /\ Three.x (Three.bmax a) <= Three.x (Three.bmax b)
  /\ Three.y (Three.bmin b) <= Three.y (Three.bmin a)
  /\ Three.y (Three.bmax a) <= Three.y (Three.bmax b)
  /\ Three.z (Three.bmin b) <= Three.z (Three.bmin a)
  /\ Three.z (Three.bmax a) <= Three.z (Three.bmax b).

End CarControllerVocabulary.

(** ** Collision detector *)

Section CollisionDetectorVocabulary.
Import Three ObstacleManager CollisionDetector.

Variable M : Type.
Variable setFromObject : M -> Box3.

(** An obstacle that passed the broad phase against [carBox]: it is active,
    its bounding box is the one just computed from its mesh, and that box
    intersects the car's. *)
Definition passedBroadPhase (carBox : Box3) (o : ObstacleData M) : Prop :=
  isActive o = true
  /\ boundingBox o = setFromObject (mesh o)
  /\ intersectsBox carBox (boundingBox o) = true.

Variable intersectObject : Vector3 -> Vector3 -> M -> list Intersection.

(** An obstacle as [checkCollisions] leaves it when it visits it: an active
    one has its bounding box recomputed from its mesh. *)
Definition refreshed (o : ObstacleData M) : ObstacleData M :=
  if isActive o then set_boundingBox M (setFromObject (mesh o)) o else o.

(** The obstacle collides with the car: it is active, the box of its mesh
    intersects the car's, and a ray of the narrow phase reaches it. *)
Definition hits (carBox : Box3) (o : ObstacleData M) : bool :=
  isActive o
  && intersectsBox carBox (setFromObject (mesh o))
  && hasCollision
       (detailedCollisionCheck M intersectObject carBox (refreshed o)).

End CollisionDetectorVocabulary.

(** ** Game engine *)

Section GameEngineVocabulary.
Import GameEngine.

(** The requests for a run of the game loop that are pending, the oldest
    first. *)
Definition pendingGameLoops (e : GameEngine.t) : list (nat * Callback) :=
  filter (fun f => snd f = gameLoopCb) (frames e).

(** The engine is stopped: the game is over, or back at the menu. *)
Definition stopped (e : GameEngine.t) : Prop :=
  gameState e = GAME_OVER \/ gameState e = MENU.

(** The lives left after the tick [tk]: a collision costs one. *)
Definition livesAfter (tk : Tick) (e : GameEngine.t) : Z :=
  if collision tk then (lives (stats e) - 1)%Z else lives (stats e).

(** What can happen to a paused engine short of resuming, restarting,
    ending or resetting the game: the browser runs a frame, the window loses
    or gains focus, a key other than Escape goes down, any key goes up, or
    [pauseGame] is called again. *)
Definition leaves_paused (ev : Event) : Prop :=
  match ev with
  | EFrame _ | EKeyUp _ | EBlur | EFocus | EPauseGame => True
  | EKeyDown code => code <> "Escape"
  | EStartGame | EResumeGame | EEndGame | EResetGame => False
  end.

End GameEngineVocabulary.

(** ** Obstacle manager *)

Section ObstacleManagerVocabulary.
Import Three ObstacleManager.

Variable Math_random : nat -> Q.
Variable setFromObject : ObstacleType -> Mesh -> Box3.

(** The meshes the obstacles use, and all the meshes of the pools. *)
Definition used (s : ObstacleManager.t) : list nat := mesh <$> obstacles s.

Definition poolAddresses (s : ObstacleManager.t) : list nat :=
  flat_map (fun ty => default [] (obstaclePool s !! ty)) types.

Definition inUse (s : ObstacleManager.t) (a : nat) : Prop :=
  visible <$> meshes s !! a = Some true.

(** The pool discipline: no mesh serves two obstacles, a mesh that serves an
    obstacle is marked in use and belongs to a pool, and no pool holds more
    than [poolSize] meshes. *)
Record pool_invariant (s : ObstacleManager.t) : Prop := mkPoolInvariant {
  used_NoDup : NoDup (used s);
  used_inUse : forall a, a ∈ used s -> inUse s a;
  used_pooled : forall a, a ∈ used s -> a ∈ poolAddresses s;
  pool_sizes :
    forall ty pool, obstaclePool s !! ty = Some pool ->
      (length pool <= poolSize)%nat
}.

(** What the spawning code leaves alone. *)
Record frame (s s' : ObstacleManager.t) : Prop := mkFrame {
  fr_pool : obstaclePool s' = obstaclePool s;
  fr_last : lastSpawnZ s' = lastSpawnZ s;
  fr_difficulty : difficulty s' = difficulty s;
  fr_spawn : spawnDistance s' = spawnDistance s;
  fr_despawn : despawnDistance s' = despawnDistance s;
  fr_time : timeSinceStart s' = timeSinceStart s;
  fr_scene : scene s' = None <-> scene s = None;
  fr_placed : placed s' = placed s
}.

(** A computation respects the discipline and the frame. *)
Definition sound {A} (m : M A) : Prop :=
  forall s, frame s (snd (m s))
            /\ (pool_invariant s -> pool_invariant (snd (m s))).

(** A spawn request finds every mesh of the type's pool in use. *)
Definition exhausted (ty : ObstacleType) (s : ObstacleManager.t) : Prop :=
  forall pool, obstaclePool s !! ty = Some pool ->
    forall a, a ∈ pool -> inUse s a.

(** One iteration's advance of [lastSpawnZ], for the draw [r] at difficulty
    [d]. *)
Definition spawnIncrement (r d : Q) : Q := MathUtils.random r 10 (20 / d).

(** The state after the loop body's first statement: one value drawn and
    [lastSpawnZ] advanced. *)
Definition advance (s : ObstacleManager.t) : ObstacleManager.t :=
  set_lastSpawnZ
    (lastSpawnZ s + spawnIncrement (Math_random (drawn s)) (difficulty s))
    (set_drawn (S (drawn s)) s).

(** The coordinates a run of the loop passes through: from [z0], while the
    coordinate is short of [spawnZ], it advances by the increment of some
    draw in [0, 1); [zs] lists the coordinates reached and [zf] is the last. *)
Inductive SpawnTrace (d spawnZ : Q) : Q -> list Q -> Q -> Prop :=
| trace_done z0 : spawnZ <= z0 -> SpawnTrace d spawnZ z0 [] z0
| trace_step z0 r zs zf :
    z0 < spawnZ -> 0 <= r < 1 ->
    SpawnTrace d spawnZ (z0 + spawnIncrement r d) zs zf ->
    SpawnTrace d spawnZ z0 ((z0 + spawnIncrement r d) :: zs) zf.

(** Fuel that suffices for the distance the loop has to cover: every
    iteration covers at least 4. *)
Definition enoughFuel (spawnZ : Q) (s : ObstacleManager.t) : nat :=
  Z.to_nat (Qceiling ((spawnZ - lastSpawnZ s) / 4)).

(** The states of a session: the manager is initialised once, then updated
    (by time steps that are not negative) and reset any number of times. *)
Inductive reachable : ObstacleManager.t -> Prop :=
| reachable_initialize :
    reachable (initialize Math_random setFromObject ObstacleManager.new)
| reachable_update fuel deltaTime carPosition s s' :
    reachable s -> 0 <= deltaTime ->
    update Math_random setFromObject fuel deltaTime carPosition s = Some s' ->
    reachable s'
| reachable_reset s :
    reachable s -> reachable (reset Math_random setFromObject s).

Record session_invariant (s : ObstacleManager.t) : Prop := mkSessionInvariant {
  si_pool : pool_invariant s;
  si_scene : scene s <> None;
  si_time : 0 <= timeSinceStart s;
  si_difficulty : 1 <= difficulty s <= 5
}.

(** A property of the manager that a computation keeps. *)
Definition keeps (P : ObstacleManager.t -> Prop) {A} (m : M A) : Prop :=
  forall s, P s -> P (snd (m s)).

(** A property that only looks at the obstacles, the meshes, the scene and
    the pools. *)
Definition objects_only (P : ObstacleManager.t -> Prop) : Prop :=
  forall s s',
    obstacles s' = obstacles s -> meshes s' = meshes s ->
    scene s' = scene s -> obstaclePool s' = obstaclePool s ->
    P s -> P s'.

(** The obstacle's record and its mesh agree on where the obstacle is. *)
Definition in_step (s : ObstacleManager.t) (o : ObstacleData nat) : Prop :=
  mesh_position <$> meshes s !! mesh o = Some (position o).

(** The obstacle list is coherent: the pool discipline holds, every obstacle
    is active, and every obstacle is where its mesh is. *)
Record coherent (s : ObstacleManager.t) : Prop := mkCoherent {
  co_pool : pool_invariant s;
  co_active : Forall (fun o => isActive o = true) (obstacles s);
  co_in_step : Forall (in_step s) (obstacles s)
}.

(** A direction along the road's width, and a manager whose moving obstacles
    all have such a direction. *)
Definition sideways (dir : Vector3) : Prop := y dir = 0 /\ z dir = 0.

Definition moves_sideways (s : ObstacleManager.t) : Prop :=
  Forall (fun o => forall dir, direction o = Some dir -> sideways dir)
    (obstacles s).

(** A manager with nothing to spawn from: it has no scene, or no pools, and
    no obstacles. *)
Definition cannot_spawn (s : ObstacleManager.t) : Prop :=
  (scene s = None \/ obstaclePool s = ∅) /\ obstacles s = [].









End ObstacleManagerVocabulary.

(** * Concrete inputs

    States and inputs on which the properties are run further down. *)

(** ** Score manager: one second at speed 20, then two awards 1.5 s apart *)

Definition scoreRun : ScoreManager.t :=
  ScoreManager.run
    [ScoreManager.CUpdate 1 20; ScoreManager.CAward "wall" 1 5000;
     ScoreManager.CAward "cone" 2 6500]
    ScoreManager.new.

(** Two seconds of frames at speed 20, then two more. *)
Definition twoSeconds : list (Q * Q) :=
  [((1 # 2), 20); ((1 # 2), 20); (1, 20)].

Definition fourSeconds : list (Q * Q) := twoSeconds ++ twoSeconds.

(** ** Car controller: a car heading straight on, at angle 0, where the sine
    is 0 and the cosine 1 *)

Definition sinAtZero (a : Q) : Q := 0.
Definition cosAtZero (a : Q) : Q := 1.

Definition carBox (m : CarController.CarMesh) : Three.Box3 :=
  Three.setFromCenterAndSize (CarController.mesh_position m)
    (Three.mkVector3 2 1 4).

(** One second of acceleration from rest. *)
Definition carRun : CarController.t :=
  CarController.update sinAtZero cosAtZero carBox 1
    (CarController.handleKeyDown "ArrowUp"
       (CarController.initialize carBox
          (CarController.mkCarMesh (Three.mkVector3 0 0 0) (Three.mkVector3 0 0 0)
             None)
          (CarController.mkControlSettings 1 false) CarController.new)).

(** The car at the start of a session. *)
Definition parkedCar : CarController.t :=
  CarController.initialize carBox
    (CarController.mkCarMesh (Three.mkVector3 0 0 0) (Three.mkVector3 0 0 0) None)
    (CarController.mkControlSettings 1 false) CarController.new.

(** A short drive: full throttle for a second and a half while steering
    right, a crash, then braking for four seconds. *)
Definition drive : list CarController.Call :=
  [CarController.CKeyDown "KeyW"; CarController.CKeyDown "ArrowRight";
   CarController.CUpdate 1; CarController.CUpdate (1 # 2);
   CarController.CCollision; CarController.CKeyUp "KeyW";
   CarController.CKeyDown "ArrowDown"; CarController.CUpdate 4].

(** ** Collision detector: meshes named by a number, the mesh [id] sitting at
    [z = 10 * id], and a raycaster that always reports a hit at distance 0, so
    that only the broad phase can clear an obstacle *)

Definition meshBox (id : nat) : Three.Box3 :=
  Three.setFromCenterAndSize
    (Three.mkVector3 0 1 (inject_Z (Z.of_nat id) * 10)) (Three.mkVector3 1 2 1).

Definition alwaysHit (origin dir : Three.Vector3) (id : nat)
    : list CollisionDetector.Intersection :=
  [CollisionDetector.mkIntersection 0 origin None].

Definition obstacleAt (id : nat) : ObstacleManager.ObstacleData nat :=
  ObstacleManager.mkObstacle id ObstacleManager.barrier
    (Three.mkVector3 0 1 (inject_Z (Z.of_nat id) * 10)) (meshBox 0) true None
    None.

(** The car's box, around [z = 20]. *)
Definition carBounds : Three.Box3 :=
  Three.setFromCenterAndSize (Three.mkVector3 0 0.5 20) (Three.mkVector3 2 1 4).

Definition threeObstacles : list (ObstacleManager.ObstacleData nat) :=
  [obstacleAt 5; obstacleAt 2; obstacleAt 6].

(** ** Game engine: the last life lost to a collision *)

Definition quietTick : GameEngine.Tick :=
  GameEngine.mkTick (1 # 60) 10 15 false (fun d s c => (d + s + c)%Z).

Definition crashTick : GameEngine.Tick :=
  GameEngine.mkTick (1 # 60) 12 15 true (fun d s c => (d + s + c)%Z).

(** A game in progress with a single life left. *)
Definition lastLife : GameEngine.t :=
  GameEngine.set_stats (GameEngine.mkStats 0 0 0 1 0 0 0 1)
    (GameEngine.startGame quietTick GameEngine.new).

Definition afterCrash : GameEngine.t := GameEngine.gameLoop crashTick lastLife.

(** A game paused right after its first tick, and what happens while it is
    paused: the frame requested by that tick comes up, keys are pressed, the
    window loses focus. *)
Definition pausedGame : GameEngine.t :=
  GameEngine.pauseGame (GameEngine.startGame quietTick GameEngine.new).

Definition whilePaused : list (GameEngine.Event * GameEngine.Tick) :=
  [(GameEngine.EFrame 1, crashTick); (GameEngine.EKeyDown "ArrowUp", quietTick);
   (GameEngine.EBlur, quietTick); (GameEngine.EPauseGame, quietTick)].

(** What follows the crash: the browser runs the frames still pending, the
    player presses Escape, a client calls [resumeGame], the window loses
    focus. *)
Definition afterwards : list (GameEngine.Event * GameEngine.Tick) :=
  [(GameEngine.EFrame 2, quietTick); (GameEngine.EFrame 3, quietTick);
   (GameEngine.EKeyDown "Escape", quietTick); (GameEngine.EResumeGame, quietTick);
   (GameEngine.EFrame 4, crashTick); (GameEngine.EBlur, quietTick)].

(** ** Obstacle manager: every draw is 1/2, so every pattern is a cone slalom
    and the initial batch already asks for more cones than the pool holds *)

Definition halves (n : nat) : Q := 1 # 2.

Definition obstacleBox (ty : ObstacleManager.ObstacleType)
    (m : ObstacleManager.Mesh) : Three.Box3 :=
  Three.setFromCenterAndSize (ObstacleManager.mesh_position m)
    (Three.mkVector3 1 1 1).

Definition sessionStart : ObstacleManager.t :=
  ObstacleManager.initialize halves obstacleBox ObstacleManager.new.

Definition startLine : Three.Vector3 := Three.mkVector3 0 0.5 0.

(** The manager after the spawn loop of the first tick, given four
    iterations. *)
Definition afterSpawn : ObstacleManager.t :=
  default sessionStart
    (ObstacleManager.spawnObstacles halves obstacleBox 4 startLine sessionStart).

(** The manager after the whole first tick, one second long. *)
Definition afterUpdate : ObstacleManager.t :=
  default sessionStart
    (ObstacleManager.update halves obstacleBox 4 1 startLine sessionStart).

(** A car that has driven on to [z = 100]. *)
Definition farAhead : Three.Vector3 := Three.mkVector3 0 0.5 100.

(** A manager updated before it was ever initialised. *)
Definition beforeInitialize : ObstacleManager.t :=
  default ObstacleManager.new
    (ObstacleManager.update halves obstacleBox 4 1 startLine ObstacleManager.new).

(** Every draw is 9/10, so every pattern is a pair of moving barriers. *)
Definition nines (n : nat) : Q := 9 # 10.

Definition movingStart : ObstacleManager.t :=
  ObstacleManager.initialize nines obstacleBox ObstacleManager.new.

Definition firstBarrier : ObstacleManager.ObstacleData nat :=
  default (obstacleAt 0) (ObstacleManager.obstacles movingStart !! 0%nat).

(** That manager after the spawn loop of the first tick, given three
    iterations. *)
Definition movingSpawn : ObstacleManager.t :=
  default movingStart
    (ObstacleManager.spawnObstacles nines obstacleBox 3 startLine movingStart).

(** * The properties *)

(** ** Rational comparisons *)

Lemma Qleb_true (a b : Q) : Qleb a b = true <-> a <= b.
Proof. unfold Qleb. apply Qle_bool_iff. Qed.

Lemma Qleb_false (a b : Q) : Qleb a b = false <-> b < a.
Proof.
  unfold Qleb. split; intros H.
  - apply Qnot_le_lt. intros Hle. apply Qle_bool_iff in Hle. congruence.
  - destruct (Qle_bool a b) eqn:E; [|reflexivity].
    apply Qle_bool_iff in E. exfalso. apply (Qlt_not_le _ _ H E).
Qed.

Lemma Qltb_true (a b : Q) : Qltb a b = true <-> a < b.
Proof.
  unfold Qltb. rewrite negb_true_iff. apply (Qleb_false b a).
Qed.

Lemma Qltb_false (a b : Q) : Qltb a b = false <-> b <= a.
Proof.
  unfold Qltb. rewrite negb_false_iff. apply (Qleb_true b a).
Qed.

Lemma clamp_bounds (v lo hi : Q) :
  lo <= hi -> lo <= MathUtils.clamp v lo hi /\ MathUtils.clamp v lo hi <= hi.
Proof.
  intros Hle. unfold MathUtils.clamp. split.
  - apply Q.min_glb; [apply Q.le_max_r | exact Hle].
  - apply Q.le_min_r.
Qed.

(** ** Score manager *)

Section ScoreManagerProperties.
Import ScoreManager.

Lemma resetCombo_fields (s : ScoreManager.t) :
  lives (resetCombo s) = lives s /\ maxLives (resetCombo s) = maxLives s
  /\ score (resetCombo s) = score s
  /\ ((0 <= combo s)%Z -> combo (resetCombo s) = 0%Z).
Proof.
  unfold resetCombo. destruct (0 <? combo s)%Z eqn:E; simpl.
  - repeat split; reflexivity.
  - repeat split; try reflexivity. intros H. apply Z.ltb_ge in E. lia.
Qed.

Lemma new_invariant : score_invariant ScoreManager.new.
Proof. unfold score_invariant; simpl. lia. Qed.

Lemma call_invariant (c : Call) (s : ScoreManager.t) :
  score_invariant s -> score_invariant (call c s).
Proof.
  unfold score_invariant. intros (Hl & Hm & Hc).
  destruct c; simpl.
  - unfold initialize, loadHighScore. destruct saved; simpl; lia.
  - unfold update.
    match goal with |- context [if ?b then _ else _] => destruct b end;
      match goal with
      | |- context [resetCombo ?u] =>
          destruct (resetCombo_fields u) as (-> & -> & _ & Hz); simpl in *;
          rewrite Hz by lia; lia
      | _ => simpl; lia
      end.
  - unfold awardObstacleAvoidance; simpl.
    destruct (Qleb _ _); lia.
  - unfold loseLife.
    match goal with
    | |- context [resetCombo ?u] =>
        destruct (resetCombo_fields u) as (-> & -> & _ & Hz); simpl in *;
        rewrite Hz by lia; lia
    end.
  - unfold gainLife. destruct (lives s <? maxLives s)%Z eqn:E; simpl; [|lia].
    apply Z.ltb_lt in E. lia.
  - unfold checkHighScore. destruct (highScore s <? _)%Z; simpl; lia.
  - lia.
Qed.

Lemma run_invariant (cs : list Call) (s : ScoreManager.t) :
  score_invariant s -> score_invariant (run cs s).
Proof.
  revert s. induction cs as [|c cs IH]; intros s Hs; simpl.
  - exact Hs.
  - apply (IH (call c s)). apply call_invariant, Hs.
Qed.


(** C7. The final score does not decrease when the running score, the
    survival time, the distance and the maximum combo do not decrease; raising
    any one of the four with the others kept is a special case. *)
Theorem calculateFinalScore_monotone (s1 s2 : ScoreManager.t) :
  (score s1 <= score s2)%Z ->
  timeSurvived s1 <= timeSurvived s2 ->
  distance s1 <= distance s2 ->
  (maxCombo s1 <= maxCombo s2)%Z ->
  (calculateFinalScore s1 <= calculateFinalScore s2)%Z.
Proof.
  intros Hs Ht Hd Hc. unfold calculateFinalScore.
  assert (H1 : (Qfloor (timeSurvived s1 * 50) <= Qfloor (timeSurvived s2 * 50))%Z).
  { apply Qfloor_resp_le. lra. }
  assert (H2 : (Qfloor (distance s1 / 1000) <= Qfloor (distance s2 / 1000))%Z).
  { apply Qfloor_resp_le. unfold Qdiv. apply Qmult_le_compat_r; [exact Hd|].
    discriminate. }
  lia.
Qed.

(** C9. After any sequence of calls on a new score manager the lives are
    between 0 and [maxLives]; [loseLife] never takes them below 0, [gainLife]
    never above [maxLives] (at the maximum it changes nothing), and [reset]
    puts them back to [maxLives]. *)
Theorem lives_within_bounds (cs : list Call) (now : Z) :
  let s := run cs ScoreManager.new in
  (0 <= lives s <= maxLives s)%Z
  /\ lives (loseLife s) = Z.max 0 (lives s - 1)
  /\ (0 <= lives (loseLife (loseLife s)))%Z
  /\ (lives (gainLife s) <= maxLives s)%Z
  /\ (lives s = maxLives s -> gainLife s = s)
  /\ lives (reset now s) = maxLives s.
Proof.
  intros s.
  assert (Hinv : score_invariant s).
  { subst s. apply run_invariant, new_invariant. }
  pose proof (call_invariant CLoseLife _ Hinv) as Hinv1.
  pose proof (call_invariant CLoseLife _ Hinv1) as Hinv2.
  pose proof (call_invariant CGainLife _ Hinv) as Hinv3.
  destruct Hinv as (Hl & Hm & Hc).
  destruct Hinv2 as (Hl2 & _ & _). destruct Hinv3 as (Hl3 & Hm3 & _).
  simpl in *.
  repeat split; try lia.
  - unfold loseLife.
    match goal with
    | |- context [resetCombo ?u] =>
        destruct (resetCombo_fields u) as (-> & _)
    end.
    reflexivity.
  - intros Heq. unfold gainLife. rewrite Heq, Z.ltb_irrefl. reflexivity.
Qed.

End ScoreManagerProperties.

(** ** Car controller *)

Section CarControllerProperties.
Import Three CarController.

Variables sin cos : Q -> Q.
Variable setFromObject : CarMesh -> Box3.

Lemma updateBoundingBox_position (c : CarController.t) :
  position (updateBoundingBox setFromObject c) = position c.
Proof. unfold updateBoundingBox. destruct (car c); reflexivity. Qed.

Lemma updateVisuals_position (dt : Q) (c : CarController.t) :
  position (updateVisuals dt c) = position c.
Proof. unfold updateVisuals. destruct (car c); reflexivity. Qed.

Lemma updatePhysics_on_road (dt : Q) (c : CarController.t) :
  car c <> None ->
  -8 <= x (position (updatePhysics sin cos dt c)) <= 8.
Proof.
  intros Hcar. unfold updatePhysics.
  destruct (car c) as [m|]; [|congruence]. simpl.
  apply clamp_bounds. lra.
Qed.

Lemma clamp_compat (a b lo hi : Q) :
  a == b -> MathUtils.clamp a lo hi == MathUtils.clamp b lo hi.
Proof. intros H. unfold MathUtils.clamp. rewrite H. reflexivity. Qed.

End CarControllerProperties.

(** C1. Whatever the time step (negative ones included, so in particular for
    every [deltaTime >= 0]), an [update] of a controller whose car handle is
    set leaves the lateral position within the road's half-width
    [[-8, 8]]. *)
Theorem update_lateral_position_on_road (sin cos : Q -> Q)
    (setFromObject : CarController.CarMesh -> Three.Box3)
    (deltaTime : Q) (c : CarController.t) :
  0 <= deltaTime ->
  CarController.car c <> None ->
  let c' := CarController.update sin cos setFromObject deltaTime c in
  -8 <= Three.x (CarController.position c') <= 8.
Proof.
  intros _ Hcar c'. subst c'. unfold CarController.update.
  destruct (CarController.car c) as [m|] eqn:E; [|congruence].
  rewrite updateBoundingBox_position, updateVisuals_position.
  apply updatePhysics_on_road. simpl. rewrite E. discriminate.
Qed.

(** C6. The collision impulse multiplies the speed by 0.3, moves the position
    2 units against the heading (the displacement is [-2] times the heading's
    unit vector, of squared length 4), clamps the lateral coordinate of the
    result to [[-8, 8]], copies the new position to the car handle when there
    is one, and changes nothing else. *)
Theorem handleCollision_effect (sin cos : Q -> Q) (c : CarController.t) :
  (forall a, sin a * sin a + cos a * cos a == 1) ->
  let c' := CarController.handleCollision sin cos c in
  let heading := CarController.direction sin cos (CarController.rotation c) in
  let pushed :=
    Three.add (CarController.position c) (Three.multiplyScalar heading (-2)) in
  CarController.speed c' == CarController.speed c * 0.3
  /\ Three.lengthSq heading == 1
  /\ Three.lengthSq (Three.multiplyScalar heading (-2)) == 4
  /\ Three.veq (CarController.position c')
       (Three.set_x pushed (MathUtils.clamp (Three.x pushed) (-8) 8))
  /\ -8 <= Three.x (CarController.position c') <= 8
  /\ CarController.car c' =
     (fun m =>
        CarController.mkCarMesh (CarController.position c')
          (CarController.mesh_rotation m) (CarController.wheels m))
       <$> CarController.car c
  /\ CarController.velocity c' = CarController.velocity c
  /\ CarController.rotation c' = CarController.rotation c
  /\ CarController.maxSpeed c' = CarController.maxSpeed c
  /\ CarController.acceleration c' = CarController.acceleration c
  /\ CarController.deceleration c' = CarController.deceleration c
  /\ CarController.turnSpeed c' = CarController.turnSpeed c
  /\ CarController.keys c' = CarController.keys c
  /\ CarController.settings c' = CarController.settings c
  /\ CarController.wheelRotation c' = CarController.wheelRotation c
  /\ CarController.engineSound c' = CarController.engineSound c
  /\ CarController.boundingBox c' = CarController.boundingBox c.
Proof.
  intros Htrig c' heading pushed. subst c' heading pushed.
  pose proof (Htrig (CarController.rotation c)) as Hr.
  unfold CarController.handleCollision, CarController.direction,
    Three.applyAxisAngleY, Three.lengthSq, Three.veq. simpl.
  set (sn := sin (CarController.rotation c)) in *.
  set (cs := cos (CarController.rotation c)) in *.
  assert (H4 : 4 * (sn * sn + cs * cs) == 4) by (rewrite Hr; ring).
  repeat split; try reflexivity;
    try (apply clamp_bounds; lra); try (apply clamp_compat; ring);
    try (destruct (CarController.car c); reflexivity).
  - rewrite <- Hr. ring.
  - rewrite <- H4. ring.
  - ring.
Qed.

(** ** Collision detector *)

Section CollisionDetectorProperties.
Import Three ObstacleManager CollisionDetector.

Variable M : Type.
Variable setFromObject : M -> Box3.
Variable intersectObject : Vector3 -> Vector3 -> M -> list Intersection.

Local Abbreviation passedBroadPhase := (passedBroadPhase M setFromObject).

Lemma castRays_result (carCenter : Vector3) (maxDistance : Q)
    (o : ObstacleData M) (dirs : list Vector3) :
  let r := castRays M intersectObject carCenter maxDistance o dirs in
  (hasCollision r = true /\ obstacle r = Some o)
  \/ (hasCollision r = false /\ obstacle r = None).
Proof.
  induction dirs as [|d rest IH]; simpl.
  - right. split; reflexivity.
  - destruct (intersectObject carCenter d (mesh o)) as [|i l].
    + exact IH.
    + destruct (Qleb (distance i) maxDistance).
      * left. split; reflexivity.
      * exact IH.
Qed.

Lemma detailedCollisionCheck_result (carBox : Box3) (o : ObstacleData M) :
  let r := detailedCollisionCheck M intersectObject carBox o in
  (hasCollision r = true /\ obstacle r = Some o)
  \/ (hasCollision r = false /\ obstacle r = None).
Proof. unfold detailedCollisionCheck. apply castRays_result. Qed.

Lemma checkCollisions_sound (carBox : Box3) (obstacles : list (ObstacleData M)) :
  let out := checkCollisions M setFromObject intersectObject carBox obstacles in
  (hasCollision (result out) = true ->
     exists o, obstacle (result out) = Some o)
  /\ (forall o, obstacle (result out) = Some o -> passedBroadPhase carBox o)
  /\ Forall (passedBroadPhase carBox) (narrowPhase out).
Proof.
  induction obstacles as [|o rest IH]; simpl.
  - split; [discriminate | split; [discriminate | constructor]].
  - destruct IH as (IH1 & IH2 & IH3).
    destruct (isActive o) eqn:Ha; simpl.
    + destruct (intersectsBox carBox (setFromObject (mesh o))) eqn:Hb.
      * set (o1 := set_boundingBox M (setFromObject (mesh o)) o) in *.
        assert (Ho1 : passedBroadPhase carBox o1).
        { unfold passedBroadPhase, o1; simpl. auto. }
        destruct (detailedCollisionCheck_result carBox o1) as [[Hh Ho]|[Hh Ho]];
          rewrite Hh; simpl.
        -- split; [|split].
           ++ intros _. exists o1. exact Ho.
           ++ intros o' Ho'. rewrite Ho in Ho'. congruence.
           ++ constructor; [exact Ho1 | constructor].
        -- split; [exact IH1 | split; [exact IH2 |]].
           constructor; [exact Ho1 | exact IH3].
      * split; [|split]; assumption.
    + split; [|split]; assumption.
Qed.

End CollisionDetectorProperties.

(** C5. An obstacle of the list whose bounding box (as [checkCollisions]
    recomputes it from the mesh) does not intersect the car's is never the
    obstacle of the reported collision and is never handed to the narrow
    phase; every reported collision names an obstacle, and that obstacle and
    every obstacle the narrow phase ran on is active and passed the broad
    phase. *)
Theorem checkCollisions_broad_phase_necessary (M : Type)
    (setFromObject : M -> Three.Box3)
    (intersectObject :
       Three.Vector3 -> Three.Vector3 -> M -> list CollisionDetector.Intersection)
    (carBoundingBox : Three.Box3)
    (obstacles : list (ObstacleManager.ObstacleData M))
    (o : ObstacleManager.ObstacleData M) :
  In o obstacles ->
  Three.intersectsBox carBoundingBox (setFromObject (ObstacleManager.mesh o))
    = false ->
  let out :=
    CollisionDetector.checkCollisions M setFromObject intersectObject
      carBoundingBox obstacles in
  let o' :=
    CollisionDetector.set_boundingBox M
      (setFromObject (ObstacleManager.mesh o)) o in
  CollisionDetector.obstacle (CollisionDetector.result out) <> Some o'
  /\ ~ In o' (CollisionDetector.narrowPhase out)
  /\ (CollisionDetector.hasCollision (CollisionDetector.result out) = true ->
      exists hit,
        CollisionDetector.obstacle (CollisionDetector.result out) = Some hit
        /\ passedBroadPhase M setFromObject carBoundingBox hit)
  /\ Forall (passedBroadPhase M setFromObject carBoundingBox)
       (CollisionDetector.narrowPhase out).
Proof.
  intros _ Hmiss out o'.
  destruct (checkCollisions_sound M setFromObject intersectObject
              carBoundingBox obstacles) as (H1 & H2 & H3).
  fold out in H1, H2, H3.
  assert (Hno : ~ passedBroadPhase M setFromObject carBoundingBox o').
  { intros (_ & Hbox & Hint). unfold o' in Hint. simpl in Hint. congruence. }
  split; [|split; [|split]].
  - intros Heq. apply Hno, H2, Heq.
  - intros Hin. apply Hno. rewrite Forall_forall in H3. apply H3.
    apply list_elem_of_In. exact Hin.
  - intros Hhit. destruct (H1 Hhit) as [hit Hobs]. exists hit. split; auto.
  - exact H3.
Qed.

(** ** Game engine *)

Section GameEngineProperties.
Import GameEngine.

Lemma cancelAnimationFrame_pending (id : nat) (e : GameEngine.t) :
  sublist (pendingGameLoops (cancelAnimationFrame id e)) (pendingGameLoops e).
Proof.
  unfold pendingGameLoops, cancelAnimationFrame. simpl.
  generalize (frames e). intros l.
  induction l as [|f l IH]; simpl; [constructor|].
  rewrite !filter_cons.
  destruct (decide (f.1 <> id)), (decide (f.2 = gameLoopCb));
    rewrite ?filter_cons; repeat case_decide; try contradiction;
    try (apply sublist_skip; exact IH);
    try (apply sublist_cons; exact IH); exact IH.
Qed.

Lemma stopped_not_playing (e : GameEngine.t) : stopped e -> gameState e <> PLAYING.
Proof. intros [H|H]; rewrite H; discriminate. Qed.

Lemma gameLoop_not_playing (tk : Tick) (e : GameEngine.t) :
  gameState e <> PLAYING -> gameLoop tk e = e.
Proof. intros H. unfold gameLoop. destruct (decide _); [contradiction|reflexivity]. Qed.

Lemma shake_fields (shakeTime : Q) (e : GameEngine.t) :
  gameState (shake shakeTime e) = gameState e
  /\ stats (shake shakeTime e) = stats e
  /\ updates (shake shakeTime e) = updates e
  /\ pendingGameLoops (shake shakeTime e) = pendingGameLoops e.
Proof.
  unfold shake. destruct (Qltb shakeTime 0.3); simpl; [|tauto].
  do 3 (split; [reflexivity|]). unfold pendingGameLoops; simpl.
  rewrite filter_app, filter_cons, filter_nil. simpl.
  rewrite app_nil_r. reflexivity.
Qed.

Lemma endGame_fields (e : GameEngine.t) :
  gameState (endGame e) = GAME_OVER
  /\ stats (endGame e) = stats e
  /\ updates (endGame e) = updates e
  /\ sublist (pendingGameLoops (endGame e)) (pendingGameLoops e)
  /\ last (emitted (endGame e)) = Some (StateChange GAME_OVER).
Proof.
  unfold endGame. simpl.
  destruct (animationId e) as [id|]; simpl.
  - destruct (decide (id = 0%nat)); simpl.
    + do 3 (split; [reflexivity|]).
      split; [reflexivity | apply last_snoc].
    + do 3 (split; [reflexivity|]). split; [|apply last_snoc].
      apply (cancelAnimationFrame_pending id
               (set_clockRunning false (set_gameState GAME_OVER e))).
  - do 3 (split; [reflexivity|]).
    split; [reflexivity | apply last_snoc].
Qed.

Lemma handleCollision_fields (e : GameEngine.t) :
  gameState (handleCollision e) = gameState e
  /\ lives (stats (handleCollision e)) = (lives (stats e) - 1)%Z
  /\ updates (handleCollision e) = updates e.
Proof.
  unfold handleCollision, addScreenShake.
  match goal with |- context [shake 0 ?u] =>
    destruct (shake_fields 0 u) as (-> & -> & -> & _) end.
  simpl. tauto.
Qed.

Lemma updateGame_game_over (tk : Tick) (e : GameEngine.t) :
  (livesAfter tk e <= 0)%Z ->
  gameState (updateGame tk e) = GAME_OVER
  /\ lives (stats (updateGame tk e)) = livesAfter tk e
  /\ updates (updateGame tk e) = S (updates e)
  /\ last (emitted (updateGame tk e)) = Some (StateChange GAME_OVER).
Proof.
  intros Hl. unfold updateGame, livesAfter in *.
  match goal with
  | |- context [if (lives (stats ?u) <=? 0)%Z then _ else _] => set (e3 := u)
  end.
  assert (H3 : lives (stats e3)
               = (if collision tk then (lives (stats e) - 1)%Z else lives (stats e))
               /\ updates e3 = S (updates e)).
  { subst e3. simpl. destruct (collision tk).
    - match goal with |- context [handleCollision ?u] =>
        destruct (handleCollision_fields u) as (_ & -> & ->) end.
      simpl. tauto.
    - simpl. tauto. }
  destruct H3 as (H3 & H4).
  destruct (lives (stats e3) <=? 0)%Z eqn:E.
  - destruct (endGame_fields e3) as (-> & -> & -> & _ & ->). tauto.
  - apply Z.leb_gt in E. lia.
Qed.

Lemma fireFrame_stopped (id : nat) (tk : Tick) (e : GameEngine.t) :
  stopped e ->
  stopped (fireFrame id tk e)
  /\ updates (fireFrame id tk e) = updates e
  /\ sublist (pendingGameLoops (fireFrame id tk e)) (pendingGameLoops e).
Proof.
  intros Hs. unfold fireFrame.
  destruct (list_find _ (frames e)) as [[i [j cb]]|];
    [|split; [exact Hs | split; reflexivity]].
  pose proof (cancelAnimationFrame_pending id e) as Hp.
  set (e1 := cancelAnimationFrame id e) in *.
  assert (Hs1 : stopped e1) by exact Hs.
  destruct cb as [|shakeTime].
  - rewrite gameLoop_not_playing by (apply stopped_not_playing, Hs1).
    split; [exact Hs1 | split; [reflexivity | exact Hp]].
  - destruct (shake_fields shakeTime e1) as (Hg & _ & Hu & Hq).
    unfold stopped. rewrite Hg, Hu, Hq.
    split; [exact Hs1 | split; [reflexivity | exact Hp]].
Qed.

Lemma handle_stopped (ev : Event) (tk : Tick) (e : GameEngine.t) :
  ev <> EStartGame ->
  stopped e ->
  stopped (handle ev tk e)
  /\ updates (handle ev tk e) = updates e
  /\ sublist (pendingGameLoops (handle ev tk e)) (pendingGameLoops e).
Proof.
  intros Hev Hs. pose proof (stopped_not_playing e Hs) as Hnp.
  assert (Hnpa : gameState e <> PAUSED).
  { destruct Hs as [H|H]; rewrite H; discriminate. }
  destruct ev; simpl; try (split; [exact Hs | split; reflexivity]).
  - apply fireFrame_stopped, Hs.
  - unfold handleKeyDown. repeat case_decide; try contradiction.
    split; [exact Hs | split; reflexivity].
  - unfold handleWindowBlur. case_decide; [contradiction|].
    split; [exact Hs | split; reflexivity].
  - contradiction.
  - unfold pauseGame. case_decide; [contradiction|].
    split; [exact Hs | split; reflexivity].
  - unfold resumeGame. case_decide; [contradiction|].
    split; [exact Hs | split; reflexivity].
  - destruct (endGame_fields e) as (Hg & _ & Hu & Hp & _).
    split; [left; exact Hg | split; [exact Hu | exact Hp]].
  - split; [right; reflexivity | split; reflexivity].
Qed.

Lemma run_stopped (evs : list (Event * Tick)) (e : GameEngine.t) :
  Forall (fun et => fst et <> EStartGame) evs ->
  stopped e ->
  stopped (run evs e)
  /\ updates (run evs e) = updates e
  /\ sublist (pendingGameLoops (run evs e)) (pendingGameLoops e).
Proof.
  revert e. induction evs as [|[ev tk] evs IH]; intros e Hall Hs; simpl.
  - split; [exact Hs | split; reflexivity].
  - inversion Hall as [|? ? Hev Hrest]; subst. simpl in Hev.
    destruct (handle_stopped ev tk e Hev Hs) as (Hs1 & Hu1 & Hp1).
    destruct (IH (handle ev tk e) Hrest Hs1) as (Hs2 & Hu2 & Hp2).
    split; [exact Hs2 | split; [congruence | etransitivity; eassumption]].
Qed.

(** The tick that ends the game still issues its own request for the next
    frame: [gameLoop] does so after [updateGame], hence after [endGame], has
    returned. The request is inert: a run of the game loop in the state the
    tick leaves changes nothing. *)
Remark ending_tick_leaves_inert_request (tk tk' : Tick) (e : GameEngine.t) :
  gameState e = PLAYING ->
  (livesAfter tk e <= 0)%Z ->
  let e1 := gameLoop tk e in
  let id := nextFrameId (updateGame tk e) in
  animationId e1 = Some id
  /\ last (frames e1) = Some (id, gameLoopCb)
  /\ gameLoop tk' e1 = e1.
Proof.
  intros Hplay Hl e1 id.
  destruct (updateGame_game_over tk e Hl) as (Hg & _ & _ & _).
  assert (E : e1 = set_animationId (Some id)
                     (snd (requestAnimationFrame gameLoopCb (updateGame tk e)))).
  { subst e1 id. unfold gameLoop.
    destruct (decide (gameState e = PLAYING)) as [_|Hn]; [|contradiction].
    reflexivity. }
  rewrite E.
  split; [reflexivity|]. split; [apply last_snoc|].
  apply gameLoop_not_playing.
  change (gameState (updateGame tk e) <> PLAYING). rewrite Hg. discriminate.
Qed.

End GameEngineProperties.

(** C8. When the lives left after a PLAYING tick are 0 or less (a collision
    taking them from 1 to 0, say), that tick itself ends in GAME_OVER, having
    announced the change of state; and whatever comes later short of a new
    [startGame] (frames the browser still runs, key and window events, calls
    of the other public methods) executes no further [updateGame], never
    brings the state back to PLAYING and requests no further run of the game
    loop: the requests pending afterwards are among those pending at the end
    of the tick, and each of them returns at the state check when it runs. *)
Theorem game_over_within_tick (e : GameEngine.t) (tk : GameEngine.Tick)
    (later : list (GameEngine.Event * GameEngine.Tick)) :
  GameEngine.gameState e = GameEngine.PLAYING ->
  (livesAfter tk e <= 0)%Z ->
  Forall (fun et => fst et <> GameEngine.EStartGame) later ->
  let e1 := GameEngine.gameLoop tk e in
  let e2 := GameEngine.run later e1 in
  GameEngine.gameState e1 = GameEngine.GAME_OVER
  /\ GameEngine.lives (GameEngine.stats e1) = livesAfter tk e
  /\ GameEngine.updates e1 = S (GameEngine.updates e)
  /\ In (GameEngine.StateChange GameEngine.GAME_OVER) (GameEngine.emitted e1)
  /\ GameEngine.updates e2 = GameEngine.updates e1
  /\ GameEngine.gameState e2 <> GameEngine.PLAYING
  /\ sublist (pendingGameLoops e2) (pendingGameLoops e1).
Proof.
  intros Hplay Hlives Hlater e1 e2.
  destruct (updateGame_game_over tk e Hlives) as (Hg & Hl & Hu & Hem).
  assert (H1 : GameEngine.gameState e1 = GameEngine.GAME_OVER
               /\ GameEngine.lives (GameEngine.stats e1) = livesAfter tk e
               /\ GameEngine.updates e1 = S (GameEngine.updates e)
               /\ GameEngine.emitted e1
                  = GameEngine.emitted (GameEngine.updateGame tk e)).
  { subst e1. unfold GameEngine.gameLoop.
    destruct (decide _) as [_|Hn]; [|contradiction]. simpl. tauto. }
  destruct H1 as (H1g & H1l & H1u & H1e).
  assert (Hs : stopped e1) by (left; exact H1g).
  destruct (run_stopped later e1 Hlater Hs) as (Hs2 & Hu2 & Hp2).
  split; [exact H1g|]. split; [exact H1l|]. split; [exact H1u|].
  split.
  { rewrite H1e. apply list_elem_of_In, last_Some_elem_of, Hem. }
  split; [exact Hu2|]. split; [apply stopped_not_playing, Hs2 | exact Hp2].
Qed.

(** ** Obstacle manager *)

Section ObstacleManagerProperties.
Import Three ObstacleManager.

Variable Math_random : nat -> Q.
Variable setFromObject : ObstacleType -> Mesh -> Box3.

Local Abbreviation advance := (advance Math_random).
Local Abbreviation reachable := (reachable Math_random setFromObject).

Lemma frame_refl (s : ObstacleManager.t) : frame s s.
Proof. constructor; tauto. Qed.

Lemma frame_trans (s1 s2 s3 : ObstacleManager.t) :
  frame s1 s2 -> frame s2 s3 -> frame s1 s3.
Proof.
  intros [] []. constructor; try congruence. tauto.
Qed.

Lemma pool_invariant_ext (s s' : ObstacleManager.t) :
  obstacles s' = obstacles s -> meshes s' = meshes s ->
  obstaclePool s' = obstaclePool s ->
  pool_invariant s -> pool_invariant s'.
Proof.
  intros Ho Hm Hp [H1 H2 H3 H4].
  constructor; unfold used, inUse, poolAddresses in *; rewrite ?Ho, ?Hm, ?Hp;
    assumption.
Qed.

Lemma pool_elem_addresses (s : ObstacleManager.t) (ty : ObstacleType)
    (pool : list nat) (a : nat) :
  obstaclePool s !! ty = Some pool -> a ∈ pool -> a ∈ poolAddresses s.
Proof.
  intros Hp Ha. unfold poolAddresses, types. simpl.
  rewrite !elem_of_app.
  destruct ty; rewrite Hp; simpl; tauto.
Qed.

Lemma poolAddresses_length (s : ObstacleManager.t) :
  pool_invariant s -> (length (poolAddresses s) <= poolSize * length types)%nat.
Proof.
  intros Hinv. unfold poolAddresses, types. simpl.
  rewrite !length_app. simpl.
  assert (Hl : forall ty, (length (default [] (obstaclePool s !! ty)) <= poolSize)%nat).
  { intros ty. destruct (obstaclePool s !! ty) as [pool|] eqn:E; simpl.
    - apply (pool_sizes s Hinv ty pool E).
    - unfold poolSize. lia. }
  pose proof (Hl barrier). pose proof (Hl wall). pose proof (Hl cone).
  unfold poolSize in *. lia.
Qed.

Lemma obstacles_bounded (s : ObstacleManager.t) :
  pool_invariant s ->
  (length (obstacles s) <= poolSize * length types)%nat.
Proof.
  intros Hinv.
  transitivity (length (poolAddresses s)); [|apply poolAddresses_length, Hinv].
  replace (length (obstacles s)) with (length (used s))
    by (unfold used; apply length_fmap).
  apply submseteq_length, NoDup_submseteq.
  - apply (used_NoDup s Hinv).
  - apply (used_pooled s Hinv).
Qed.

Lemma sound_ret {A} (a : A) : sound (ret a).
Proof. intros s. simpl. split; [apply frame_refl | tauto]. Qed.

Lemma sound_bind {A B} (m : M A) (k : A -> M B) :
  sound m -> (forall a, sound (k a)) -> sound (bind m k).
Proof.
  intros Hm Hk s. unfold bind.
  destruct (Hm s) as [Hf Hi]. destruct (m s) as [a s1]. simpl in *.
  destruct (Hk a s1) as [Hf1 Hi1].
  split; [eapply frame_trans; eassumption | auto].
Qed.

Lemma sound_random_ : sound (random_ Math_random).
Proof.
  intros s. unfold random_. simpl. split.
  - constructor; simpl; tauto.
  - apply pool_invariant_ext; reflexivity.
Qed.

Lemma sound_random (lo hi : Q) : sound (ObstacleManager.random Math_random lo hi).
Proof.
  unfold ObstacleManager.random. apply sound_bind; [apply sound_random_|].
  intros r. apply sound_ret.
Qed.

Lemma sound_forLoop (n : nat) (start : Z) (body : Z -> M unit) :
  (forall i, sound (body i)) -> sound (forLoop n start body).
Proof.
  intros Hb. revert start. induction n as [|n IH]; intros start; simpl.
  - apply sound_ret.
  - apply sound_bind; [apply Hb | intros _; apply IH].
Qed.

Lemma getObstacleFromPool_Some (ty : ObstacleType) (s : ObstacleManager.t)
    (a : nat) :
  getObstacleFromPool ty s = Some a ->
  a ∈ poolAddresses s /\ visible <$> meshes s !! a = Some false.
Proof.
  unfold getObstacleFromPool. intros H.
  destruct (obstaclePool s !! ty) as [pool|] eqn:Hp; [|discriminate].
  destruct (list_find _ pool) as [[i b]|] eqn:Hf; [|discriminate].
  simpl in H. injection H as ->.
  apply list_find_Some in Hf. destruct Hf as (Hi & Hv & _).
  split; [|exact Hv].
  eapply pool_elem_addresses; [exact Hp|].
  apply list_elem_of_lookup. exists i. exact Hi.
Qed.

Lemma getObstacleFromPool_exhausted (ty : ObstacleType) (s : ObstacleManager.t) :
  exhausted ty s -> getObstacleFromPool ty s = None.
Proof.
  intros Hex. unfold getObstacleFromPool.
  destruct (obstaclePool s !! ty) as [pool|] eqn:Hp; [|reflexivity].
  destruct (list_find _ pool) as [[i b]|] eqn:Hf; [|reflexivity].
  apply list_find_Some in Hf. destruct Hf as (Hi & Hv & _).
  assert (Hb : inUse s b).
  { apply (Hex pool Hp). apply list_elem_of_lookup. exists i. exact Hi. }
  unfold inUse in Hb. congruence.
Qed.

Lemma sound_createObstacle (ty : ObstacleType) (px pz : Q) :
  sound (createObstacle setFromObject ty px pz).
Proof.
  intros s. unfold createObstacle.
  destruct (scene s) as [children|] eqn:Hsc;
    [|simpl; split; [apply frame_refl | tauto]].
  destruct (getObstacleFromPool ty s) as [a|] eqn:Hg;
    [|simpl; split; [apply frame_refl | tauto]].
  apply getObstacleFromPool_Some in Hg. destruct Hg as (Hpool & Hfree).
  simpl. split.
  - constructor; simpl; try reflexivity. rewrite Hsc. simpl. split; discriminate.
  - intros [H1 H2 H3 H4].
    constructor; unfold used, inUse, poolAddresses in *; simpl.
    + rewrite fmap_app. simpl. apply NoDup_app. split; [exact H1|].
      split; [|apply NoDup_singleton].
      intros b Hb Hba. apply list_elem_of_singleton in Hba. subst b.
      specialize (H2 a Hb). congruence.
    + intros b Hb. rewrite fmap_app in Hb. simpl in Hb.
      apply elem_of_app in Hb. destruct Hb as [Hb|Hb].
      * assert (Hne : a <> b).
        { intros ->. specialize (H2 b Hb). congruence. }
        rewrite lookup_alter_ne by exact Hne. apply H2, Hb.
      * apply list_elem_of_singleton in Hb. subst b.
        rewrite lookup_alter_eq.
        destruct (meshes s !! a) as [m|]; [reflexivity | discriminate].
    + intros b Hb. rewrite fmap_app in Hb. simpl in Hb.
      apply elem_of_app in Hb. destruct Hb as [Hb|Hb].
      * apply H3, Hb.
      * apply list_elem_of_singleton in Hb. subst b. exact Hpool.
    + exact H4.
Qed.

Lemma sound_setMeshScaleX (i : nat) (v : Q) : sound (modify (setMeshScaleX i v)).
Proof.
  intros s. unfold modify, setMeshScaleX. simpl.
  destruct (obstacles s !! i) as [o|]; [|split; [apply frame_refl | tauto]].
  split.
  - constructor; simpl; tauto.
  - intros [H1 H2 H3 H4].
    constructor; unfold used, inUse, poolAddresses in *; simpl; try assumption.
    intros b Hb. specialize (H2 b Hb).
    destruct (decide (mesh o = b)) as [->|Hne].
    + rewrite lookup_alter_eq.
      destruct (meshes s !! b) as [m|]; [exact H2 | discriminate].
    + rewrite lookup_alter_ne by exact Hne. exact H2.
Qed.

Lemma sound_setMotion (i : nat) (sp : Q) (dir : Vector3) :
  sound (modify (setMotion i sp dir)).
Proof.
  intros s. unfold modify, setMotion. simpl. split.
  - constructor; simpl; tauto.
  - assert (Hu : mesh <$> alter (set_motion (Some sp) (Some dir)) i (obstacles s)
                 = mesh <$> obstacles s).
    { rewrite (list_fmap_alter mesh (set_motion (Some sp) (Some dir)) id).
      - generalize (mesh <$> obstacles s). intros l. revert i.
        induction l as [|b l IH]; intros [|i]; simpl; try reflexivity.
        f_equal. apply IH.
      - apply Forall_forall. intros o _. reflexivity. }
    intros [H1 H2 H3 H4].
    constructor; unfold used, inUse, poolAddresses in *; simpl;
      rewrite ?Hu; assumption.
Qed.

Lemma sound_created {A} (ty : ObstacleType) (px pz : Q)
    (k : option nat -> M A) :
  (forall r, sound (k r)) ->
  sound (bind (createObstacle setFromObject ty px pz) k).
Proof. intros Hk. apply sound_bind; [apply sound_createObstacle | exact Hk]. Qed.

Lemma sound_scaled (ty : ObstacleType) (px pz v : Q) :
  sound (bind (createObstacle setFromObject ty px pz)
           (fun created =>
              match created with
              | Some i => modify (setMeshScaleX i v)
              | None => ret tt
              end)).
Proof.
  apply sound_created. intros [i|]; [apply sound_setMeshScaleX | apply sound_ret].
Qed.

Lemma sound_spawnPattern (p : Pattern) (pz : Q) :
  sound (spawnPattern Math_random setFromObject p pz).
Proof.
  destruct p; simpl.
  - unfold spawnSingleBarrier.
    apply sound_bind; [apply sound_random | intros px].
    apply sound_created. intros _. apply sound_ret.
  - unfold spawnDoubleBarrier.
    apply sound_bind; [apply sound_random | intros gap].
    apply sound_bind; [apply sound_random | intros centerX].
    do 2 (apply sound_created; intros _). apply sound_ret.
  - unfold spawnWallGap.
    apply sound_bind; [apply sound_random | intros gapCenter].
    apply sound_bind; [apply sound_random | intros gapWidth].
    apply sound_bind; [|intros _].
    + destruct (Qltb _ _); [apply sound_scaled | apply sound_ret].
    + destruct (Qltb _ _); [apply sound_scaled | apply sound_ret].
  - intros s. unfold spawnConeSlalom.
    apply sound_forLoop. intros i.
    apply sound_bind; [apply sound_random | intros r].
    apply sound_created. intros _. apply sound_ret.
  - intros s. unfold spawnNarrowPassage.
    do 4 (apply sound_created; intros _). apply sound_ret.
  - unfold spawnMovingBarriers.
    apply sound_created. intros leftBarrier.
    apply sound_created. intros rightBarrier.
    apply sound_bind; [|intros _].
    + destruct leftBarrier as [i|]; [|apply sound_ret].
      apply sound_bind; [apply sound_random | intros sp; apply sound_setMotion].
    + destruct rightBarrier as [i|]; [|apply sound_ret].
      apply sound_bind; [apply sound_random | intros sp; apply sound_setMotion].
Qed.

Lemma exec_bind_random_ {A} (k : Q -> M A) (s : ObstacleManager.t) :
  snd (bind (random_ Math_random) k s)
  = snd (k (Math_random (drawn s)) (set_drawn (S (drawn s)) s)).
Proof. reflexivity. Qed.

Lemma patternAt_in_range (r : Q) : 0 <= r < 1 -> patternAt r <> None.
Proof.
  intros [Hlo Hhi]. unfold patternAt.
  set (idx := Qfloor (r * inject_Z (Z.of_nat (length patterns)))).
  assert (Hsix : inject_Z (Z.of_nat (length patterns)) == 6) by reflexivity.
  assert (H0 : (0 <= idx)%Z).
  { subst idx. rewrite <- (Qfloor_Z 0). apply Qfloor_resp_le.
    rewrite Hsix. change (inject_Z 0) with 0. lra. }
  assert (H6 : (idx < 6)%Z).
  { pose proof (Qfloor_le (r * inject_Z (Z.of_nat (length patterns)))) as Hfl.
    fold idx in Hfl. rewrite Hsix in Hfl.
    apply Z.lt_nge. intros Hge.
    assert (Hq : inject_Z 6 <= inject_Z idx) by (rewrite <- Zle_Qle; exact Hge).
    change (inject_Z 6) with 6 in Hq. lra. }
  destruct (0 <=? idx)%Z eqn:E0; [|apply Z.leb_gt in E0; lia].
  assert (Hn : (Z.to_nat idx < length patterns)%nat) by (simpl; lia).
  apply lookup_lt_is_Some in Hn. destruct Hn as [p Hp']. congruence.
Qed.

(** Dispatching a pattern respects the discipline and changes, of the frame,
    only the record of patterns placed: with a scene and a draw in [0, 1) it
    puts exactly one pattern at the coordinate. *)
Lemma spawnObstaclePattern_spec (pz : Q) (s : ObstacleManager.t) :
  let s' := exec (spawnObstaclePattern Math_random setFromObject pz) s in
  obstaclePool s' = obstaclePool s
  /\ lastSpawnZ s' = lastSpawnZ s
  /\ difficulty s' = difficulty s
  /\ spawnDistance s' = spawnDistance s
  /\ despawnDistance s' = despawnDistance s
  /\ timeSinceStart s' = timeSinceStart s
  /\ (scene s' = None <-> scene s = None)
  /\ (pool_invariant s -> pool_invariant s')
  /\ (scene s = None -> placed s' = placed s)
  /\ (scene s <> None -> 0 <= Math_random (drawn s) < 1 ->
      exists p, placed s' = placed s ++ [(pz, p)]).
Proof.
  unfold exec, spawnObstaclePattern.
  destruct (scene s) as [children|] eqn:Hsc.
  2:{ cbn [snd]. rewrite Hsc. split_and!; try tauto; try reflexivity. }
  rewrite exec_bind_random_.
  set (s1 := set_drawn (S (drawn s)) s).
  destruct (patternAt (Math_random (drawn s))) as [p|] eqn:Hp.
  - unfold bind, modify. cbn [snd].
    set (s2 := set_placed (placed s1 ++ [(pz, p)]) s1).
    destruct (sound_spawnPattern p pz s2) as [[F1 F2 F3 F4 F5 F6 F7 F8] Hi].
    rewrite F1, F2, F3, F4, F5, F6, F8. cbn.
    split_and!; try reflexivity.
    + split; [|discriminate].
      intros Hn. apply F7 in Hn. cbn in Hn. congruence.
    + intros Hinv. apply Hi. revert Hinv.
      apply pool_invariant_ext; reflexivity.
    + discriminate.
    + intros _ _. exists p. reflexivity.
  - cbn. split_and!; try reflexivity; try discriminate;
      try (split; congruence).
    + apply pool_invariant_ext; reflexivity.
    + intros _ Hr. exfalso. apply (patternAt_in_range _ Hr). exact Hp.
Qed.

Lemma spawnInitialObstacles_spec (s : ObstacleManager.t) :
  let s' := exec (spawnInitialObstacles Math_random setFromObject) s in
  obstaclePool s' = obstaclePool s
  /\ lastSpawnZ s' = lastSpawnZ s
  /\ difficulty s' = difficulty s
  /\ timeSinceStart s' = timeSinceStart s
  /\ (scene s' = None <-> scene s = None)
  /\ (pool_invariant s -> pool_invariant s').
Proof.
  unfold exec, spawnInitialObstacles, bind.
  repeat match goal with
  | |- context [spawnObstaclePattern Math_random setFromObject ?pz ?st] =>
      let H := fresh "H" in
      pose proof (spawnObstaclePattern_spec pz st) as H;
      unfold exec in H; cbn zeta in H;
      destruct (spawnObstaclePattern Math_random setFromObject pz st) as [[] ?];
      cbn [snd] in H;
      destruct H as (?E & ?E & ?E & _ & _ & ?E & ?E & ?I & _ & _)
  end.
  cbn [snd]. split_and!; try congruence; try tauto.
Qed.

(** *** Despawning *)

Lemma returnObstacleToPool_lookup_ne (a b : nat) (s : ObstacleManager.t) :
  a <> b ->
  meshes (returnObstacleToPool a (sceneRemove a s)) !! b = meshes s !! b.
Proof.
  intros Hne. unfold returnObstacleToPool. simpl.
  apply lookup_alter_ne. exact Hne.
Qed.

Lemma returnObstacleToPool_frame (a : nat) (s : ObstacleManager.t) :
  frame s (returnObstacleToPool a (sceneRemove a s)).
Proof.
  constructor; simpl; try reflexivity.
  destruct (scene s); simpl; split; congruence.
Qed.

Lemma cleanupFilter_frame (carPosition : Vector3)
    (obs : list (ObstacleData nat)) (s : ObstacleManager.t) :
  frame s (snd (cleanupFilter carPosition obs s))
  /\ obstacles (snd (cleanupFilter carPosition obs s)) = obstacles s.
Proof.
  revert s. induction obs as [|o rest IH]; intros s; simpl.
  - split; [apply frame_refl | reflexivity].
  - destruct (Qltb _ _).
    + destruct (IH (returnObstacleToPool (mesh o) (sceneRemove (mesh o) s)))
        as [Hf Ho].
      split; [|rewrite Ho; reflexivity].
      eapply frame_trans; [apply returnObstacleToPool_frame | exact Hf].
    + specialize (IH s).
      destruct (cleanupFilter carPosition rest s); exact IH.
Qed.

Lemma cleanupFilter_spec (carPosition : Vector3)
    (obs : list (ObstacleData nat)) (s : ObstacleManager.t) :
  NoDup (mesh <$> obs) ->
  let kept := fst (cleanupFilter carPosition obs s) in
  let s' := snd (cleanupFilter carPosition obs s) in
  sublist (mesh <$> kept) (mesh <$> obs)
  /\ (forall a, a ∉ mesh <$> obs -> meshes s' !! a = meshes s !! a)
  /\ (forall a, a ∈ mesh <$> kept -> meshes s' !! a = meshes s !! a).
Proof.
  revert s. induction obs as [|o rest IH]; intros s Hnd; simpl.
  - split_and!; [constructor | auto | auto].
  - rewrite fmap_cons in Hnd. apply NoDup_cons in Hnd. destruct Hnd as [Ho Hnd].
    destruct (Qltb (z (position o)) (z carPosition + despawnDistance s)).
    + set (s0 := returnObstacleToPool (mesh o) (sceneRemove (mesh o) s)).
      destruct (IH s0 Hnd) as (Hsub & Hout & Hin).
      split_and!.
      * apply sublist_cons. exact Hsub.
      * intros a Ha. apply not_elem_of_cons in Ha. destruct Ha as [Hne Ha].
        rewrite (Hout a Ha). apply returnObstacleToPool_lookup_ne. congruence.
      * intros a Ha. rewrite (Hin a Ha).
        apply returnObstacleToPool_lookup_ne. intros Heq. subst a.
        apply Ho. eapply elem_of_sublist; [exact Ha | exact Hsub].
    + destruct (IH s Hnd) as (Hsub & Hout & Hin).
      destruct (cleanupFilter carPosition rest s) as [kept s1].
      simpl in *. split_and!.
      * apply sublist_skip. exact Hsub.
      * intros a Ha. apply not_elem_of_cons in Ha. destruct Ha as [_ Ha].
        apply Hout, Ha.
      * intros a Ha. apply elem_of_cons in Ha. destruct Ha as [->|Ha].
        -- apply Hout, Ho.
        -- apply Hin, Ha.
Qed.

Lemma cleanupObstacles_spec (carPosition : Vector3) (s : ObstacleManager.t) :
  frame s (cleanupObstacles carPosition s)
  /\ (pool_invariant s -> pool_invariant (cleanupObstacles carPosition s)).
Proof.
  unfold cleanupObstacles.
  pose proof (cleanupFilter_spec carPosition (obstacles s) s) as Hspec.
  destruct (cleanupFilter_frame carPosition (obstacles s) s) as [Hf _].
  destruct (cleanupFilter carPosition (obstacles s) s) as [kept s1].
  simpl in Hspec, Hf. split.
  - destruct Hf. constructor; simpl; assumption.
  - intros [H1 H2 H3 H4].
    destruct (Hspec H1) as (Hsub & Hout & Hin).
    constructor; unfold used, inUse, poolAddresses in *; simpl.
    + eapply sublist_NoDup; eassumption.
    + intros a Ha. rewrite (Hin a Ha). apply H2.
      eapply elem_of_sublist; eassumption.
    + intros a Ha. rewrite (fr_pool _ _ Hf). apply H3.
      eapply elem_of_sublist; eassumption.
    + rewrite (fr_pool _ _ Hf). exact H4.
Qed.

(** *** Moving obstacles *)

Lemma moveObstacle_spec (deltaTime : Q) (o : ObstacleData nat)
    (s : ObstacleManager.t) :
  let o' := fst (moveObstacle setFromObject deltaTime o s) in
  let s' := snd (moveObstacle setFromObject deltaTime o s) in
  mesh o' = mesh o
  /\ frame s s'
  /\ (forall a, visible <$> meshes s' !! a = visible <$> meshes s !! a).
Proof.
  unfold moveObstacle.
  destruct (speed o) as [sp|], (direction o) as [dir|];
    try (simpl; split_and!; [reflexivity | apply frame_refl | reflexivity]).
  destruct (Qeq_bool sp 0);
    [simpl; split_and!; [reflexivity | apply frame_refl | reflexivity]|].
  destruct (meshes s !! mesh o) as [m|] eqn:Hm;
    [|simpl; split_and!; [reflexivity | apply frame_refl | reflexivity]].
  simpl. split_and!.
  - reflexivity.
  - constructor; simpl; tauto.
  - intros a. destruct (decide (mesh o = a)) as [<-|Hne].
    + rewrite lookup_insert_eq, Hm. reflexivity.
    + rewrite lookup_insert_ne by exact Hne. reflexivity.
Qed.

Lemma moveAll_spec (deltaTime : Q) (obs : list (ObstacleData nat))
    (s : ObstacleManager.t) :
  let obs' := fst (moveAll setFromObject deltaTime obs s) in
  let s' := snd (moveAll setFromObject deltaTime obs s) in
  mesh <$> obs' = mesh <$> obs
  /\ frame s s'
  /\ (forall a, visible <$> meshes s' !! a = visible <$> meshes s !! a).
Proof.
  revert s. induction obs as [|o rest IH]; intros s; simpl.
  - split_and!; [reflexivity | apply frame_refl | reflexivity].
  - destruct (moveObstacle_spec deltaTime o s) as (Hm & Hf & Hv).
    destruct (moveObstacle setFromObject deltaTime o s) as [o1 s1].
    simpl in Hm, Hf, Hv.
    destruct (IH s1) as (Hm2 & Hf2 & Hv2).
    destruct (moveAll setFromObject deltaTime rest s1) as [rest1 s2].
    simpl in *. split_and!.
    + f_equal; [exact Hm | exact Hm2].
    + eapply frame_trans; eassumption.
    + intros a. rewrite Hv2. apply Hv.
Qed.

Lemma updateMovingObstacles_spec (deltaTime : Q) (s : ObstacleManager.t) :
  frame s (updateMovingObstacles setFromObject deltaTime s)
  /\ (pool_invariant s ->
      pool_invariant (updateMovingObstacles setFromObject deltaTime s)).
Proof.
  unfold updateMovingObstacles.
  destruct (moveAll_spec deltaTime (obstacles s) s) as (Hm & Hf & Hv).
  destruct (moveAll setFromObject deltaTime (obstacles s) s) as [obs s1].
  simpl in Hm, Hf, Hv. split.
  - destruct Hf. constructor; simpl; assumption.
  - intros [H1 H2 H3 H4].
    constructor; unfold used, inUse, poolAddresses in *; simpl;
      rewrite ?Hm, ?(fr_pool _ _ Hf); try assumption.
    intros a Ha. rewrite Hv. apply H2, Ha.
Qed.

(** *** Initialisation and reset *)

Lemma createObstaclePool_spec (s : ObstacleManager.t) :
  let s' := createObstaclePool s in
  obstacles s' = obstacles s
  /\ scene s' = scene s
  /\ lastSpawnZ s' = lastSpawnZ s
  /\ difficulty s' = difficulty s
  /\ timeSinceStart s' = timeSinceStart s
  /\ (forall ty pool, obstaclePool s' !! ty = Some pool ->
        length pool = poolSize).
Proof.
  unfold createObstaclePool, types. cbn -[seq poolSize].
  split_and!; try reflexivity.
  intros ty pool.
  destruct ty;
    rewrite ?lookup_insert_eq, ?(lookup_insert_ne _ cone),
      ?lookup_insert_eq, ?(lookup_insert_ne _ wall), ?lookup_insert_eq
      by discriminate;
    intros H; injection H as <-; reflexivity.
Qed.

Lemma empty_pool_invariant (s : ObstacleManager.t) :
  obstacles s = [] ->
  (forall ty pool, obstaclePool s !! ty = Some pool ->
     (length pool <= poolSize)%nat) ->
  pool_invariant s.
Proof.
  intros Ho Hp. constructor; unfold used; rewrite ?Ho; simpl.
  - constructor.
  - intros a Ha. apply elem_of_nil in Ha. contradiction.
  - intros a Ha. apply elem_of_nil in Ha. contradiction.
  - exact Hp.
Qed.

Lemma returnAll_frame (obs : list (ObstacleData nat)) (s : ObstacleManager.t) :
  frame s
    (fold_left
       (fun st o => returnObstacleToPool (mesh o) (sceneRemove (mesh o) st))
       obs s).
Proof.
  revert s. induction obs as [|o rest IH]; intros s; simpl.
  - apply frame_refl.
  - eapply frame_trans; [apply returnObstacleToPool_frame | apply IH].
Qed.

(** *** The spawn loop *)

Lemma spawnLoop_unfold (fuel : nat) (spawnZ : Q) (s : ObstacleManager.t) :
  spawnLoop Math_random setFromObject (S fuel) spawnZ s
  = if Qltb (lastSpawnZ s) spawnZ then
      spawnLoop Math_random setFromObject fuel spawnZ
        (exec (spawnObstaclePattern Math_random setFromObject
                 (lastSpawnZ (advance s)))
           (advance s))
    else Some s.
Proof. reflexivity. Qed.

Lemma spawnLoop_zero (spawnZ : Q) (s : ObstacleManager.t) :
  spawnLoop Math_random setFromObject 0 spawnZ s
  = if Qltb (lastSpawnZ s) spawnZ then None else Some s.
Proof. reflexivity. Qed.

Lemma spawnIncrement_bounds (r d : Q) :
  0 <= r < 1 -> 0 < d <= 5 ->
  4 <= Qmin 10 (20 / d) /\ Qmin 10 (20 / d) <= spawnIncrement r d.
Proof.
  intros [Hr0 Hr1] [Hd0 Hd5].
  assert (Hu : 4 <= 20 / d).
  { apply Qle_shift_div_l; [exact Hd0 | lra]. }
  set (u := 20 / d) in *. split.
  - apply Q.min_glb; lra.
  - unfold spawnIncrement, MathUtils.random. fold u.
    destruct (Qlt_le_dec u 10) as [Hlt|Hge].
    + eapply Qle_trans; [apply Q.le_min_r|]. nra.
    + eapply Qle_trans; [apply Q.le_min_l|]. nra.
Qed.


(** What the body of the loop keeps. *)
Lemma loop_body_spec (s : ObstacleManager.t) :
  let s' :=
    exec (spawnObstaclePattern Math_random setFromObject (lastSpawnZ (advance s)))
      (advance s) in
  obstaclePool s' = obstaclePool s
  /\ lastSpawnZ s' = lastSpawnZ (advance s)
  /\ difficulty s' = difficulty s
  /\ spawnDistance s' = spawnDistance s
  /\ despawnDistance s' = despawnDistance s
  /\ timeSinceStart s' = timeSinceStart s
  /\ (scene s' = None <-> scene s = None)
  /\ (pool_invariant s -> pool_invariant s')
  /\ (scene s <> None -> 0 <= Math_random (S (drawn s)) < 1 ->
      exists p, placed s' = placed s ++ [(lastSpawnZ (advance s), p)]).
Proof.
  destruct (spawnObstaclePattern_spec (lastSpawnZ (advance s)) (advance s))
    as (E1 & E2 & E3 & E4 & E5 & E6 & E7 & Hi & _ & Hp).
  cbn zeta. rewrite E1, E2, E3, E4, E5, E6.
  split_and!; try reflexivity.
  - exact E7.
  - intros Hinv. apply Hi. revert Hinv. apply pool_invariant_ext; reflexivity.
  - exact Hp.
Qed.

Lemma spawnLoop_spec (fuel : nat) (spawnZ : Q) (s s' : ObstacleManager.t) :
  spawnLoop Math_random setFromObject fuel spawnZ s = Some s' ->
  obstaclePool s' = obstaclePool s
  /\ difficulty s' = difficulty s
  /\ spawnDistance s' = spawnDistance s
  /\ despawnDistance s' = despawnDistance s
  /\ timeSinceStart s' = timeSinceStart s
  /\ (scene s' = None <-> scene s = None)
  /\ (pool_invariant s -> pool_invariant s')
  /\ spawnZ <= lastSpawnZ s'
  /\ (scene s <> None -> (forall n, 0 <= Math_random n < 1) ->
      exists zs,
        SpawnTrace (difficulty s) spawnZ (lastSpawnZ s) zs (lastSpawnZ s')
        /\ fst <$> placed s' = (fst <$> placed s) ++ zs).
Proof.
  revert s. induction fuel as [|fuel IH]; intros s.
  - rewrite spawnLoop_zero.
    destruct (Qltb (lastSpawnZ s) spawnZ) eqn:E; [discriminate|].
    intros H. injection H as <-. apply Qltb_false in E.
    split_and!; try reflexivity; try tauto.
    intros _ _. exists []. split; [constructor; exact E|].
    rewrite app_nil_r. reflexivity.
  - rewrite spawnLoop_unfold.
    destruct (Qltb (lastSpawnZ s) spawnZ) eqn:E.
    + intros H. apply IH in H.
      destruct H as (A1 & A2 & A3 & A4 & A5 & A6 & A7 & A8 & A9).
      destruct (loop_body_spec s) as (B1 & B2 & B3 & B4 & B5 & B6 & B7 & B8 & B9).
      cbn zeta in *.
      rewrite A1, A2, A3, A4, A5, B1, B3, B4, B5, B6.
      split_and!; try reflexivity; try tauto.
      intros Hsc Hrnd.
      destruct (B9 Hsc (Hrnd _)) as [p Hp].
      destruct A9 as (zs & Htr & Hpl); [tauto | exact Hrnd |].
      rewrite B3, B2 in Htr.
      exists (lastSpawnZ (advance s) :: zs). split.
      * apply Qltb_true in E.
        apply (trace_step _ _ (lastSpawnZ s) (Math_random (drawn s)));
          [exact E | apply Hrnd | exact Htr].
      * rewrite Hpl, Hp, fmap_app. simpl. rewrite <- app_assoc. reflexivity.
    + intros H. injection H as <-. apply Qltb_false in E.
      split_and!; try reflexivity; try tauto.
      intros _ _. exists []. split; [constructor; exact E|].
      rewrite app_nil_r. reflexivity.
Qed.

Lemma spawnLoop_terminates (spawnZ : Q) :
  (forall n, 0 <= Math_random n < 1) ->
  forall (fuel : nat) (s : ObstacleManager.t),
    0 < difficulty s <= 5 ->
    spawnZ - lastSpawnZ s <= 4 * inject_Z (Z.of_nat fuel) ->
    exists s', spawnLoop Math_random setFromObject fuel spawnZ s = Some s'.
Proof.
  intros Hrnd. induction fuel as [|fuel IH]; intros s Hd Hz.
  - rewrite spawnLoop_zero.
    destruct (Qltb (lastSpawnZ s) spawnZ) eqn:E; [|eauto].
    apply Qltb_true in E. change (inject_Z (Z.of_nat 0)) with 0 in Hz. lra.
  - rewrite spawnLoop_unfold.
    destruct (Qltb (lastSpawnZ s) spawnZ) eqn:E; [|eauto].
    destruct (loop_body_spec s) as (_ & B2 & B3 & _).
    cbn zeta in *. apply IH.
    + rewrite B3. exact Hd.
    + rewrite B2. unfold advance. cbn [lastSpawnZ set_lastSpawnZ set_drawn].
      destruct (spawnIncrement_bounds (Math_random (drawn s)) (difficulty s)
                  (Hrnd _) Hd) as [H4 Hinc].
      rewrite Nat2Z.inj_succ, <- Z.add_1_r, inject_Z_plus in Hz.
      change (inject_Z 1) with 1 in Hz. lra.
Qed.

Lemma spawnLoop_more_fuel (spawnZ : Q) (fuel more : nat)
    (s s' : ObstacleManager.t) :
  spawnLoop Math_random setFromObject fuel spawnZ s = Some s' ->
  spawnLoop Math_random setFromObject (fuel + more) spawnZ s = Some s'.
Proof.
  revert s. induction fuel as [|fuel IH]; intros s.
  - rewrite spawnLoop_zero.
    destruct (Qltb (lastSpawnZ s) spawnZ) eqn:E; [discriminate|].
    intros H. destruct more; simpl; rewrite E; exact H.
  - change (S fuel + more)%nat with (S (fuel + more)).
    rewrite !spawnLoop_unfold.
    destruct (Qltb (lastSpawnZ s) spawnZ); [apply IH | tauto].
Qed.

Lemma enoughFuel_covers (spawnZ : Q) (s : ObstacleManager.t) :
  spawnZ - lastSpawnZ s <= 4 * inject_Z (Z.of_nat (enoughFuel spawnZ s)).
Proof.
  unfold enoughFuel.
  set (g := (spawnZ - lastSpawnZ s) / 4).
  pose proof (Qle_ceiling g) as Hc.
  assert (Hg : spawnZ - lastSpawnZ s == 4 * g) by (unfold g; field).
  destruct (Z_le_gt_dec 0 (Qceiling g)) as [Hpos|Hneg].
  - rewrite Z2Nat.id by exact Hpos. lra.
  - assert (Hq : inject_Z (Qceiling g) <= inject_Z 0).
    { rewrite <- Zle_Qle. lia. }
    change (inject_Z 0) with 0 in Hq.
    assert (Hn : Z.to_nat (Qceiling g) = 0%nat) by lia.
    rewrite Hn. change (inject_Z (Z.of_nat 0)) with 0. lra.
Qed.

(** *** Sessions *)

Lemma updateDifficulty_range (s : ObstacleManager.t) :
  0 <= timeSinceStart s ->
  1 <= difficulty (updateDifficulty s) <= 5.
Proof.
  intros Ht. unfold updateDifficulty. cbn [difficulty set_difficulty].
  assert (H30 : 0 <= timeSinceStart s / 30).
  { apply Qle_shift_div_l; lra. }
  split; [apply Q.min_glb; lra | apply Q.le_min_r].
Qed.

Lemma initialize_invariant :
  session_invariant (initialize Math_random setFromObject ObstacleManager.new).
Proof.
  unfold initialize.
  set (s0 := set_scene (Some ∅) ObstacleManager.new).
  destruct (createObstaclePool_spec s0) as (Ho & Hsc & _ & Hd & Ht & Hp).
  cbn zeta in *.
  destruct (spawnInitialObstacles_spec (createObstaclePool s0))
    as (E1 & _ & E3 & E4 & E5 & Hi).
  cbn zeta in *.
  constructor.
  - apply Hi, empty_pool_invariant; [rewrite Ho; reflexivity|].
    intros ty pool H. rewrite (Hp ty pool H). lia.
  - intros Hn. apply E5 in Hn. rewrite Hsc in Hn. discriminate.
  - rewrite E4, Ht. cbn. lra.
  - rewrite E3, Hd. cbn. lra.
Qed.

Lemma reset_invariant (s : ObstacleManager.t) :
  session_invariant s ->
  session_invariant (reset Math_random setFromObject s).
Proof.
  intros [Hp Hsc Ht Hd]. unfold reset.
  pose proof (returnAll_frame (obstacles s) s) as Hf.
  set (s1 := fold_left _ (obstacles s) s) in *.
  set (s2 := set_timeSinceStart 0 (set_difficulty 1 (set_lastSpawnZ 50
               (set_obstacles [] s1)))).
  destruct (spawnInitialObstacles_spec s2) as (E1 & _ & E3 & E4 & E5 & Hi).
  cbn zeta in *.
  constructor.
  - apply Hi, empty_pool_invariant; [reflexivity|].
    cbn. rewrite (fr_pool _ _ Hf). apply (pool_sizes _ Hp).
  - intros Hn. apply E5 in Hn. cbn in Hn. apply (fr_scene _ _ Hf) in Hn.
    contradiction.
  - rewrite E4. cbn. lra.
  - rewrite E3. cbn. lra.
Qed.

Lemma update_invariant (fuel : nat) (deltaTime : Q) (carPosition : Vector3)
    (s s' : ObstacleManager.t) :
  session_invariant s -> 0 <= deltaTime ->
  update Math_random setFromObject fuel deltaTime carPosition s = Some s' ->
  session_invariant s'.
Proof.
  intros [Hp Hsc Ht Hd] Hdt. unfold update, spawnObstacles.
  set (s1 := set_timeSinceStart (timeSinceStart s + deltaTime) s).
  set (s2 := updateDifficulty s1).
  assert (Ht1 : 0 <= timeSinceStart s1) by (cbn; lra).
  pose proof (updateDifficulty_range s1 Ht1) as Hd2. fold s2 in Hd2.
  assert (Hp2 : pool_invariant s2).
  { revert Hp. apply pool_invariant_ext; reflexivity. }
  destruct (cleanupObstacles_spec carPosition s2) as [Hf3 Hi3].
  set (s3 := cleanupObstacles carPosition s2) in *.
  destruct (spawnLoop _ _ fuel _ s3) as [s4|] eqn:Hloop; [|discriminate].
  intros H. injection H as <-.
  apply spawnLoop_spec in Hloop.
  destruct Hloop as (A1 & A2 & A3 & A4 & A5 & A6 & A7 & _).
  destruct (updateMovingObstacles_spec deltaTime s4) as [Hf5 Hi5].
  constructor.
  - apply Hi5, A7, Hi3, Hp2.
  - intros Hn. apply (fr_scene _ _ Hf5) in Hn. apply A6 in Hn.
    apply (fr_scene _ _ Hf3) in Hn. contradiction.
  - rewrite (fr_time _ _ Hf5), A5, (fr_time _ _ Hf3). exact Ht1.
  - rewrite (fr_difficulty _ _ Hf5), A2, (fr_difficulty _ _ Hf3). exact Hd2.
Qed.

Lemma reachable_invariant (s : ObstacleManager.t) :
  reachable s -> session_invariant s.
Proof.
  induction 1 as [|fuel dt car s s' _ IH Hdt Hup|s _ IH].
  - apply initialize_invariant.
  - eapply update_invariant; eassumption.
  - apply reset_invariant, IH.
Qed.

(** C3. In every state of a session the active obstacles number at most
    [poolSize] times the number of types, which is 60; and a spawn request
    that finds every mesh of its type's pool in use creates nothing and
    leaves the manager as it was. *)
Theorem active_obstacles_within_pool (s : ObstacleManager.t) :
  reachable s ->
  (length (getObstacles s) <= poolSize * length types)%nat
  /\ (poolSize * length types = 60)%nat
  /\ forall ty px pz,
       exhausted ty s ->
       createObstacle setFromObject ty px pz s = (None, s).
Proof.
  intros Hr. apply reachable_invariant in Hr. destruct Hr as [Hp Hsc _ _].
  split_and!.
  - etransitivity; [apply length_filter | apply obstacles_bounded, Hp].
  - reflexivity.
  - intros ty px pz Hex. unfold createObstacle.
    destruct (scene s); [|reflexivity].
    rewrite (getObstacleFromPool_exhausted ty s Hex). reflexivity.
Qed.

(** *** What the spawn loop puts on the road *)





















(** C10. On every tick of a session (a state of the session, a time step
    that is not negative, any car position, draws in [0, 1)) the difficulty
    the spawn loop runs at lies in [1, 5], every iteration advances
    [lastSpawnZ] by at least [min(10, 20 / difficulty)], which is at least 4,
    and the loop, hence the update, terminates: some number of iterations
    suffices, and allowing more changes nothing. *)
Theorem spawn_loop_terminates (deltaTime : Q) (carPosition : Vector3)
    (s : ObstacleManager.t) :
  (forall n, 0 <= Math_random n < 1) ->
  reachable s ->
  0 <= deltaTime ->
  let d :=
    difficulty
      (updateDifficulty (set_timeSinceStart (timeSinceStart s + deltaTime) s)) in
  1 <= d <= 5
  /\ (forall r, 0 <= r < 1 ->
        4 <= Qmin 10 (20 / d) /\ Qmin 10 (20 / d) <= spawnIncrement r d)
  /\ exists fuel s',
       update Math_random setFromObject fuel deltaTime carPosition s = Some s'
       /\ forall more,
            update Math_random setFromObject (fuel + more) deltaTime
              carPosition s = Some s'.
Proof.
  intros Hrnd Hr Hdt. apply reachable_invariant in Hr.
  destruct Hr as [Hp Hsc Ht Hd].
  set (s1 := set_timeSinceStart (timeSinceStart s + deltaTime) s).
  assert (Ht1 : 0 <= timeSinceStart s1) by (cbn; lra).
  pose proof (updateDifficulty_range s1 Ht1) as Hd2.
  cbn zeta. split_and!; try apply Hd2.
  - intros r Hr. apply spawnIncrement_bounds; [exact Hr | lra].
  - unfold update, spawnObstacles. fold s1.
    set (s3 := cleanupObstacles carPosition (updateDifficulty s1)).
    set (spawnZ := z carPosition + spawnDistance s3).
    assert (Hd3 : 0 < difficulty s3 <= 5).
    { unfold s3.
      rewrite (fr_difficulty _ _
                 (proj1 (cleanupObstacles_spec carPosition (updateDifficulty s1)))).
      lra. }
    destruct (spawnLoop_terminates spawnZ Hrnd (enoughFuel spawnZ s3) s3 Hd3
                (enoughFuel_covers spawnZ s3)) as [s4 Hloop].
    exists (enoughFuel spawnZ s3), (updateMovingObstacles setFromObject deltaTime s4).
    split.
    + rewrite Hloop. reflexivity.
    + intros more. rewrite (spawnLoop_more_fuel _ _ more _ _ Hloop). reflexivity.
Qed.

End ObstacleManagerProperties.

(** ** Concrete runs *)

(** *** Score manager *)

Example scoreRun_values :
  (ScoreManager.score scoreRun, ScoreManager.combo scoreRun,
   ScoreManager.maxCombo scoreRun, ScoreManager.lives scoreRun,
   ScoreManager.calculateFinalScore scoreRun)
  = (677, 2, 2, 3, 1127)%Z.
Proof. reflexivity. Qed.

Example late_award_restarts_combo :
  ScoreManager.combo
    (ScoreManager.awardObstacleAvoidance "cone" 2 9500 scoreRun) = 1%Z.
Proof. reflexivity. Qed.

Example loseLife_clamps_at_zero :
  ScoreManager.lives
    (ScoreManager.run
       [ScoreManager.CLoseLife; ScoreManager.CLoseLife; ScoreManager.CLoseLife;
        ScoreManager.CLoseLife]
       ScoreManager.new) = 0%Z.
Proof. reflexivity. Qed.

Lemma calculateFinalScore_monotone_witness :
  (ScoreManager.score ScoreManager.new <= ScoreManager.score scoreRun)%Z
  /\ ScoreManager.timeSurvived ScoreManager.new
     <= ScoreManager.timeSurvived scoreRun
  /\ ScoreManager.distance ScoreManager.new <= ScoreManager.distance scoreRun
  /\ (ScoreManager.maxCombo ScoreManager.new
      <= ScoreManager.maxCombo scoreRun)%Z
  /\ (ScoreManager.calculateFinalScore ScoreManager.new
      <= ScoreManager.calculateFinalScore scoreRun)%Z.
Proof.
  assert (H1 : (ScoreManager.score ScoreManager.new
                <= ScoreManager.score scoreRun)%Z)
    by (vm_compute; discriminate).
  assert (H2 : ScoreManager.timeSurvived ScoreManager.new
               <= ScoreManager.timeSurvived scoreRun)
    by (vm_compute; discriminate).
  assert (H3 : ScoreManager.distance ScoreManager.new
               <= ScoreManager.distance scoreRun)
    by (vm_compute; discriminate).
  assert (H4 : (ScoreManager.maxCombo ScoreManager.new
                <= ScoreManager.maxCombo scoreRun)%Z)
    by (vm_compute; discriminate).
  split; [exact H1|]. split; [exact H2|]. split; [exact H3|].
  split; [exact H4|].
  exact (calculateFinalScore_monotone ScoreManager.new scoreRun H1 H2 H3 H4).
Defined.

(** *** Car controller *)

Example carRun_values :
  (CarController.position carRun, CarController.speed carRun)
  = (Three.mkVector3 0 0.5 (-15), 15).
Proof. vm_compute. reflexivity. Qed.

Lemma update_lateral_position_on_road_witness :
  0 <= 1
  /\ CarController.car carRun <> None
  /\ -8 <= Three.x
             (CarController.position
                (CarController.update sinAtZero cosAtZero carBox 1 carRun)) <= 8.
Proof.
  assert (H1 : 0 <= 1) by (vm_compute; discriminate).
  assert (H2 : CarController.car carRun <> None) by (vm_compute; discriminate).
  split; [exact H1|]. split; [exact H2|].
  exact (update_lateral_position_on_road sinAtZero cosAtZero carBox 1 carRun
           H1 H2).
Defined.

Lemma handleCollision_effect_witness :
  (forall a, sinAtZero a * sinAtZero a + cosAtZero a * cosAtZero a == 1)
  /\ CarController.speed
       (CarController.handleCollision sinAtZero cosAtZero carRun)
     == CarController.speed carRun * 0.3
  /\ Three.veq
       (CarController.position
          (CarController.handleCollision sinAtZero cosAtZero carRun))
       (Three.mkVector3 0 0.5 (-13)).
Proof.
  assert (H1 : forall a,
             sinAtZero a * sinAtZero a + cosAtZero a * cosAtZero a == 1)
    by (intros a; vm_compute; reflexivity).
  split; [exact H1|].
  destruct (handleCollision_effect sinAtZero cosAtZero carRun H1)
    as (Hspeed & _ & _ & Hpos & _).
  split; [exact Hspeed|].
  destruct Hpos as (Hx & Hy & Hz).
  split; [|split].
  - rewrite Hx. vm_compute. reflexivity.
  - rewrite Hy. vm_compute. reflexivity.
  - rewrite Hz. vm_compute. reflexivity.
Defined.

(** *** Collision detector *)

Example far_obstacle_skipped_near_one_hit :
  let out :=
    CollisionDetector.checkCollisions nat meshBox alwaysHit carBounds
      threeObstacles in
  ObstacleManager.mesh
    <$> CollisionDetector.obstacle (CollisionDetector.result out) = Some 2%nat
  /\ ObstacleManager.mesh <$> CollisionDetector.narrowPhase out = [2%nat].
Proof. vm_compute. split; reflexivity. Qed.

Lemma checkCollisions_broad_phase_necessary_witness :
  In (obstacleAt 5) threeObstacles
  /\ Three.intersectsBox carBounds (meshBox 5) = false
  /\ (let out :=
        CollisionDetector.checkCollisions nat meshBox alwaysHit carBounds
          threeObstacles in
      let o' :=
        CollisionDetector.set_boundingBox nat (meshBox 5) (obstacleAt 5) in
      CollisionDetector.obstacle (CollisionDetector.result out) <> Some o'
      /\ ~ In o' (CollisionDetector.narrowPhase out)).
Proof.
  assert (H1 : In (obstacleAt 5) threeObstacles) by (simpl; left; reflexivity).
  assert (H2 : Three.intersectsBox carBounds (meshBox 5) = false)
    by (vm_compute; reflexivity).
  split; [exact H1|]. split; [exact H2|].
  destruct (checkCollisions_broad_phase_necessary nat meshBox alwaysHit
              carBounds threeObstacles (obstacleAt 5) H1 H2) as (H3 & H4 & _).
  split; [exact H3 | exact H4].
Defined.

(** *** Game engine *)

(** The crash ends the game in the tick; the request for frame 3 that the
    tick issued after [endGame] is pending. *)
Example afterCrash_values :
  (GameEngine.gameState afterCrash, GameEngine.lives (GameEngine.stats afterCrash),
   GameEngine.updates afterCrash, GameEngine.animationId afterCrash,
   GameEngine.frames afterCrash)
  = (GameEngine.GAME_OVER, 0%Z, 2%nat, Some 3%nat,
     [(2%nat, GameEngine.shakeCb 0.016); (3%nat, GameEngine.gameLoopCb)]).
Proof. vm_compute. reflexivity. Qed.

Example afterwards_values :
  let e := GameEngine.run afterwards afterCrash in
  (GameEngine.gameState e, GameEngine.updates e, pendingGameLoops e)
  = (GameEngine.GAME_OVER, 2%nat, []).
Proof. vm_compute. reflexivity. Qed.

Lemma game_over_within_tick_witness :
  GameEngine.gameState lastLife = GameEngine.PLAYING
  /\ GameEngine.lives (GameEngine.stats lastLife) = 1%Z
  /\ (livesAfter crashTick lastLife <= 0)%Z
  /\ Forall (fun et => fst et <> GameEngine.EStartGame) afterwards
  /\ GameEngine.gameState afterCrash = GameEngine.GAME_OVER
  /\ GameEngine.updates (GameEngine.run afterwards afterCrash)
     = GameEngine.updates afterCrash
  /\ GameEngine.gameState (GameEngine.run afterwards afterCrash)
     <> GameEngine.PLAYING.
Proof.
  assert (H1 : GameEngine.gameState lastLife = GameEngine.PLAYING)
    by reflexivity.
  assert (H2 : (livesAfter crashTick lastLife <= 0)%Z)
    by (vm_compute; discriminate).
  assert (H3 : Forall (fun et => fst et <> GameEngine.EStartGame) afterwards)
    by (unfold afterwards; repeat constructor; discriminate).
  split; [exact H1|]. split; [reflexivity|]. split; [exact H2|].
  split; [exact H3|].
  destruct (game_over_within_tick lastLife crashTick afterwards H1 H2 H3)
    as (H4 & _ & _ & _ & H5 & H6 & _).
  split; [exact H4 | split; [exact H5 | exact H6]].
Defined.

(** *** Obstacle manager *)

Lemma halves_range (n : nat) : 0 <= halves n < 1.
Proof. unfold halves. lra. Qed.


(** The six patterns of the initial batch ask for 24 cones; 20 are placed. *)
Example sessionStart_values :
  (length (ObstacleManager.obstacles sessionStart),
   ObstacleManager.placed sessionStart,
   ObstacleManager.getObstacleFromPool ObstacleManager.cone sessionStart)
  = (20%nat,
     [(20, ObstacleManager.cone_slalom); (35, ObstacleManager.cone_slalom);
      (50, ObstacleManager.cone_slalom); (65, ObstacleManager.cone_slalom);
      (80, ObstacleManager.cone_slalom); (95, ObstacleManager.cone_slalom)],
     None).
Proof. vm_compute. reflexivity. Qed.

(** From [lastSpawnZ = 50] the loop steps by 15 up to 110, past the spawn
    horizon 100, placing a pattern at each step. *)
Example afterSpawn_values :
  (length (ObstacleManager.obstacles afterSpawn),
   Qred <$> (fst <$> ObstacleManager.placed afterSpawn),
   Qred (ObstacleManager.lastSpawnZ afterSpawn))
  = (20%nat, [20; 35; 50; 65; 80; 95; 65; 80; 95; 110], 110).
Proof. vm_compute. reflexivity. Qed.

Example spawn_loop_needs_four_iterations :
  ObstacleManager.spawnObstacles halves obstacleBox 3 startLine sessionStart
  = None.
Proof. vm_compute. reflexivity. Qed.

Lemma sessionStart_cones_exhausted :
  exhausted ObstacleManager.cone sessionStart.
Proof.
  intros pool Hp a Ha. vm_compute in Hp. injection Hp as <-.
  repeat (apply elem_of_cons in Ha; destruct Ha as [->|Ha];
          [vm_compute; reflexivity|]).
  apply elem_of_nil in Ha. contradiction.
Qed.

Lemma active_obstacles_within_pool_witness :
  reachable halves obstacleBox sessionStart
  /\ exhausted ObstacleManager.cone sessionStart
  /\ (length (ObstacleManager.getObstacles sessionStart) <= 60)%nat
  /\ ObstacleManager.createObstacle obstacleBox ObstacleManager.cone 0 120
       sessionStart = (None, sessionStart).
Proof.
  assert (H0 : reachable halves obstacleBox sessionStart)
    by apply reachable_initialize.
  split; [exact H0|]. split; [exact sessionStart_cones_exhausted|].
  destruct (active_obstacles_within_pool halves obstacleBox sessionStart H0)
    as (H1 & H2 & H3).
  rewrite H2 in H1. split; [exact H1|].
  apply H3, sessionStart_cones_exhausted.
Defined.

(** From the start of a session whose draws are all 9/10 the loop runs three
    times, at 69, 88 and 107, and each time adds the two barriers of a
    moving pair to the twelve of the initial batch; the barrier pool still
    has a mesh left. *)
Example movingSpawn_values :
  ObstacleManager.spawnObstacles nines obstacleBox 3 startLine movingStart
  = Some movingSpawn
  /\ ObstacleManager.spawnObstacles nines obstacleBox 2 startLine movingStart
     = None
  /\ (length (ObstacleManager.obstacles movingStart),
      (fun o => (ObstacleManager.type o,
                 Qred (Three.z (ObstacleManager.position o))))
        <$> drop 12 (ObstacleManager.obstacles movingSpawn),
      Qred (ObstacleManager.lastSpawnZ movingSpawn),
      ObstacleManager.getObstacleFromPool ObstacleManager.barrier movingSpawn)
     = (12%nat,
        [(ObstacleManager.barrier, 69); (ObstacleManager.barrier, 69);
         (ObstacleManager.barrier, 88); (ObstacleManager.barrier, 88);
         (ObstacleManager.barrier, 107); (ObstacleManager.barrier, 107)],
        107, Some 19%nat).
Proof. vm_compute. split_and!; reflexivity. Qed.


Lemma spawn_loop_terminates_witness :
  reachable halves obstacleBox sessionStart
  /\ 0 <= 1 # 60
  /\ exists fuel s',
       ObstacleManager.update halves obstacleBox fuel (1 # 60) startLine
         sessionStart = Some s'.
Proof.
  assert (H0 : reachable halves obstacleBox sessionStart)
    by apply reachable_initialize.
  assert (H1 : 0 <= 1 # 60) by (vm_compute; discriminate).
  split; [exact H0|]. split; [exact H1|].
  destruct (spawn_loop_terminates halves obstacleBox (1 # 60) startLine
              sessionStart halves_range H0 H1)
    as (_ & _ & fuel & s' & Hrun & _).
  exists fuel, s'. exact Hrun.
Defined.

(** *** The score manager's rules on a run *)


Lemma lives_within_bounds_witness :
  let s := ScoreManager.run
             [ScoreManager.CLoseLife; ScoreManager.CGainLife;
              ScoreManager.CGainLife]
             ScoreManager.new in
  ScoreManager.lives s = 3%Z
  /\ ScoreManager.gainLife s = s
  /\ ScoreManager.lives (ScoreManager.loseLife s) = 2%Z.
Proof.
  destruct (lives_within_bounds
              [ScoreManager.CLoseLife; ScoreManager.CGainLife;
               ScoreManager.CGainLife] 0)
    as (_ & Hlose & _ & _ & Hfull & _).
  cbv zeta. split; [reflexivity|].
  split; [apply Hfull; reflexivity|].
  rewrite Hlose. reflexivity.
Defined.

(** * Further properties

    What else the code guarantees, module by module: ranges and shapes of the
    mathematical helpers, the car's dynamics, the score manager's figures,
    the obstacle manager's bookkeeping, the collision detector's geometry and
    the engine's pause and loop. *)

(** ** math-utils.ts *)

Section MathUtilsProperties.
Import MathUtils.

Lemma Qmax_case_le (a b : Q) : (a <= b /\ Qmax a b == b) \/ (b <= a /\ Qmax a b == a).
Proof.
  destruct (Qlt_le_dec a b) as [H|H].
  - left. split; [lra | apply Q.max_r; lra].
  - right. split; [exact H | apply Q.max_l; exact H].
Qed.

Lemma Qmin_case_le (a b : Q) : (a <= b /\ Qmin a b == a) \/ (b <= a /\ Qmin a b == b).
Proof.
  destruct (Qlt_le_dec a b) as [H|H].
  - left. split; [lra | apply Q.min_l; lra].
  - right. split; [exact H | apply Q.min_r; exact H].
Qed.

(** Case analysis on a [clamp]: the value itself inside the bounds, the
    nearer bound outside. *)
Lemma clamp_cases (v lo hi : Q) :
  lo <= hi ->
  (v <= lo /\ clamp v lo hi == lo)
  \/ (lo <= v <= hi /\ clamp v lo hi == v)
  \/ (hi <= v /\ clamp v lo hi == hi).
Proof.
  intros Hle. unfold clamp.
  destruct (Qmax_case_le v lo) as [[H1 E1]|[H1 E1]];
    destruct (Qmin_case_le (Qmax v lo) hi) as [[H2 E2]|[H2 E2]].
  - left. split; lra.
  - left. split; lra.
  - right. left. split; lra.
  - right. right. split; lra.
Qed.

End MathUtilsProperties.

(** X1. For bounds [lo <= hi], [clamp] returns a value of [[lo, hi]]: the
    argument itself when it lies there, [lo] below and [hi] above; so clamping
    twice is clamping once. *)
Theorem clamp_range_and_fixed_points (v lo hi : Q) :
  lo <= hi ->
  lo <= MathUtils.clamp v lo hi <= hi
  /\ (lo <= v <= hi -> MathUtils.clamp v lo hi == v)
  /\ (v <= lo -> MathUtils.clamp v lo hi == lo)
  /\ (hi <= v -> MathUtils.clamp v lo hi == hi)
  /\ MathUtils.clamp (MathUtils.clamp v lo hi) lo hi == MathUtils.clamp v lo hi.
Proof.
  intros Hle.
  assert (Hfix : forall u, lo <= u <= hi -> MathUtils.clamp u lo hi == u).
  { intros u Hu.
    destruct (clamp_cases u lo hi Hle) as [[H E]|[[H E]|[H E]]]; rewrite E; lra. }
  assert (Hin : lo <= MathUtils.clamp v lo hi <= hi).
  { destruct (clamp_cases v lo hi Hle) as [[H E]|[[H E]|[H E]]]; rewrite E; lra. }
  split; [exact Hin|]. split; [apply Hfix|]. split; [|split].
  - intros Hv.
    destruct (clamp_cases v lo hi Hle) as [[H E]|[[H E]|[H E]]]; rewrite E; lra.
  - intros Hv.
    destruct (clamp_cases v lo hi Hle) as [[H E]|[[H E]|[H E]]]; rewrite E; lra.
  - apply Hfix, Hin.
Qed.

(** [lerp] starts at [a] for [t = 0], ends at [b] for [t = 1] and stays
    between the two for [t] in [[0, 1]]. *)
Lemma lerp_between (a b t : Q) :
  0 <= t <= 1 ->
  MathUtils.lerp a b 0 == a
  /\ MathUtils.lerp a b 1 == b
  /\ (a <= b -> a <= MathUtils.lerp a b t <= b)
  /\ (b <= a -> b <= MathUtils.lerp a b t <= a).
Proof.
  intros [H0 H1]. unfold MathUtils.lerp.
  split; [ring|]. split; [ring|]. split; intros Hab; split; nra.
Qed.


Lemma clamp_range_and_fixed_points_witness :
  -8 <= MathUtils.clamp 11 (-8) 8 <= 8
  /\ (-8 <= 11 <= 8 -> MathUtils.clamp 11 (-8) 8 == 11)
  /\ (11 <= -8 -> MathUtils.clamp 11 (-8) 8 == -8)
  /\ (8 <= 11 -> MathUtils.clamp 11 (-8) 8 == 8)
  /\ MathUtils.clamp (MathUtils.clamp 11 (-8) 8) (-8) 8
     == MathUtils.clamp 11 (-8) 8.
Proof.
  apply (clamp_range_and_fixed_points 11 (-8) 8). vm_compute. discriminate.
Defined.


(** X4. With a draw [0 <= r < 1], [randomInt] between integers [a <= b]
    returns an integer of [[a, b]], both ends included. *)
Theorem randomInt_range (r : Q) (a b : Z) :
  0 <= r < 1 -> (a <= b)%Z ->
  exists k : Z,
    MathUtils.randomInt r (inject_Z a) (inject_Z b) == inject_Z k
    /\ (a <= k <= b)%Z.
Proof.
  intros [Hr0 Hr1] Hab. unfold MathUtils.randomInt.
  set (n := inject_Z b - inject_Z a + 1).
  assert (En : n == inject_Z (b - a + 1)).
  { unfold n, Z.sub. rewrite !inject_Z_plus, inject_Z_opp. ring. }
  assert (Hn : 1 <= n).
  { rewrite En. change 1 with (inject_Z 1). rewrite <- Zle_Qle. lia. }
  assert (H0 : 0 <= r * n) by nra.
  assert (H1 : r * n < n) by nra.
  exists (Qfloor (r * n) + a)%Z. split.
  - rewrite inject_Z_plus. reflexivity.
  - pose proof (Qfloor_resp_le _ _ H0) as Hf0.
    change (Qfloor 0) with 0%Z in Hf0.
    pose proof (Qfloor_le (r * n)) as Hf1.
    assert (Hf2 : inject_Z (Qfloor (r * n)) < inject_Z (b - a + 1)).
    { rewrite <- En. lra. }
    rewrite <- Zlt_Qlt in Hf2. lia.
Qed.

Lemma randomInt_range_witness :
  exists k : Z,
    MathUtils.randomInt (1 # 2) (inject_Z 0) (inject_Z 5) == inject_Z k
    /\ (0 <= k <= 5)%Z.
Proof.
  apply (randomInt_range (1 # 2) 0 5).
  - split; vm_compute; [discriminate | reflexivity].
  - lia.
Defined.

Lemma Qsquare_nonneg (x : Q) : 0 <= x * x.
Proof.
  destruct (Qlt_le_dec x 0) as [H|H].
  - assert (E : x * x == (- x) * (- x)) by ring.
    assert (Hn : 0 <= (- x) * (- x)) by (apply Qmult_le_0_compat; lra).
    lra.
  - apply Qmult_le_0_compat; exact H.
Qed.






Lemma inject_Z_of_nat_S (n : nat) :
  inject_Z (Z.of_nat (S n)) == inject_Z (Z.of_nat n) + 1.
Proof. rewrite Nat2Z.inj_succ. unfold Z.succ. rewrite inject_Z_plus. reflexivity. Qed.

(** The first loop of [normalizeAngle] ends within [fuel] iterations when the
    angle is at most [PI + 2 * PI * fuel]. *)
Lemma normalizeDown_spec (PI : Q) (HPI : 0 < PI) (fuel : nat) :
  forall angle,
    angle <= PI + 2 * PI * inject_Z (Z.of_nat fuel) ->
    exists (a : Q) (k : nat),
      MathUtils.normalizeDown fuel PI angle = Some a
      /\ a <= PI
      /\ a == angle - inject_Z (Z.of_nat k) * (2 * PI)
      /\ (angle <= PI -> a = angle)
      /\ (PI < angle -> - PI < a).
Proof.
  induction fuel as [|fuel IH]; intros angle Hb.
  - assert (Hle : angle <= PI).
    { change (inject_Z (Z.of_nat 0)) with 0 in Hb. lra. }
    exists angle, 0%nat. simpl.
    rewrite (proj2 (Qltb_false PI angle) Hle).
    split; [reflexivity|]. split; [exact Hle|].
    split; [change (inject_Z (Z.of_nat 0)) with 0; ring|].
    split; [reflexivity | lra].
  - destruct (Qlt_le_dec PI angle) as [Hgt|Hle].
    + rewrite inject_Z_of_nat_S in Hb.
      destruct (IH (angle - 2 * PI)) as (a & k & E & Ha & Hk & Hfix & Hlow);
        [lra|].
      exists a, (S k). simpl. rewrite (proj2 (Qltb_true PI angle) Hgt).
      split; [exact E|]. split; [exact Ha|]. split; [|split].
      * rewrite inject_Z_of_nat_S. rewrite Hk. ring.
      * lra.
      * intros _. destruct (Qlt_le_dec PI (angle - 2 * PI)) as [H|H].
        -- apply Hlow, H.
        -- rewrite (Hfix H). lra.
    + exists angle, 0%nat. simpl.
      rewrite (proj2 (Qltb_false PI angle) Hle).
      split; [reflexivity|]. split; [exact Hle|].
      split; [change (inject_Z (Z.of_nat 0)) with 0; ring|].
      split; [reflexivity | lra].
Qed.

(** The second loop, symmetrically. *)
Lemma normalizeUp_spec (PI : Q) (HPI : 0 < PI) (fuel : nat) :
  forall angle,
    - PI - 2 * PI * inject_Z (Z.of_nat fuel) <= angle ->
    exists (a : Q) (k : nat),
      MathUtils.normalizeUp fuel PI angle = Some a
      /\ - PI <= a
      /\ a == angle + inject_Z (Z.of_nat k) * (2 * PI)
      /\ (- PI <= angle -> a = angle)
      /\ (angle < - PI -> a < PI).
Proof.
  induction fuel as [|fuel IH]; intros angle Hb.
  - assert (Hle : - PI <= angle).
    { change (inject_Z (Z.of_nat 0)) with 0 in Hb. lra. }
    exists angle, 0%nat. simpl.
    rewrite (proj2 (Qltb_false angle (- PI)) Hle).
    split; [reflexivity|]. split; [exact Hle|].
    split; [change (inject_Z (Z.of_nat 0)) with 0; ring|].
    split; [reflexivity | lra].
  - destruct (Qlt_le_dec angle (- PI)) as [Hlt|Hle].
    + rewrite inject_Z_of_nat_S in Hb.
      destruct (IH (angle + 2 * PI)) as (a & k & E & Ha & Hk & Hfix & Hhigh);
        [lra|].
      exists a, (S k). simpl. rewrite (proj2 (Qltb_true angle (- PI)) Hlt).
      split; [exact E|]. split; [exact Ha|]. split; [|split].
      * rewrite inject_Z_of_nat_S. rewrite Hk. ring.
      * lra.
      * intros _. destruct (Qlt_le_dec (angle + 2 * PI) (- PI)) as [H|H].
        -- apply Hhigh, H.
        -- rewrite (Hfix H). lra.
    + exists angle, 0%nat. simpl.
      rewrite (proj2 (Qltb_false angle (- PI)) Hle).
      split; [reflexivity|]. split; [exact Hle|].
      split; [change (inject_Z (Z.of_nat 0)) with 0; ring|].
      split; [reflexivity | lra].
Qed.

Lemma normalizeDown_more_fuel (PI : Q) (fuel more : nat) :
  forall angle a,
    MathUtils.normalizeDown fuel PI angle = Some a ->
    MathUtils.normalizeDown (fuel + more) PI angle = Some a.
Proof.
  induction fuel as [|fuel IH]; intros angle a; simpl.
  - destruct (Qltb PI angle) eqn:E; [discriminate|]. intros H.
    destruct more; simpl; rewrite E; exact H.
  - destruct (Qltb PI angle); [apply IH | trivial].
Qed.

Lemma normalizeUp_more_fuel (PI : Q) (fuel more : nat) :
  forall angle a,
    MathUtils.normalizeUp fuel PI angle = Some a ->
    MathUtils.normalizeUp (fuel + more) PI angle = Some a.
Proof.
  induction fuel as [|fuel IH]; intros angle a; simpl.
  - destruct (Qltb angle (- PI)) eqn:E; [discriminate|]. intros H.
    destruct more; simpl; rewrite E; exact H.
  - destruct (Qltb angle (- PI)); [apply IH | trivial].
Qed.

(** X6. For a positive [PI], the two loops of [normalizeAngle] end: some
    number of iterations suffices, and with that many or more the result is
    an angle of [[-PI, PI]] that differs from the argument by a whole number
    of turns; an angle already in that range is returned as it is. *)
Theorem normalizeAngle_terminates_in_range (PI angle : Q) :
  0 < PI ->
  exists (fuel : nat) (a : Q) (k : Z),
    (forall more, MathUtils.normalizeAngle (fuel + more) PI angle = Some a)
    /\ - PI <= a <= PI
    /\ a == angle + inject_Z k * (2 * PI)
    /\ (- PI <= angle <= PI -> a = angle).
Proof.
  intros HPI.
  set (n := Z.to_nat (Qceiling (Qabs angle / (2 * PI)))).
  assert (Hn : Qabs angle <= 2 * PI * inject_Z (Z.of_nat n)).
  { assert (H1 : Qabs angle / (2 * PI) <= inject_Z (Z.of_nat n)).
    { eapply Qle_trans; [apply Qle_ceiling|].
      rewrite <- Zle_Qle. unfold n. lia. }
    assert (E : Qabs angle / (2 * PI) * (2 * PI) == Qabs angle)
      by (field; lra).
    assert (H2 : Qabs angle / (2 * PI) * (2 * PI)
                 <= inject_Z (Z.of_nat n) * (2 * PI)).
    { apply Qmult_le_compat_r; [exact H1 | lra]. }
    lra. }
  pose proof (Qle_Qabs angle) as Habs1.
  pose proof (Qle_Qabs (- angle)) as Habs2. rewrite Qabs_opp in Habs2.
  destruct (normalizeDown_spec PI HPI n angle)
    as (a1 & k1 & E1 & Ha1 & Hk1 & Hfix1 & Hlow1); [lra|].
  destruct (normalizeUp_spec PI HPI n a1)
    as (a2 & k2 & E2 & Ha2 & Hk2 & Hfix2 & Hhigh2).
  { destruct (Qlt_le_dec PI angle) as [H|H].
    - pose proof (Hlow1 H).
      assert (0 <= 2 * PI * inject_Z (Z.of_nat n)).
      { pose proof (Qabs_nonneg angle). lra. }
      lra.
    - rewrite (Hfix1 H). lra. }
  exists n, a2, (Z.of_nat k2 - Z.of_nat k1)%Z.
  split; [|split; [|split]].
  - intros more. unfold MathUtils.normalizeAngle.
    rewrite (normalizeDown_more_fuel PI n more angle a1 E1).
    apply normalizeUp_more_fuel, E2.
  - split; [exact Ha2|].
    destruct (Qlt_le_dec a1 (- PI)) as [H|H].
    + apply Qlt_le_weak, Hhigh2, H.
    + rewrite (Hfix2 H). exact Ha1.
  - unfold Z.sub. rewrite inject_Z_plus, inject_Z_opp. rewrite Hk2, Hk1. ring.
  - intros [H1 H2]. rewrite Hfix2; rewrite (Hfix1 H2); [reflexivity | exact H1].
Qed.

Lemma normalizeAngle_terminates_in_range_witness :
  exists (fuel : nat) (a : Q) (k : Z),
    (forall more, MathUtils.normalizeAngle (fuel + more) 3 10 = Some a)
    /\ - (3) <= a <= 3
    /\ a == 10 + inject_Z k * (2 * 3)
    /\ (- (3) <= 10 <= 3 -> a = 10).
Proof.
  apply (normalizeAngle_terminates_in_range 3 10). vm_compute. reflexivity.
Defined.

(** X7. [smoothDamp] never carries the value past its target: coming from
    below the result is at most the target, coming from above at least the
    target; and a value at rest on the target stays there with velocity 0. *)
Theorem smoothDamp_no_overshoot
    (current target velocity smoothTime maxSpeed deltaTime : Q) :
  0 < deltaTime -> 0 <= maxSpeed ->
  let out :=
    MathUtils.smoothDamp current target velocity smoothTime maxSpeed deltaTime in
  (current < target -> fst out <= target)
  /\ (target <= current -> target <= fst out)
  /\ (current == target -> velocity == 0 -> fst out == target /\ snd out == 0).
Proof.
  intros Hdt Hmax out. subst out. unfold MathUtils.smoothDamp.
  set (st := Qmax 0.0001 smoothTime).
  set (cc := MathUtils.clamp (current - target) (- (maxSpeed * st))
               (maxSpeed * st)).
  set (output := current - cc
                 + (cc + (velocity + 2 / st * cc) * deltaTime)
                   * (1 / (1 + 2 / st * deltaTime
                           + 0.48 * (2 / st * deltaTime) * (2 / st * deltaTime)
                           + 0.235 * (2 / st * deltaTime) * (2 / st * deltaTime)
                             * (2 / st * deltaTime)))).
  assert (Hst : 0 < st).
  { unfold st. eapply Qlt_le_trans; [|apply Q.le_max_l]. reflexivity. }
  split; [|split].
  - intros Hlt. rewrite (proj2 (Qltb_true 0 (target - current))) by lra.
    destruct (Qltb target output) eqn:E; simpl; [lra|].
    apply Qltb_false in E. exact E.
  - intros Hle. rewrite (proj2 (Qltb_false 0 (target - current))) by lra.
    destruct (Qltb target output) eqn:E; simpl; [|lra].
    apply Qltb_true in E. lra.
  - intros Hcur Hv.
    assert (Hcc : cc == 0).
    { unfold cc.
      assert (Hm : 0 <= maxSpeed * st) by (apply Qmult_le_0_compat; lra).
      assert (Hb : - (maxSpeed * st) <= maxSpeed * st) by lra.
      destruct (clamp_cases (current - target) _ _ Hb)
        as [[H E]|[[H E]|[H E]]]; rewrite E; lra. }
    assert (Hout : output == target).
    { unfold output. rewrite Hcc, Hv, Hcur.
      generalize (1 / (1 + 2 / st * deltaTime
                       + 0.48 * (2 / st * deltaTime) * (2 / st * deltaTime)
                       + 0.235 * (2 / st * deltaTime) * (2 / st * deltaTime)
                         * (2 / st * deltaTime))).
      generalize (2 / st). intros w e. ring. }
    rewrite (proj2 (Qltb_false 0 (target - current))) by lra.
    rewrite (proj2 (Qltb_false target output)) by lra.
    simpl. split; [reflexivity | field; lra].
Qed.

Lemma smoothDamp_no_overshoot_witness :
  let out := MathUtils.smoothDamp 0 10 0 1 100 1 in
  (0 < 10 -> fst out <= 10)
  /\ (10 <= 0 -> 10 <= fst out)
  /\ (0 == 10 -> 0 == 0 -> fst out == 10 /\ snd out == 0).
Proof.
  apply (smoothDamp_no_overshoot 0 10 0 1 100 1); vm_compute;
    [reflexivity | discriminate].
Defined.

(** ** CarController.ts *)

Section CarControllerFurther.
Import Three CarController.

Variables sin cos : Q -> Q.
Variable setFromObject : CarMesh -> Box3.

Local Abbreviation update := (CarController.update sin cos setFromObject).
Local Abbreviation handleInput := (CarController.handleInput).
Local Abbreviation call := (CarController.call sin cos setFromObject).
Local Abbreviation run := (CarController.run sin cos setFromObject).

(** The steps of an [update] after [handleInput] keep the speed, the heading,
    the parameters and the keys. *)
Lemma updatePhysics_kept (dt : Q) (c : CarController.t) :
  let c' := updatePhysics sin cos dt c in
  speed c' = speed c /\ rotation c' = rotation c
  /\ maxSpeed c' = maxSpeed c /\ acceleration c' = acceleration c
  /\ deceleration c' = deceleration c /\ turnSpeed c' = turnSpeed c
  /\ keys c' = keys c /\ settings c' = settings c
  /\ (car c = None <-> car c' = None).
Proof.
  unfold updatePhysics. destruct (car c) eqn:E; cbn zeta; cbn [speed rotation
    maxSpeed acceleration deceleration turnSpeed keys settings car];
    rewrite ?E; split_and!; try reflexivity; split; congruence.
Qed.

Lemma updateVisuals_kept (dt : Q) (c : CarController.t) :
  let c' := updateVisuals dt c in
  speed c' = speed c /\ rotation c' = rotation c
  /\ maxSpeed c' = maxSpeed c /\ acceleration c' = acceleration c
  /\ deceleration c' = deceleration c /\ turnSpeed c' = turnSpeed c
  /\ keys c' = keys c /\ settings c' = settings c.
Proof.
  unfold updateVisuals. destruct (car c); cbn zeta; cbn [speed rotation
    maxSpeed acceleration deceleration turnSpeed keys settings];
    split_and!; reflexivity.
Qed.

Lemma updateBoundingBox_kept (c : CarController.t) :
  let c' := updateBoundingBox setFromObject c in
  speed c' = speed c /\ rotation c' = rotation c
  /\ maxSpeed c' = maxSpeed c /\ acceleration c' = acceleration c
  /\ deceleration c' = deceleration c /\ turnSpeed c' = turnSpeed c
  /\ keys c' = keys c /\ settings c' = settings c.
Proof.
  unfold updateBoundingBox. destruct (car c); cbn zeta; cbn [speed rotation
    maxSpeed acceleration deceleration turnSpeed keys settings];
    split_and!; reflexivity.
Qed.

(** What an [update] leaves of the controller: the speed and the heading are
    those [handleInput] computes, the parameters and the keys are kept. *)
Lemma update_fields (dt : Q) (c : CarController.t) :
  car c <> None ->
  speed (update dt c) = speed (handleInput dt c)
  /\ rotation (update dt c) = rotation (handleInput dt c)
  /\ maxSpeed (update dt c) = maxSpeed c
  /\ acceleration (update dt c) = acceleration c
  /\ deceleration (update dt c) = deceleration c
  /\ turnSpeed (update dt c) = turnSpeed c
  /\ keys (update dt c) = keys c
  /\ settings (update dt c) = settings c.
Proof.
  intros Hcar. unfold CarController.update.
  destruct (car c) as [m|] eqn:E; [|congruence].
  set (c1 := handleInput dt c).
  destruct (updateBoundingBox_kept (updateVisuals dt (updatePhysics sin cos dt c1)))
    as (-> & -> & -> & -> & -> & -> & -> & ->).
  destruct (updateVisuals_kept dt (updatePhysics sin cos dt c1))
    as (-> & -> & -> & -> & -> & -> & -> & ->).
  destruct (updatePhysics_kept dt c1)
    as (-> & -> & -> & -> & -> & -> & -> & -> & _).
  split_and!; reflexivity.
Qed.

Lemma handleInput_speed_limits (dt : Q) (c : CarController.t) :
  0 <= dt -> speed_limits c -> speed_limits (handleInput dt c).
Proof.
  intros Hdt (Hm & Ha & Hd & Hlo & Hhi).
  unfold speed_limits, CarController.handleInput, set_speed_rotation.
  cbn [speed maxSpeed acceleration deceleration].
  split; [exact Hm|]. split; [exact Ha|]. split; [exact Hd|].
  pose proof (Qmult_le_0_compat _ _ Ha Hdt) as Hadt.
  pose proof (Qmult_le_0_compat _ _ Hd Hdt) as Hddt.
  destruct (key c "ArrowUp" || key c "KeyW").
  { destruct (Qmin_case_le (speed c + acceleration c * dt) (maxSpeed c))
      as [[H E]|[H E]]; rewrite E; lra. }
  destruct (key c "ArrowDown" || key c "KeyS").
  { destruct (Qmax_case_le (speed c - deceleration c * dt) (- maxSpeed c * 0.5))
      as [[H E]|[H E]]; rewrite E; lra. }
  destruct (Qltb 0 (speed c)) eqn:E1.
  { apply Qltb_true in E1.
    destruct (Qmax_case_le (speed c - deceleration c * 0.5 * dt) 0)
      as [[H E]|[H E]]; rewrite E; lra. }
  destruct (Qltb (speed c) 0) eqn:E2.
  { apply Qltb_true in E2.
    destruct (Qmin_case_le (speed c + deceleration c * 0.5 * dt) 0)
      as [[H E]|[H E]]; rewrite E; lra. }
  lra.
Qed.

Lemma call_speed_limits (k : Call) (c : CarController.t) :
  match k with CUpdate dt => 0 <= dt | _ => True end ->
  speed_limits c ->
  speed_limits (call k c) /\ maxSpeed (call k c) = maxSpeed c.
Proof.
  intros Hk Hc. destruct k as [dt|code|code| | |st]; cbn [CarController.call].
  - destruct (car c) as [m|] eqn:E.
    + assert (Hcar : car c <> None) by (rewrite E; discriminate).
      destruct (update_fields dt c Hcar) as (Es & _ & Em & Ea & Ed & _).
      pose proof (handleInput_speed_limits dt c Hk Hc) as Hi.
      unfold speed_limits in *. rewrite Es, Em, Ea, Ed. split; [exact Hi|].
      reflexivity.
    + unfold CarController.update. rewrite E. split; [exact Hc | reflexivity].
  - split; [exact Hc | reflexivity].
  - split; [exact Hc | reflexivity].
  - split; [|reflexivity]. destruct Hc as (Hm & Ha & Hd & Hlo & Hhi).
    unfold speed_limits, handleCollision.
    cbn [speed maxSpeed acceleration deceleration].
    split_and!; try assumption; lra.
  - split; [|reflexivity]. destruct Hc as (Hm & Ha & Hd & Hlo & Hhi).
    unfold speed_limits, reset.
    cbn [speed maxSpeed acceleration deceleration].
    split_and!; try assumption; lra.
  - split; [exact Hc | reflexivity].
Qed.

End CarControllerFurther.

(** X8. In a session of calls whose frames have no negative duration, the
    speed stays between half the top speed in reverse and the top speed
    forwards, whatever keys are held and whatever collisions and resets
    occur; the top speed itself never changes, and the normalized speed is
    within [[0, 1]]. *)
Theorem speed_stays_within_limits (sin cos : Q -> Q)
    (setFromObject : CarController.CarMesh -> Three.Box3)
    (ks : list CarController.Call) (c : CarController.t) :
  speed_limits c -> forward_in_time ks ->
  let c' := CarController.run sin cos setFromObject ks c in
  speed_limits c'
  /\ CarController.maxSpeed c' = CarController.maxSpeed c
  /\ (0 < CarController.maxSpeed c ->
      0 <= CarController.getNormalizedSpeed c' <= 1).
Proof.
  intros Hc Hks c'. subst c'.
  assert (H : speed_limits (CarController.run sin cos setFromObject ks c)
              /\ CarController.maxSpeed
                   (CarController.run sin cos setFromObject ks c)
                 = CarController.maxSpeed c).
  { revert c Hc. induction Hks as [|k ks Hk Hks IH]; intros c Hc.
    - split; [exact Hc | reflexivity].
    - simpl.
      destruct (call_speed_limits sin cos setFromObject k c Hk Hc) as [H1 H2].
      destruct (IH _ H1) as [H3 H4]. split; [exact H3|]. congruence. }
  destruct H as [H1 H2]. split; [exact H1|]. split; [exact H2|].
  intros Hpos. unfold CarController.getNormalizedSpeed. rewrite H2.
  destruct H1 as (_ & _ & _ & Hlo & Hhi). rewrite H2 in Hlo, Hhi.
  split.
  - apply Qle_shift_div_l; [exact Hpos|]. pose proof (Qabs_nonneg
      (CarController.speed (CarController.run sin cos setFromObject ks c))).
    lra.
  - apply Qle_shift_div_r; [exact Hpos|]. apply Qabs_case; intros; lra.
Qed.

Lemma speed_stays_within_limits_witness :
  let c' := CarController.run sinAtZero cosAtZero carBox drive parkedCar in
  speed_limits c'
  /\ CarController.maxSpeed c' = CarController.maxSpeed parkedCar
  /\ (0 < CarController.maxSpeed parkedCar ->
      0 <= CarController.getNormalizedSpeed c' <= 1).
Proof.
  apply (speed_stays_within_limits sinAtZero cosAtZero carBox drive parkedCar).
  - unfold speed_limits. vm_compute. split_and!; discriminate.
  - unfold forward_in_time, drive.
    repeat (apply Forall_cons; split; [first [exact I | vm_compute; discriminate]|]).
    apply Forall_nil. exact I.
Defined.

(** X9. With neither an accelerating nor a braking key held, a frame of
    non-negative duration brings the speed towards zero without crossing it;
    a frame long enough for the decay to use up the whole speed stops the car
    exactly. *)
Theorem coasting_slows_without_reversing (sin cos : Q -> Q)
    (setFromObject : CarController.CarMesh -> Three.Box3)
    (deltaTime : Q) (c : CarController.t) :
  CarController.car c <> None -> coasting c ->
  0 <= deltaTime -> 0 <= CarController.deceleration c ->
  let c' := CarController.update sin cos setFromObject deltaTime c in
  (0 <= CarController.speed c ->
   0 <= CarController.speed c' <= CarController.speed c)
  /\ (CarController.speed c <= 0 ->
      CarController.speed c <= CarController.speed c' <= 0)
  /\ (Qabs (CarController.speed c)
      <= CarController.deceleration c * 0.5 * deltaTime ->
      CarController.speed c' == 0).
Proof.
  intros Hcar [Hacc Hbr] Hdt Hd c'. subst c'.
  destruct (update_fields sin cos setFromObject deltaTime c Hcar) as (-> & _).
  unfold CarController.isAccelerating in Hacc.
  unfold CarController.isBraking in Hbr.
  unfold CarController.handleInput, CarController.set_speed_rotation.
  cbn [CarController.speed]. rewrite Hacc, Hbr.
  assert (Hddt : 0 <= CarController.deceleration c * 0.5 * deltaTime).
  { apply Qmult_le_0_compat; [|exact Hdt].
    apply Qmult_le_0_compat; [exact Hd | discriminate]. }
  set (s := CarController.speed c) in *.
  set (f := CarController.deceleration c * 0.5 * deltaTime) in *.
  destruct (Qltb 0 s) eqn:E1.
  { apply Qltb_true in E1.
    destruct (Qmax_case_le (s - f) 0) as [[H E]|[H E]]; rewrite E.
    - split_and!; intros; try lra.
    - split_and!; intros H'; try lra.
      revert H'. apply Qabs_case; intros; lra. }
  apply Qltb_false in E1.
  destruct (Qltb s 0) eqn:E2.
  { apply Qltb_true in E2.
    destruct (Qmin_case_le (s + f) 0) as [[H E]|[H E]]; rewrite E.
    - split_and!; intros H'; try lra.
      revert H'. apply Qabs_case; intros; lra.
    - split_and!; intros; try lra. }
  apply Qltb_false in E2. split_and!; intros; lra.
Qed.

Lemma coasting_slows_without_reversing_witness :
  let c' := CarController.update sinAtZero cosAtZero carBox 1
              (CarController.handleKeyUp "ArrowUp" carRun) in
  (0 <= CarController.speed (CarController.handleKeyUp "ArrowUp" carRun) ->
   0 <= CarController.speed c'
   <= CarController.speed (CarController.handleKeyUp "ArrowUp" carRun))
  /\ (CarController.speed (CarController.handleKeyUp "ArrowUp" carRun) <= 0 ->
      CarController.speed (CarController.handleKeyUp "ArrowUp" carRun)
      <= CarController.speed c' <= 0)
  /\ (Qabs (CarController.speed (CarController.handleKeyUp "ArrowUp" carRun))
      <= CarController.deceleration (CarController.handleKeyUp "ArrowUp" carRun)
         * 0.5 * 1 ->
      CarController.speed c' == 0).
Proof.
  apply (coasting_slows_without_reversing sinAtZero cosAtZero carBox 1
           (CarController.handleKeyUp "ArrowUp" carRun)).
  - vm_compute. discriminate.
  - split; vm_compute; reflexivity.
  - vm_compute. discriminate.
  - vm_compute. discriminate.
Defined.

(** X10. An [update] turns the car only while a steering key is in effect and
    the car moves faster than 0.1: with no steering input (no key, or left
    and right together) or at such a low speed the heading is unchanged, so a
    car at rest with no pedal pressed cannot be turned. *)
Theorem heading_needs_speed_and_steering (sin cos : Q -> Q)
    (setFromObject : CarController.CarMesh -> Three.Box3)
    (deltaTime : Q) (c : CarController.t) :
  CarController.car c <> None ->
  let c' := CarController.update sin cos setFromObject deltaTime c in
  (CarController.getSteeringInput c == 0 ->
   CarController.rotation c' = CarController.rotation c)
  /\ (Qabs (CarController.speed c') <= 0.1 ->
      CarController.rotation c' = CarController.rotation c)
  /\ (CarController.speed c == 0 -> coasting c ->
      CarController.rotation c' = CarController.rotation c).
Proof.
  intros Hcar c'. subst c'.
  destruct (update_fields sin cos setFromObject deltaTime c Hcar)
    as (-> & -> & _).
  assert (Hslow :
    Qabs (CarController.speed (CarController.handleInput deltaTime c)) <= 0.1 ->
    CarController.rotation (CarController.handleInput deltaTime c)
    = CarController.rotation c).
  { unfold CarController.handleInput, CarController.set_speed_rotation.
    cbn [CarController.speed CarController.rotation]. intros H.
    match goal with
    | |- (if Qltb 0.1 ?a && _ then _ else _) = _ =>
        rewrite (proj2 (Qltb_false 0.1 a) H)
    end.
    reflexivity. }
  split; [|split; [exact Hslow|]].
  - unfold CarController.getSteeringInput. intros Hsteer.
    unfold CarController.handleInput, CarController.set_speed_rotation.
    cbn [CarController.speed CarController.rotation].
    match goal with
    | |- (if _ && Qltb 0.1 ?a then _ else _) = _ =>
        assert (E : Qltb 0.1 a = false)
    end.
    { apply Qltb_false.
      set (i := (if CarController.key c "ArrowLeft" || CarController.key c "KeyA"
                 then -1 else 0)
                + (if CarController.key c "ArrowRight" || CarController.key c "KeyD"
                   then 1 else 0)) in *.
      assert (E0 : i * CarController.sensitivity (CarController.settings c) == 0)
        by (rewrite Hsteer; ring).
      destruct (CarController.invertSteering (CarController.settings c));
        [rewrite E0 | rewrite E0]; vm_compute; discriminate. }
    rewrite E, andb_false_r. reflexivity.
  - intros Hs [Hacc Hbr]. apply Hslow.
    unfold CarController.isAccelerating in Hacc.
    unfold CarController.isBraking in Hbr.
    unfold CarController.handleInput, CarController.set_speed_rotation.
    cbn [CarController.speed]. rewrite Hacc, Hbr.
    rewrite (proj2 (Qltb_false 0 (CarController.speed c))) by lra.
    rewrite (proj2 (Qltb_false (CarController.speed c) 0)) by lra.
    rewrite Hs. vm_compute. discriminate.
Qed.

Lemma heading_needs_speed_and_steering_witness :
  let c' := CarController.update sinAtZero cosAtZero carBox 1 carRun in
  (CarController.getSteeringInput carRun == 0 ->
   CarController.rotation c' = CarController.rotation carRun)
  /\ (Qabs (CarController.speed c') <= 0.1 ->
      CarController.rotation c' = CarController.rotation carRun)
  /\ (CarController.speed carRun == 0 -> coasting carRun ->
      CarController.rotation c' = CarController.rotation carRun).
Proof.
  apply (heading_needs_speed_and_steering sinAtZero cosAtZero carBox 1 carRun).
  vm_compute. discriminate.
Defined.

(** X11. Inverting the steering in the settings mirrors the turn: from the
    same state and over the same frame, the heading changes by the opposite
    amount, and the speed is the same. *)
Theorem inverted_steering_mirrors_turn (sin cos : Q -> Q)
    (setFromObject : CarController.CarMesh -> Three.Box3)
    (deltaTime : Q) (c : CarController.t) :
  CarController.car c <> None ->
  let inverted :=
    CarController.mkControlSettings
      (CarController.sensitivity (CarController.settings c))
      (negb (CarController.invertSteering (CarController.settings c))) in
  let c1 := CarController.update sin cos setFromObject deltaTime c in
  let c2 :=
    CarController.update sin cos setFromObject deltaTime
      (CarController.updateSettings inverted c) in
  CarController.speed c2 = CarController.speed c1
  /\ CarController.rotation c2 - CarController.rotation c
     == - (CarController.rotation c1 - CarController.rotation c).
Proof.
  intros Hcar inverted c1 c2. subst inverted c1 c2.
  destruct (update_fields sin cos setFromObject deltaTime c Hcar)
    as (-> & -> & _).
  assert (Hcar' : CarController.car
                    (CarController.updateSettings
                       (CarController.mkControlSettings
                          (CarController.sensitivity (CarController.settings c))
                          (negb (CarController.invertSteering
                                   (CarController.settings c)))) c) <> None)
    by exact Hcar.
  destruct (update_fields sin cos setFromObject deltaTime _ Hcar')
    as (-> & -> & _).
  split; [reflexivity|].
  unfold CarController.handleInput, CarController.updateSettings,
    CarController.key. simpl.
  set (i := (if default false (CarController.keys c !! "ArrowLeft")
                || default false (CarController.keys c !! "KeyA")
             then -1 else 0)
            + (if default false (CarController.keys c !! "ArrowRight")
                  || default false (CarController.keys c !! "KeyD")
               then 1 else 0)).
  set (s1 := if default false (CarController.keys c !! "ArrowUp")
                || default false (CarController.keys c !! "KeyW")
             then _ else _).
  set (a := i * CarController.sensitivity (CarController.settings c)).
  assert (Eabs : Qltb 0.1 (Qabs (- a)) = Qltb 0.1 (Qabs a)).
  { destruct (Qltb 0.1 (Qabs a)) eqn:E.
    - apply Qltb_true in E. apply Qltb_true. rewrite Qabs_opp. exact E.
    - apply Qltb_false in E. apply Qltb_false. rewrite Qabs_opp. exact E. }
  destruct (CarController.invertSteering (CarController.settings c));
    cbn [negb]; rewrite Eabs; destruct (Qltb 0.1 (Qabs s1) && Qltb 0.1 (Qabs a)); ring.
Qed.

Lemma inverted_steering_mirrors_turn_witness :
  let c := CarController.handleKeyDown "ArrowRight" carRun in
  let inverted :=
    CarController.mkControlSettings
      (CarController.sensitivity (CarController.settings c))
      (negb (CarController.invertSteering (CarController.settings c))) in
  let c1 := CarController.update sinAtZero cosAtZero carBox 1 c in
  let c2 :=
    CarController.update sinAtZero cosAtZero carBox 1
      (CarController.updateSettings inverted c) in
  CarController.speed c2 = CarController.speed c1
  /\ CarController.rotation c2 - CarController.rotation c
     == - (CarController.rotation c1 - CarController.rotation c).
Proof.
  apply (inverted_steering_mirrors_turn sinAtZero cosAtZero carBox 1
           (CarController.handleKeyDown "ArrowRight" carRun)).
  vm_compute. discriminate.
Defined.

Lemma call_key (sin cos : Q -> Q)
    (setFromObject : CarController.CarMesh -> Three.Box3)
    (k : CarController.Call) (c : CarController.t) (code : string) :
  CarController.key (CarController.call sin cos setFromObject k c) code
  = heldAfter code [k] (CarController.key c code).
Proof.
  unfold CarController.key. cbn [heldAfter].
  destruct k as [dt|code'|code'| | |st]; cbn [CarController.call].
  - destruct (CarController.car c) as [m|] eqn:E.
    + assert (Hcar : CarController.car c <> None) by (rewrite E; discriminate).
      destruct (update_fields sin cos setFromObject dt c Hcar)
        as (_ & _ & _ & _ & _ & _ & -> & _).
      reflexivity.
    + unfold CarController.update. rewrite E. reflexivity.
  - unfold CarController.handleKeyDown, CarController.set_key.
    cbn [CarController.keys].
    destruct (String.eqb code' code) eqn:E.
    + apply String.eqb_eq in E. subst code'. rewrite lookup_insert_eq.
      reflexivity.
    + apply String.eqb_neq in E. rewrite lookup_insert_ne by exact E.
      reflexivity.
  - unfold CarController.handleKeyUp, CarController.set_key.
    cbn [CarController.keys].
    destruct (String.eqb code' code) eqn:E.
    + apply String.eqb_eq in E. subst code'. rewrite lookup_insert_eq.
      reflexivity.
    + apply String.eqb_neq in E. rewrite lookup_insert_ne by exact E.
      reflexivity.
  - reflexivity.
  - cbn [CarController.reset CarController.keys]. rewrite lookup_empty.
    reflexivity.
  - reflexivity.
Qed.

(** X12. Through a whole session, a key counts as held exactly when the last
    event that concerns it was its key-down: a key-up of that key or a reset
    releases it, and nothing else (updates, collisions, new settings, the
    events of other keys) changes it. So a key held across a reset has no
    effect until it is pressed again. *)
Theorem key_held_since_last_key_down (sin cos : Q -> Q)
    (setFromObject : CarController.CarMesh -> Three.Box3)
    (ks : list CarController.Call) (c : CarController.t) (code : string) :
  let run := CarController.run sin cos setFromObject in
  CarController.key (run ks c) code
  = heldAfter code ks (CarController.key c code)
  /\ CarController.key (run (ks ++ [CarController.CKeyDown code]) c) code = true
  /\ CarController.key (run (ks ++ [CarController.CKeyUp code]) c) code = false
  /\ CarController.key (run (ks ++ [CarController.CReset]) c) code = false
  /\ (forall k,
        match k with
        | CarController.CKeyDown code' | CarController.CKeyUp code' =>
            code' <> code
        | CarController.CReset => False
        | _ => True
        end ->
        CarController.key (run (ks ++ [k]) c) code
        = CarController.key (run ks c) code).
Proof.
  intros run. subst run.
  assert (Hrun : forall ks c,
            CarController.key (CarController.run sin cos setFromObject ks c) code
            = heldAfter code ks (CarController.key c code)).
  { clear ks c. induction ks as [|k ks IH]; intros c; [reflexivity|].
    cbn [CarController.run fold_left heldAfter].
    change (fold_left (fun st k0 => CarController.call sin cos setFromObject k0 st) ks)
      with (CarController.run sin cos setFromObject ks).
    rewrite IH, call_key. reflexivity. }
  assert (Hsnoc : forall k,
            CarController.key
              (CarController.run sin cos setFromObject (ks ++ [k]) c) code
            = heldAfter code [k]
                (CarController.key
                   (CarController.run sin cos setFromObject ks c) code)).
  { intros k. unfold CarController.run. rewrite fold_left_app.
    cbn [fold_left]. apply call_key. }
  split; [apply Hrun|]. split_and!.
  - rewrite Hsnoc. cbn [heldAfter]. rewrite String.eqb_refl. reflexivity.
  - rewrite Hsnoc. cbn [heldAfter]. rewrite String.eqb_refl. reflexivity.
  - rewrite Hsnoc. reflexivity.
  - intros k Hk. rewrite Hsnoc. cbn [heldAfter].
    destruct k as [dt|code'|code'| | |st]; try reflexivity; try contradiction.
    + apply String.eqb_neq in Hk. rewrite Hk. reflexivity.
    + apply String.eqb_neq in Hk. rewrite Hk. reflexivity.
Qed.

Lemma key_held_since_last_key_down_witness :
  let run := CarController.run sinAtZero cosAtZero carBox in
  CarController.key (run drive parkedCar) "KeyW"
  = heldAfter "KeyW" drive (CarController.key parkedCar "KeyW")
  /\ CarController.key
       (run (drive ++ [CarController.CKeyDown "KeyW"]) parkedCar) "KeyW" = true
  /\ CarController.key
       (run (drive ++ [CarController.CKeyUp "KeyW"]) parkedCar) "KeyW" = false
  /\ CarController.key (run (drive ++ [CarController.CReset]) parkedCar) "KeyW"
     = false
  /\ (forall k,
        match k with
        | CarController.CKeyDown code' | CarController.CKeyUp code' =>
            code' <> "KeyW"
        | CarController.CReset => False
        | _ => True
        end ->
        CarController.key (run (drive ++ [k]) parkedCar) "KeyW"
        = CarController.key (run drive parkedCar) "KeyW").
Proof.
  exact (key_held_since_last_key_down sinAtZero cosAtZero carBox drive
           parkedCar "KeyW").
Defined.

(** In the drive above, the throttle key is released before the end and the
    brake key is still held. *)
Example drive_keys :
  heldAfter "KeyW" drive false = false
  /\ heldAfter "ArrowDown" drive false = true.
Proof. split; reflexivity. Qed.

Lemma updateVisuals_velocity (dt : Q) (c : CarController.t) :
  CarController.velocity (CarController.updateVisuals dt c)
  = CarController.velocity c.
Proof. unfold CarController.updateVisuals. destruct (CarController.car c); reflexivity. Qed.

Lemma updateBoundingBox_velocity
    (setFromObject : CarController.CarMesh -> Three.Box3) (c : CarController.t) :
  CarController.velocity (CarController.updateBoundingBox setFromObject c)
  = CarController.velocity c.
Proof.
  unfold CarController.updateBoundingBox. destruct (CarController.car c); reflexivity.
Qed.

(** Where [updatePhysics] puts the car, and the velocity it records. *)
Lemma updatePhysics_pose (sin cos : Q -> Q) (dt : Q) (c : CarController.t)
    (m : CarController.CarMesh) :
  CarController.car c = Some m ->
  let vel :=
    Three.multiplyScalar
      (CarController.direction sin cos (CarController.rotation c))
      (CarController.speed c) in
  let pos1 := Three.add (CarController.position c) (Three.multiplyScalar vel dt) in
  CarController.position (CarController.updatePhysics sin cos dt c)
  = Three.set_y (Three.set_x pos1 (MathUtils.clamp (Three.x pos1) (-8) 8)) 0.5
  /\ CarController.velocity (CarController.updatePhysics sin cos dt c) = vel.
Proof.
  intros E. unfold CarController.updatePhysics. rewrite E. split; reflexivity.
Qed.

(** X13. A reset puts the car back at its starting pose, at rest and heading
    straight on; resetting twice is resetting once; and the car then stays
    where it is, frame after frame, until a key is pressed. *)
Theorem reset_parks_the_car (sin cos : Q -> Q)
    (setFromObject : CarController.CarMesh -> Three.Box3)
    (deltaTime : Q) (c : CarController.t) :
  CarController.car c <> None ->
  let r := CarController.reset c in
  let c' := CarController.update sin cos setFromObject deltaTime r in
  CarController.reset r = r
  /\ CarController.position r = Three.mkVector3 0 0.5 0
  /\ CarController.speed c' = 0
  /\ CarController.rotation c' = 0
  /\ Three.veq (CarController.position c') (Three.mkVector3 0 0.5 0)
  /\ Three.veq (CarController.velocity c') (Three.mkVector3 0 0 0)
  /\ CarController.keys c' = CarController.keys r.
Proof.
  intros Hcar r c'. subst r c'.
  destruct (CarController.car c) as [m|] eqn:E; [|congruence].
  set (m0 := CarController.mkCarMesh (Three.mkVector3 0 0.5 0)
               (Three.mkVector3 0 0 0) (CarController.wheels m)).
  assert (Er : CarController.car (CarController.reset c) = Some m0).
  { unfold CarController.reset. cbn [CarController.car]. rewrite E. reflexivity. }
  assert (Hcar' : CarController.car (CarController.reset c) <> None)
    by (rewrite Er; discriminate).
  destruct (update_fields sin cos setFromObject deltaTime _ Hcar')
    as (Es & Eh & _ & _ & _ & _ & Ek & _).
  set (c1 := CarController.handleInput deltaTime (CarController.reset c)) in *.
  assert (Hs : CarController.speed c1 = 0).
  { unfold c1, CarController.handleInput, CarController.set_speed_rotation,
      CarController.key, CarController.reset.
    cbn [CarController.speed CarController.keys].
    rewrite !lookup_empty. reflexivity. }
  assert (Hr : CarController.rotation c1 = 0).
  { unfold c1, CarController.handleInput, CarController.set_speed_rotation,
      CarController.key, CarController.reset.
    cbn [CarController.speed CarController.rotation CarController.keys].
    rewrite !lookup_empty. reflexivity. }
  assert (Hp : CarController.position c1 = Three.mkVector3 0 0.5 0)
    by reflexivity.
  assert (Ec1 : CarController.car c1 = Some m0) by exact Er.
  destruct (updatePhysics_pose sin cos deltaTime c1 m0 Ec1) as [Epos Evel].
  cbv zeta in Epos, Evel. rewrite Hs, Hr, Hp in Epos. rewrite Hs, Hr in Evel.
  split; [|split; [reflexivity|]].
  { unfold CarController.reset. cbn [CarController.car CarController.maxSpeed
      CarController.acceleration CarController.deceleration
      CarController.turnSpeed CarController.settings CarController.boundingBox].
    rewrite E. reflexivity. }
  split; [congruence|]. split; [congruence|]. split; [|split; [|exact Ek]].
  - assert (Eu : CarController.position
                   (CarController.update sin cos setFromObject deltaTime
                      (CarController.reset c))
                 = CarController.position
                     (CarController.updatePhysics sin cos deltaTime c1)).
    { unfold CarController.update. rewrite Er.
      rewrite updateBoundingBox_position, updateVisuals_position. reflexivity. }
    rewrite Eu, Epos.
    unfold Three.veq, Three.set_x, Three.set_y, Three.add, Three.multiplyScalar,
      CarController.direction, Three.applyAxisAngleY.
    cbn [Three.x Three.y Three.z].
    split; [|split; [reflexivity | ring]].
    assert (Hb : (-8 : Q) <= 8) by discriminate.
    match goal with
    | |- MathUtils.clamp ?v _ _ == 0 =>
        assert (Ev : v == 0) by ring;
        destruct (clamp_cases v (-8) 8 Hb) as [[H E']|[[H E']|[H E']]];
        rewrite E'; lra
    end.
  - assert (Eu : CarController.velocity
                   (CarController.update sin cos setFromObject deltaTime
                      (CarController.reset c))
                 = CarController.velocity
                     (CarController.updatePhysics sin cos deltaTime c1)).
    { unfold CarController.update. rewrite Er.
      rewrite updateBoundingBox_velocity, updateVisuals_velocity. reflexivity. }
    rewrite Eu, Evel.
    unfold Three.veq, Three.multiplyScalar, CarController.direction,
      Three.applyAxisAngleY.
    cbn [Three.x Three.y Three.z]. split_and!; ring.
Qed.

Lemma reset_parks_the_car_witness :
  let r := CarController.reset carRun in
  let c' := CarController.update sinAtZero cosAtZero carBox 1 r in
  CarController.reset r = r
  /\ CarController.position r = Three.mkVector3 0 0.5 0
  /\ CarController.speed c' = 0
  /\ CarController.rotation c' = 0
  /\ Three.veq (CarController.position c') (Three.mkVector3 0 0.5 0)
  /\ Three.veq (CarController.velocity c') (Three.mkVector3 0 0 0)
  /\ CarController.keys c' = CarController.keys r.
Proof.
  apply (reset_parks_the_car sinAtZero cosAtZero carBox 1 carRun).
  vm_compute. discriminate.
Defined.

Lemma isEmpty_false (b : Three.Box3) :
  Three.isEmpty b = false <->
  Three.x (Three.bmin b) <= Three.x (Three.bmax b)
  /\ Three.y (Three.bmin b) <= Three.y (Three.bmax b)
  /\ Three.z (Three.bmin b) <= Three.z (Three.bmax b).
Proof.
  unfold Three.isEmpty. rewrite !orb_false_iff, !Qltb_false. tauto.
Qed.

Lemma intersectsBox_true (a b : Three.Box3) :
  Three.intersectsBox a b = true <->
  Three.x (Three.bmin a) <= Three.x (Three.bmax b)
  /\ Three.x (Three.bmin b) <= Three.x (Three.bmax a)
  /\ Three.y (Three.bmin a) <= Three.y (Three.bmax b)
  /\ Three.y (Three.bmin b) <= Three.y (Three.bmax a)
  /\ Three.z (Three.bmin a) <= Three.z (Three.bmax b)
  /\ Three.z (Three.bmin b) <= Three.z (Three.bmax a).
Proof.
  unfold Three.intersectsBox. rewrite !andb_true_iff, !Qleb_true. tauto.
Qed.

(** X14. The collision box that [updateBoundingBox] gives the car is the box
    of its mesh shrunk to 80 percent about the same centre: it lies within
    the mesh's box, so whatever it touches, the mesh's own box touches too. *)
Theorem collision_box_within_mesh_box
    (setFromObject : CarController.CarMesh -> Three.Box3)
    (c : CarController.t) (m : CarController.CarMesh) (other : Three.Box3) :
  CarController.car c = Some m ->
  Three.isEmpty (setFromObject m) = false ->
  let b :=
    CarController.boundingBox (CarController.updateBoundingBox setFromObject c) in
  boxWithin b (setFromObject m)
  /\ Three.veq (Three.getCenter b) (Three.getCenter (setFromObject m))
  /\ Three.veq (Three.getSize b)
       (Three.multiplyScalar (Three.getSize (setFromObject m)) 0.8)
  /\ (Three.intersectsBox b other = true ->
      Three.intersectsBox (setFromObject m) other = true).
Proof.
  intros Hcar Hne b. subst b.
  unfold CarController.updateBoundingBox. rewrite Hcar.
  cbn [CarController.boundingBox].
  set (B := setFromObject m) in *.
  assert (Ec : Three.getCenter B
               = Three.multiplyScalar (Three.add (Three.bmin B) (Three.bmax B))
                   (1 # 2)).
  { unfold Three.getCenter. rewrite Hne. reflexivity. }
  assert (Es : Three.getSize B = Three.sub (Three.bmax B) (Three.bmin B)).
  { unfold Three.getSize. rewrite Hne. reflexivity. }
  rewrite Ec, Es.
  apply isEmpty_false in Hne. destruct Hne as (Hx & Hy & Hz).
  set (b := Three.setFromCenterAndSize _ _).
  assert (Hb : boxWithin b B).
  { unfold boxWithin, b. simpl. split_and!; lra. }
  assert (Hbe : Three.isEmpty b = false).
  { apply isEmpty_false. unfold b. simpl. split_and!; lra. }
  split; [exact Hb|].
  unfold Three.getCenter, Three.getSize. rewrite Hbe.
  split; [|split].
  - unfold Three.veq, b. simpl. split_and!; ring.
  - unfold Three.veq, b. simpl. split_and!; ring.
  - rewrite !intersectsBox_true. unfold boxWithin in Hb.
    intros H. split_and!; lra.
Qed.

Lemma collision_box_within_mesh_box_witness :
  let b :=
    CarController.boundingBox (CarController.updateBoundingBox carBox parkedCar) in
  let m := CarController.mkCarMesh (Three.mkVector3 0 0.5 0)
             (Three.mkVector3 0 0 0) None in
  boxWithin b (carBox m)
  /\ Three.veq (Three.getCenter b) (Three.getCenter (carBox m))
  /\ Three.veq (Three.getSize b)
       (Three.multiplyScalar (Three.getSize (carBox m)) 0.8)
  /\ (Three.intersectsBox b carBounds = true ->
      Three.intersectsBox (carBox m) carBounds = true).
Proof.
  apply (collision_box_within_mesh_box carBox parkedCar
           (CarController.mkCarMesh (Three.mkVector3 0 0.5 0)
              (Three.mkVector3 0 0 0) None) carBounds).
  - vm_compute. reflexivity.
  - vm_compute. reflexivity.
Defined.

(** X15. The controller keeps the car on the road as the collision detector
    judges it: after an [update], a collision impulse or a reset,
    [checkRoadBoundaries] accepts the car's position for every road at least
    16 wide, the default width 20 included. *)
Theorem car_passes_road_boundary_check (sin cos : Q -> Q)
    (setFromObject : CarController.CarMesh -> Three.Box3)
    (deltaTime roadWidth : Q) (c : CarController.t) :
  CarController.car c <> None -> 16 <= roadWidth ->
  CollisionDetector.checkRoadBoundaries
    (CarController.position
       (CarController.update sin cos setFromObject deltaTime c)) roadWidth = true
  /\ CollisionDetector.checkRoadBoundaries
       (CarController.position (CarController.handleCollision sin cos c))
       roadWidth = true
  /\ CollisionDetector.checkRoadBoundaries
       (CarController.position (CarController.reset c)) roadWidth = true
  /\ CollisionDetector.checkRoadBoundaries
       (CarController.position
          (CarController.update sin cos setFromObject deltaTime c))
       CollisionDetector.defaultRoadWidth = true.
Proof.
  intros Hcar Hw.
  assert (Hroad : forall p w, 16 <= w -> -8 <= Three.x p <= 8 ->
            CollisionDetector.checkRoadBoundaries p w = true).
  { intros p w Hw' [Hlo Hhi]. unfold CollisionDetector.checkRoadBoundaries.
    assert (H8 : 8 <= w / 2).
    { apply Qle_shift_div_l; [reflexivity | lra]. }
    apply andb_true_iff. split; apply Qleb_true; lra. }
  assert (Hup : -8 <= Three.x (CarController.position
                  (CarController.update sin cos setFromObject deltaTime c)) <= 8).
  { unfold CarController.update.
    destruct (CarController.car c) as [m|] eqn:E; [|congruence].
    rewrite updateBoundingBox_position, updateVisuals_position.
    apply updatePhysics_on_road. simpl. rewrite E. discriminate. }
  split_and!.
  - apply Hroad; [exact Hw | exact Hup].
  - apply Hroad; [exact Hw|]. simpl. apply clamp_bounds. discriminate.
  - apply Hroad; [exact Hw|]. simpl. split; discriminate.
  - apply Hroad; [discriminate | exact Hup].
Qed.

Lemma car_passes_road_boundary_check_witness :
  CollisionDetector.checkRoadBoundaries
    (CarController.position
       (CarController.update sinAtZero cosAtZero carBox 1 carRun)) 16 = true
  /\ CollisionDetector.checkRoadBoundaries
       (CarController.position (CarController.handleCollision sinAtZero cosAtZero carRun))
       16 = true
  /\ CollisionDetector.checkRoadBoundaries
       (CarController.position (CarController.reset carRun)) 16 = true
  /\ CollisionDetector.checkRoadBoundaries
       (CarController.position
          (CarController.update sinAtZero cosAtZero carBox 1 carRun))
       CollisionDetector.defaultRoadWidth = true.
Proof.
  apply (car_passes_road_boundary_check sinAtZero cosAtZero carBox 1 16 carRun);
    vm_compute; discriminate.
Defined.

(** ** ScoreManager.ts *)

Section ScoreManagerFurther.
Import ScoreManager.

Lemma Qfloor_nonneg (q : Q) : 0 <= q -> (0 <= Qfloor q)%Z.
Proof. intros H. apply (Qfloor_resp_le 0 q H). Qed.

Lemma typeMultiplier_nonneg (obstacleType : string) :
  0 <= typeMultiplier obstacleType.
Proof.
  unfold typeMultiplier.
  repeat match goal with |- context [if ?b then _ else _] => destruct b end;
    discriminate.
Qed.

Lemma calculateFinalScore_le (s1 s2 : ScoreManager.t) :
  (score s1 <= score s2)%Z -> timeSurvived s1 <= timeSurvived s2 ->
  distance s1 <= distance s2 -> (maxCombo s1 <= maxCombo s2)%Z ->
  (calculateFinalScore s1 <= calculateFinalScore s2)%Z.
Proof.
  intros Hs Ht Hd Hc. unfold calculateFinalScore.
  assert (H1 : (Qfloor (timeSurvived s1 * 50) <= Qfloor (timeSurvived s2 * 50))%Z)
    by (apply Qfloor_resp_le; lra).
  assert (H2 : (Qfloor (distance s1 / 1000) <= Qfloor (distance s2 / 1000))%Z).
  { apply Qfloor_resp_le. unfold Qdiv.
    apply Qmult_le_compat_r; [exact Hd | discriminate]. }
  lia.
Qed.

(** The figures after an [update], whether or not the combo times out. *)
Lemma update_figures (dt v : Q) (s : ScoreManager.t) :
  score (update dt v s)
  = ((if Qltb 15 v then
        (score s + Qfloor (Qabs v * dt * DISTANCE_MULTIPLIER)
         + Qfloor ((v - 15) * SPEED_MULTIPLIER * dt))%Z
      else (score s + Qfloor (Qabs v * dt * DISTANCE_MULTIPLIER))%Z)
     + Qfloor (TIME_MULTIPLIER * dt))%Z
  /\ distance (update dt v s) = distance s + Qabs v * dt
  /\ timeSurvived (update dt v s) = timeSurvived s + dt
  /\ maxCombo (update dt v s) = maxCombo s
  /\ highScore (update dt v s) = highScore s.
Proof.
  unfold update. cbv zeta.
  match goal with
  | |- context [if ?b then resetCombo ?u else _] =>
      destruct b; [unfold resetCombo; destruct (0 <? combo u)%Z|]
  end; split_and!; reflexivity.
Qed.

(** What one call of a round does to the figures that count. *)
Lemma call_within_round (c : Call) (s : ScoreManager.t) :
  score_invariant s -> within_round c ->
  (score s <= score (call c s))%Z
  /\ distance s <= distance (call c s)
  /\ timeSurvived s <= timeSurvived (call c s)
  /\ (maxCombo s <= maxCombo (call c s))%Z
  /\ (highScore s <= highScore (call c s))%Z.
Proof.
  intros (_ & _ & Hcombo) Hc.
  destruct c as [saved now|dt v|ty d now| | | |now]; simpl in Hc;
    try contradiction; cbn [call].
  - assert (Hd : 0 <= Qabs v * dt).
    { apply Qmult_le_0_compat; [apply Qabs_nonneg | exact Hc]. }
    assert (H1 : (0 <= Qfloor (Qabs v * dt * DISTANCE_MULTIPLIER))%Z).
    { apply Qfloor_nonneg. apply Qmult_le_0_compat; [exact Hd | discriminate]. }
    assert (H2 : (0 <= Qfloor (TIME_MULTIPLIER * dt))%Z).
    { apply Qfloor_nonneg. apply Qmult_le_0_compat; [discriminate | exact Hc]. }
    assert (H3 : 15 < v ->
                 (0 <= Qfloor ((v - 15) * SPEED_MULTIPLIER * dt))%Z).
    { intros Hv. apply Qfloor_nonneg.
      apply Qmult_le_0_compat; [|exact Hc].
      apply Qmult_le_0_compat; [lra | discriminate]. }
    destruct (update_figures dt v s) as (-> & -> & -> & -> & ->).
    split_and!; try lia; try lra.
    destruct (Qltb 15 v) eqn:Ev; [apply Qltb_true in Ev; specialize (H3 Ev)|];
      lia.
  - assert (Hp : 0 <= basePoints ty d).
    { unfold basePoints. apply Qmult_le_0_compat; [|exact Hc].
      apply Qmult_le_0_compat; [discriminate | apply typeMultiplier_nonneg]. }
    assert (H1 : (0 <= Qfloor (basePoints ty d))%Z) by (apply Qfloor_nonneg, Hp).
    assert (H2 : (0 <= Qfloor (basePoints ty d
                               + inject_Z (combo s + 1) * COMBO_MULTIPLIER))%Z).
    { apply Qfloor_nonneg.
      assert (0 <= inject_Z (combo s + 1) * COMBO_MULTIPLIER).
      { apply Qmult_le_0_compat; [|discriminate].
        change 0 with (inject_Z 0). rewrite <- Zle_Qle. lia. }
      lra. }
    unfold awardObstacleAvoidance.
    cbn [score distance timeSurvived maxCombo highScore].
    destruct (Qleb (seconds now - lastObstacleAvoidanceTime s) 2.0);
      split_and!; try lia; lra.
  - unfold loseLife, resetCombo, set_lives. cbn [combo].
    destruct (0 <? combo s)%Z;
      cbn [set_combo score distance timeSurvived maxCombo highScore];
      split_and!; try lia; lra.
  - unfold gainLife, set_lives. destruct (lives s <? maxLives s)%Z;
      cbn [score distance timeSurvived maxCombo highScore];
      split_and!; try lia; lra.
  - unfold checkHighScore.
    destruct (highScore s <? calculateFinalScore s)%Z eqn:E;
      cbn [fst score distance timeSurvived maxCombo highScore];
      split_and!; try lia; try lra.
Qed.

End ScoreManagerFurther.

(** X16. Within a round, that is over calls other than [reset] and
    [initialize] whose frame durations and difficulties are not negative,
    nothing that counts is ever taken back: the score, the distance, the time
    survived, the best combo and the high score never decrease, and neither
    does the final score computed from them. *)
Theorem round_figures_never_decrease (cs : list ScoreManager.Call)
    (s : ScoreManager.t) :
  score_invariant s -> Forall within_round cs ->
  let s' := ScoreManager.run cs s in
  (ScoreManager.score s <= ScoreManager.score s')%Z
  /\ ScoreManager.distance s <= ScoreManager.distance s'
  /\ ScoreManager.timeSurvived s <= ScoreManager.timeSurvived s'
  /\ (ScoreManager.maxCombo s <= ScoreManager.maxCombo s')%Z
  /\ (ScoreManager.highScore s <= ScoreManager.highScore s')%Z
  /\ (ScoreManager.calculateFinalScore s
      <= ScoreManager.calculateFinalScore s')%Z.
Proof.
  intros Hinv Hcs s'. subst s'.
  assert (H : (ScoreManager.score s
               <= ScoreManager.score (ScoreManager.run cs s))%Z
              /\ ScoreManager.distance s
                 <= ScoreManager.distance (ScoreManager.run cs s)
              /\ ScoreManager.timeSurvived s
                 <= ScoreManager.timeSurvived (ScoreManager.run cs s)
              /\ (ScoreManager.maxCombo s
                  <= ScoreManager.maxCombo (ScoreManager.run cs s))%Z
              /\ (ScoreManager.highScore s
                  <= ScoreManager.highScore (ScoreManager.run cs s))%Z).
  { revert s Hinv. induction Hcs as [|c cs Hc Hcs IH]; intros s Hinv.
    - simpl. split_and!; try lia; lra.
    - simpl.
      destruct (call_within_round c s Hinv Hc) as (H1 & H2 & H3 & H4 & H5).
      destruct (IH _ (call_invariant c s Hinv)) as (I1 & I2 & I3 & I4 & I5).
      split_and!; try lia; lra. }
  destruct H as (H1 & H2 & H3 & H4 & H5).
  split_and!; try assumption.
  apply calculateFinalScore_le; assumption.
Qed.

Lemma round_figures_never_decrease_witness :
  let cs := [ScoreManager.CUpdate 1 20; ScoreManager.CAward "wall" 1 5000;
             ScoreManager.CLoseLife; ScoreManager.CCheckHighScore] in
  let s' := ScoreManager.run cs scoreRun in
  (ScoreManager.score scoreRun <= ScoreManager.score s')%Z
  /\ ScoreManager.distance scoreRun <= ScoreManager.distance s'
  /\ ScoreManager.timeSurvived scoreRun <= ScoreManager.timeSurvived s'
  /\ (ScoreManager.maxCombo scoreRun <= ScoreManager.maxCombo s')%Z
  /\ (ScoreManager.highScore scoreRun <= ScoreManager.highScore s')%Z
  /\ (ScoreManager.calculateFinalScore scoreRun
      <= ScoreManager.calculateFinalScore s')%Z.
Proof.
  apply (round_figures_never_decrease
           [ScoreManager.CUpdate 1 20; ScoreManager.CAward "wall" 1 5000;
            ScoreManager.CLoseLife; ScoreManager.CCheckHighScore] scoreRun).
  - unfold score_invariant. vm_compute. split_and!; try reflexivity; discriminate.
  - repeat (apply Forall_cons; split;
            [first [exact I | vm_compute; discriminate]|]).
    apply Forall_nil. exact I.
Defined.

Section ScoreManagerCombo.
Import ScoreManager.

Lemma call_combo_invariant (c : Call) (s : ScoreManager.t) :
  combo_invariant s -> combo_invariant (call c s).
Proof.
  unfold combo_invariant. intros [[H0 Hmax] Htimer].
  destruct c as [saved now|dt v|ty d now| | | |now]; cbn [call].
  - unfold initialize, reset. cbn [combo maxCombo comboTimer]. lia.
  - unfold update. cbv zeta.
    match goal with
    | |- context [if ?b then resetCombo ?u else _] =>
        destruct b eqn:E; [unfold resetCombo; destruct (0 <? combo u)%Z eqn:E'|]
    end; cbn [set_combo combo maxCombo comboTimer] in *.
    + lia.
    + apply Z.ltb_ge in E'. cbn [combo] in E'. lia.
    + apply andb_false_iff in E. split; [lia|]. intros Hpos.
      destruct E as [E|E].
      * apply Qleb_false in E. exact E.
      * apply Z.ltb_ge in E. lia.
  - unfold awardObstacleAvoidance. cbn [combo maxCombo comboTimer].
    split; [|intros _; reflexivity].
    destruct (Qleb (seconds now - lastObstacleAvoidanceTime s) 2.0); lia.
  - unfold loseLife, resetCombo, set_lives. cbn [combo].
    destruct (0 <? combo s)%Z eqn:E; cbn [set_combo combo maxCombo comboTimer].
    + lia.
    + split; [lia | exact Htimer].
  - unfold gainLife, set_lives.
    destruct (lives s <? maxLives s)%Z; cbn [combo maxCombo comboTimer];
      (split; [lia | exact Htimer]).
  - unfold checkHighScore.
    destruct (highScore s <? calculateFinalScore s)%Z;
      cbn [fst combo maxCombo comboTimer]; (split; [lia | exact Htimer]).
  - unfold reset. cbn [combo maxCombo comboTimer]. lia.
Qed.

End ScoreManagerCombo.

(** X17. In every state that a sequence of calls reaches from a new score
    manager, the combo is between zero and the best combo recorded, and a
    running combo has time left on its timer: a combo never outlives its
    timeout. *)
Theorem combo_within_record_and_time (cs : list ScoreManager.Call) :
  combo_invariant (ScoreManager.run cs ScoreManager.new).
Proof.
  assert (H : forall s, combo_invariant s ->
                combo_invariant (ScoreManager.run cs s)).
  { induction cs as [|c cs IH]; intros s Hs; [exact Hs|].
    apply (IH (ScoreManager.call c s)), call_combo_invariant, Hs. }
  apply H. unfold combo_invariant. cbn. lia.
Qed.

Section ScoreManagerTimeout.
Import ScoreManager.

Lemma run_combo_invariant (cs : list Call) (s : ScoreManager.t) :
  combo_invariant s -> combo_invariant (run cs s).
Proof.
  revert s. induction cs as [|c cs IH]; intros s Hs; [exact Hs|].
  apply (IH (call c s)), call_combo_invariant, Hs.
Qed.

(** An [update] either ends the combo or leaves it alone and runs its timer
    down by the frame's duration. *)
Lemma update_combo (dt v : Q) (s : ScoreManager.t) :
  (combo (update dt v s) = 0%Z
   /\ comboTimer s - dt <= 0 /\ (0 < combo s)%Z)
  \/ (combo (update dt v s) = combo s
      /\ comboTimer (update dt v s) = comboTimer s - dt
      /\ (0 < comboTimer s - dt \/ (combo s <= 0)%Z)).
Proof.
  unfold update. cbv zeta.
  match goal with
  | |- context [if ?b then resetCombo ?u else _] => destruct b eqn:E
  end.
  - left. apply andb_true_iff in E. destruct E as [E1 E2].
    unfold resetCombo. rewrite E2. cbn [set_combo combo comboTimer] in *.
    apply Qleb_true in E1. apply Z.ltb_lt in E2. auto.
  - right. cbn [combo comboTimer] in *.
    split; [reflexivity|]. split; [reflexivity|].
    apply andb_false_iff in E. destruct E as [E|E].
    + left. apply Qleb_false in E. exact E.
    + right. apply Z.ltb_ge in E. exact E.
Qed.

Lemma updates_combo (frames : list (Q * Q)) :
  forall s : ScoreManager.t,
    combo (run (updates frames) s) = 0%Z
    \/ (combo (run (updates frames) s) = combo s
        /\ comboTimer (run (updates frames) s)
           == comboTimer s - elapsed frames).
Proof.
  induction frames as [|[dt v] frames IH]; intros s.
  - right. split; [reflexivity|]. cbn. ring.
  - cbn [updates map run fold_left call fst snd elapsed].
    change (fold_left (fun st c => call c st) (map (fun f => CUpdate (fst f) (snd f)) frames))
      with (run (updates frames)).
    destruct (IH (update dt v s)) as [H|[H1 H2]]; [left; exact H|].
    destruct (update_combo dt v s) as [(E & _)|(E1 & E2 & _)].
    + left. congruence.
    + right. split; [congruence|]. rewrite H2, E2. ring.
Qed.

Lemma elapsed_nonneg (frames : list (Q * Q)) :
  Forall (fun f => 0 <= fst f) frames -> 0 <= elapsed frames.
Proof.
  induction 1 as [|f frames Hf _ IH]; cbn [elapsed]; [discriminate | lra].
Qed.

Lemma updates_keep_combo (frames : list (Q * Q)) :
  Forall (fun f => 0 <= fst f) frames ->
  forall s : ScoreManager.t,
    elapsed frames < comboTimer s ->
    combo (run (updates frames) s) = combo s.
Proof.
  induction 1 as [|[dt v] frames Hf Hfs IH]; intros s Hlt; [reflexivity|].
  cbn [updates map run fold_left call fst snd elapsed] in *.
  change (fold_left (fun st c => call c st) (map (fun f => CUpdate (fst f) (snd f)) frames))
    with (run (updates frames)).
  pose proof (elapsed_nonneg frames Hfs) as Hnn.
  destruct (update_combo dt v s) as [(_ & E & _)|(E1 & E2 & _)]; [lra|].
  rewrite IH; [exact E1|]. rewrite E2. lra.
Qed.

End ScoreManagerTimeout.

(** X18. The combo timeout is three seconds of updates. Over up to a
    million frames of non-negative duration that follow an award, with no
    further award: once the frames add up to three seconds and a nanosecond
    or more, the combo is back at zero; while they add up to three seconds
    less a nanosecond or less, the combo is still the one the award left.
    (Nearer to the three seconds than that, the rounding of the code's
    timer decides.) *)
Theorem combo_expires_after_three_seconds (obstacleType : string)
    (difficulty : Q) (now : Z) (frames : list (Q * Q)) (s : ScoreManager.t) :
  (0 <= ScoreManager.combo s)%Z ->
  Forall (fun f => 0 <= fst f) frames ->
  (Z.of_nat (length frames) <= frameLimit)%Z ->
  let awarded :=
    ScoreManager.awardObstacleAvoidance obstacleType difficulty now s in
  let s' := ScoreManager.run (updates frames) awarded in
  (0 < ScoreManager.combo awarded)%Z
  /\ (3 + timerMargin <= elapsed frames -> ScoreManager.combo s' = 0%Z)
  /\ (elapsed frames <= 3 - timerMargin ->
      ScoreManager.combo s' = ScoreManager.combo awarded).
Proof.
  intros Hcombo Hnn _ awarded s'.
  assert (Hmargin : 0 < timerMargin) by reflexivity.
  assert (Hpos : (0 < ScoreManager.combo awarded)%Z).
  { unfold awarded, ScoreManager.awardObstacleAvoidance.
    cbn [ScoreManager.combo].
    destruct (Qleb (ScoreManager.seconds now
                    - ScoreManager.lastObstacleAvoidanceTime s) 2.0); lia. }
  assert (Htimer : ScoreManager.comboTimer awarded = 3) by reflexivity.
  assert (Hinv : combo_invariant awarded).
  { unfold combo_invariant. split; [|intros _; rewrite Htimer; reflexivity].
    split; [lia|]. unfold awarded, ScoreManager.awardObstacleAvoidance.
    cbn [ScoreManager.combo ScoreManager.maxCombo]. lia. }
  split; [exact Hpos|]. split.
  - intros Hlong.
    destruct (updates_combo frames awarded) as [H|[H1 H2]]; [exact H|].
    destruct (run_combo_invariant (updates frames) awarded Hinv) as [_ Hleft].
    fold s' in H1, H2, Hleft.
    assert (Hrun : (0 < ScoreManager.combo s')%Z) by lia.
    specialize (Hleft Hrun). rewrite Htimer in H2. lra.
  - intros Hshort. apply updates_keep_combo; [exact Hnn|].
    rewrite Htimer. lra.
Qed.

Lemma combo_expires_after_three_seconds_witness :
  let awarded := ScoreManager.awardObstacleAvoidance "cone" 1 8000 scoreRun in
  let s' := ScoreManager.run (updates fourSeconds) awarded in
  (0 < ScoreManager.combo awarded)%Z
  /\ (3 + timerMargin <= elapsed fourSeconds -> ScoreManager.combo s' = 0%Z)
  /\ (elapsed fourSeconds <= 3 - timerMargin ->
      ScoreManager.combo s' = ScoreManager.combo awarded).
Proof.
  apply (combo_expires_after_three_seconds "cone" 1 8000 fourSeconds scoreRun).
  - vm_compute. discriminate.
  - repeat constructor; vm_compute; discriminate.
  - vm_compute. discriminate.
Defined.

(** X19. [checkHighScore] records the better of the stored high score and
    the final score and reports whether the final score was the better one,
    so that a second check reports nothing new; and no call other than
    [initialize], which reloads the stored value, ever lowers the high
    score: it survives every reset. *)
Theorem high_score_is_best_so_far (cs : list ScoreManager.Call)
    (s : ScoreManager.t) :
  Forall (fun c => forall saved now, c <> ScoreManager.CInitialize saved now) cs ->
  let checked := ScoreManager.checkHighScore s in
  ScoreManager.highScore (fst checked)
  = Z.max (ScoreManager.highScore s) (ScoreManager.calculateFinalScore s)
  /\ (snd checked = true <->
      (ScoreManager.highScore s < ScoreManager.calculateFinalScore s)%Z)
  /\ snd (ScoreManager.checkHighScore (fst checked)) = false
  /\ (ScoreManager.highScore s
      <= ScoreManager.highScore (ScoreManager.run cs s))%Z.
Proof.
  intros Hcs checked. subst checked.
  assert (Hcheck : forall u,
            ScoreManager.highScore (fst (ScoreManager.checkHighScore u))
            = Z.max (ScoreManager.highScore u)
                (ScoreManager.calculateFinalScore u)
            /\ ScoreManager.calculateFinalScore
                 (fst (ScoreManager.checkHighScore u))
               = ScoreManager.calculateFinalScore u).
  { intros u. unfold ScoreManager.checkHighScore.
    destruct (ScoreManager.highScore u <? ScoreManager.calculateFinalScore u)%Z
      eqn:E; cbn [fst ScoreManager.highScore].
    - apply Z.ltb_lt in E. split; [lia | reflexivity].
    - apply Z.ltb_ge in E. split; [lia | reflexivity]. }
  split; [apply Hcheck|]. split; [|split].
  - unfold ScoreManager.checkHighScore.
    destruct (ScoreManager.highScore s <? ScoreManager.calculateFinalScore s)%Z
      eqn:E; cbn [snd].
    + apply Z.ltb_lt in E. tauto.
    + apply Z.ltb_ge in E. split; [discriminate | lia].
  - destruct (Hcheck s) as [E1 E2].
    unfold ScoreManager.checkHighScore at 1. rewrite E1, E2.
    destruct (_ <? _)%Z eqn:E; [|reflexivity].
    apply Z.ltb_lt in E. lia.
  - revert s. induction Hcs as [|c cs Hc Hcs IH]; intros s; [cbn; lia|].
    cbn [ScoreManager.run fold_left].
    change (fold_left (fun st c0 => ScoreManager.call c0 st) cs)
      with (ScoreManager.run cs).
    specialize (IH (ScoreManager.call c s)).
    assert (Hstep : (ScoreManager.highScore s
                     <= ScoreManager.highScore (ScoreManager.call c s))%Z).
    { destruct c as [saved now|dt v|ty d now| | | |now];
        cbn [ScoreManager.call].
      - exfalso. exact (Hc saved now eq_refl).
      - destruct (update_figures dt v s) as (_ & _ & _ & _ & ->). lia.
      - cbn. lia.
      - unfold ScoreManager.loseLife, ScoreManager.resetCombo,
          ScoreManager.set_lives. cbn [ScoreManager.combo].
        destruct (0 <? ScoreManager.combo s)%Z; cbn; lia.
      - unfold ScoreManager.gainLife.
        destruct (_ <? _)%Z; cbn; lia.
      - destruct (Hcheck s) as [-> _]. lia.
      - cbn. lia. }
    lia.
Qed.

Lemma high_score_is_best_so_far_witness :
  let cs := [ScoreManager.CCheckHighScore; ScoreManager.CReset 9000;
             ScoreManager.CUpdate 1 10] in
  let checked := ScoreManager.checkHighScore scoreRun in
  ScoreManager.highScore (fst checked)
  = Z.max (ScoreManager.highScore scoreRun)
      (ScoreManager.calculateFinalScore scoreRun)
  /\ (snd checked = true <->
      (ScoreManager.highScore scoreRun
       < ScoreManager.calculateFinalScore scoreRun)%Z)
  /\ snd (ScoreManager.checkHighScore (fst checked)) = false
  /\ (ScoreManager.highScore scoreRun
      <= ScoreManager.highScore (ScoreManager.run cs scoreRun))%Z.
Proof.
  apply (high_score_is_best_so_far
           [ScoreManager.CCheckHighScore; ScoreManager.CReset 9000;
            ScoreManager.CUpdate 1 10] scoreRun).
  repeat (apply Forall_cons; split; [intros saved now; discriminate|]).
  apply Forall_nil. exact I.
Defined.

(** X20. The performance figures are well defined and within range whenever
    the combo and the distance are not negative: no division by zero
    occurs, the accuracy rate is a percentage, the average speed is the
    distance over the time survived once a second has passed and the
    distance itself before. *)
Theorem performance_stats_in_range (s : ScoreManager.t) :
  (0 <= ScoreManager.combo s)%Z -> 0 <= ScoreManager.distance s ->
  let stats := ScoreManager.getPerformanceStats s in
  0 <= ScoreManager.accuracyRate stats <= 100
  /\ (0 <= ScoreManager.obstaclesAvoided stats)%Z
  /\ 0 <= ScoreManager.averageSpeed stats <= ScoreManager.distance s
  /\ (1 <= ScoreManager.timeSurvived s ->
      ScoreManager.averageSpeed stats * ScoreManager.timeSurvived s
      == ScoreManager.distance s)
  /\ (ScoreManager.timeSurvived s <= 1 ->
      ScoreManager.averageSpeed stats == ScoreManager.distance s).
Proof.
  intros Hcombo Hdist stats. subst stats.
  unfold ScoreManager.getPerformanceStats.
  cbn [ScoreManager.accuracyRate ScoreManager.obstaclesAvoided
         ScoreManager.averageSpeed].
  set (d := ScoreManager.distance s) in *.
  set (t := ScoreManager.timeSurvived s).
  assert (Hav : (0 <= Qfloor (d / 100))%Z).
  { apply Qfloor_nonneg. apply Qle_shift_div_l; [reflexivity | lra]. }
  assert (Hmax : forall q, 1 <= Qmax q 1) by (intros q; apply Q.le_max_r).
  split; [|split; [exact Hav|split; [|split]]].
  - split; [|apply Q.le_min_l].
    apply Q.min_glb; [discriminate|].
    apply Qmult_le_0_compat; [|discriminate].
    apply Qle_shift_div_l.
    + pose proof (Hmax (inject_Z (Qfloor (d / 100)))). lra.
    + rewrite Qmult_0_l. change 0 with (inject_Z 0). rewrite <- Zle_Qle.
      exact Hcombo.
  - pose proof (Hmax t) as Ht. split.
    + apply Qle_shift_div_l; lra.
    + apply Qle_shift_div_r; [lra|]. nra.
  - intros Ht. rewrite (Q.max_l t 1 Ht). field. lra.
  - intros Ht. rewrite (Q.max_r t 1 Ht). field.
Qed.

Lemma performance_stats_in_range_witness :
  let stats := ScoreManager.getPerformanceStats scoreRun in
  0 <= ScoreManager.accuracyRate stats <= 100
  /\ (0 <= ScoreManager.obstaclesAvoided stats)%Z
  /\ 0 <= ScoreManager.averageSpeed stats <= ScoreManager.distance scoreRun
  /\ (1 <= ScoreManager.timeSurvived scoreRun ->
      ScoreManager.averageSpeed stats * ScoreManager.timeSurvived scoreRun
      == ScoreManager.distance scoreRun)
  /\ (ScoreManager.timeSurvived scoreRun <= 1 ->
      ScoreManager.averageSpeed stats == ScoreManager.distance scoreRun).
Proof.
  apply (performance_stats_in_range scoreRun); vm_compute; discriminate.
Defined.

(** ** ObstacleManager.ts *)

Section ObstacleManagerFurther.
Import Three ObstacleManager.

Variable Math_random : nat -> Q.
Variable setFromObject : ObstacleType -> Mesh -> Box3.

Local Abbreviation reachable := (reachable Math_random setFromObject).
Local Abbreviation update := (ObstacleManager.update Math_random setFromObject).

(** What an [update] does to the clock and the difficulty. *)
Lemma update_clock (fuel : nat) (deltaTime : Q) (carPosition : Vector3)
    (s s' : ObstacleManager.t) :
  update fuel deltaTime carPosition s = Some s' ->
  timeSinceStart s' = timeSinceStart s + deltaTime
  /\ difficulty s' = Qmin (1 + timeSinceStart s' / 30) 5.
Proof.
  unfold ObstacleManager.update. cbv zeta.
  set (s1 := set_timeSinceStart (timeSinceStart s + deltaTime) s).
  set (s2 := updateDifficulty s1).
  set (s3 := cleanupObstacles carPosition s2).
  destruct (spawnObstacles Math_random setFromObject fuel carPosition s3)
    as [s4|] eqn:E; [|discriminate].
  intros H. injection H as <-.
  destruct (updateMovingObstacles_spec setFromObject deltaTime s4) as [F5 _].
  unfold spawnObstacles in E.
  destruct (spawnLoop_spec Math_random setFromObject _ _ _ _ E)
    as (_ & Ed4 & _ & _ & Et4 & _).
  destruct (cleanupObstacles_spec carPosition s2) as [F3 _].
  rewrite (fr_time _ _ F5), (fr_difficulty _ _ F5), Et4, Ed4.
  subst s3. rewrite (fr_time _ _ F3), (fr_difficulty _ _ F3).
  split; reflexivity.
Qed.

Lemma difficulty_of_time (t : Q) :
  0 <= t ->
  1 <= Qmin (1 + t / 30) 5 <= 5
  /\ (120 <= t -> Qmin (1 + t / 30) 5 == 5)
  /\ (t <= 120 -> Qmin (1 + t / 30) 5 == 1 + t / 30).
Proof.
  intros Ht.
  assert (H30 : 0 <= t / 30) by (apply Qle_shift_div_l; [reflexivity | lra]).
  assert (Hhi : 120 <= t -> 4 <= t / 30).
  { intros H. apply Qle_shift_div_l; [reflexivity | lra]. }
  assert (Hlo : t <= 120 -> t / 30 <= 4).
  { intros H. apply Qle_shift_div_r; [reflexivity | lra]. }
  destruct (Qmin_case_le (1 + t / 30) 5) as [[H E]|[H E]]; rewrite E;
    split_and!; intros; lra.
Qed.

Lemma reachable_difficulty (s : ObstacleManager.t) :
  reachable s -> difficulty s == Qmin (1 + timeSinceStart s / 30) 5.
Proof.
  induction 1 as [|fuel dt p s s' Hs IH Hdt Hup|s Hs IH].
  - unfold initialize.
    destruct (spawnInitialObstacles_spec Math_random setFromObject
                (createObstaclePool (set_scene (Some ∅) ObstacleManager.new)))
      as (_ & _ & -> & -> & _).
    destruct (createObstaclePool_spec (set_scene (Some ∅) ObstacleManager.new))
      as (_ & _ & _ & -> & -> & _).
    reflexivity.
  - destruct (update_clock _ _ _ _ _ Hup) as [_ ->]. reflexivity.
  - unfold reset. cbv zeta.
    match goal with
    | |- context [exec (spawnInitialObstacles _ _) ?u] =>
        destruct (spawnInitialObstacles_spec Math_random setFromObject u)
          as (_ & _ & -> & -> & _)
    end.
    reflexivity.
Qed.

Lemma reset_clock (s : ObstacleManager.t) :
  timeSinceStart (reset Math_random setFromObject s) = 0
  /\ difficulty (reset Math_random setFromObject s) = 1.
Proof.
  unfold reset. cbv zeta.
  match goal with
  | |- context [exec (spawnInitialObstacles _ _) ?u] =>
      destruct (spawnInitialObstacles_spec Math_random setFromObject u)
        as (_ & _ & -> & -> & _)
  end.
  split; reflexivity.
Qed.

End ObstacleManagerFurther.

(** X21. In every state of a session the difficulty is the time since the
    start of the round turned into a level: [1 + t / 30], capped at 5, which
    is reached after 120 seconds. An [update] adds its frame's duration to
    the clock and never lowers the difficulty; a reset puts the clock back
    to 0 and the difficulty back to 1. *)
Theorem difficulty_follows_the_clock (Math_random : nat -> Q)
    (setFromObject : ObstacleManager.ObstacleType -> ObstacleManager.Mesh
                     -> Three.Box3)
    (fuel : nat) (deltaTime : Q) (carPosition : Three.Vector3)
    (s s' : ObstacleManager.t) :
  reachable Math_random setFromObject s ->
  0 <= deltaTime ->
  ObstacleManager.update Math_random setFromObject fuel deltaTime carPosition s
  = Some s' ->
  ObstacleManager.getDifficulty s
  == Qmin (1 + ObstacleManager.timeSinceStart s / 30) 5
  /\ (120 <= ObstacleManager.timeSinceStart s ->
      ObstacleManager.getDifficulty s == 5)
  /\ ObstacleManager.timeSinceStart s'
     = ObstacleManager.timeSinceStart s + deltaTime
  /\ ObstacleManager.getDifficulty s'
     = Qmin (1 + ObstacleManager.timeSinceStart s' / 30) 5
  /\ ObstacleManager.getDifficulty s <= ObstacleManager.getDifficulty s'
  /\ ObstacleManager.timeSinceStart
       (ObstacleManager.reset Math_random setFromObject s') = 0
  /\ ObstacleManager.getDifficulty
       (ObstacleManager.reset Math_random setFromObject s') = 1.
Proof.
  intros Hs Hdt Hup. unfold ObstacleManager.getDifficulty.
  pose proof (reachable_difficulty Math_random setFromObject s Hs) as Hd.
  pose proof (si_time _ (reachable_invariant Math_random setFromObject s Hs))
    as Ht.
  destruct (update_clock Math_random setFromObject _ _ _ _ _ Hup) as [Et Ed].
  destruct (difficulty_of_time (ObstacleManager.timeSinceStart s) Ht)
    as (_ & Hcap & _).
  split; [exact Hd|]. split; [intros H; rewrite Hd; apply Hcap, H|].
  split; [exact Et|]. split; [exact Ed|]. split.
  - rewrite Ed, Hd, Et.
    assert (Hq : ObstacleManager.timeSinceStart s / 30
                 <= (ObstacleManager.timeSinceStart s + deltaTime) / 30).
    { unfold Qdiv. apply Qmult_le_compat_r; [lra | discriminate]. }
    destruct (Qmin_case_le (1 + ObstacleManager.timeSinceStart s / 30) 5)
      as [[H E]|[H E]];
      destruct (Qmin_case_le
                  (1 + (ObstacleManager.timeSinceStart s + deltaTime) / 30) 5)
        as [[H' E']|[H' E']];
      rewrite E, E'; lra.
  - apply reset_clock.
Qed.

Lemma difficulty_follows_the_clock_witness :
  ObstacleManager.getDifficulty sessionStart
  == Qmin (1 + ObstacleManager.timeSinceStart sessionStart / 30) 5
  /\ (120 <= ObstacleManager.timeSinceStart sessionStart ->
      ObstacleManager.getDifficulty sessionStart == 5)
  /\ ObstacleManager.timeSinceStart afterUpdate
     = ObstacleManager.timeSinceStart sessionStart + 1
  /\ ObstacleManager.getDifficulty afterUpdate
     = Qmin (1 + ObstacleManager.timeSinceStart afterUpdate / 30) 5
  /\ ObstacleManager.getDifficulty sessionStart
     <= ObstacleManager.getDifficulty afterUpdate
  /\ ObstacleManager.timeSinceStart
       (ObstacleManager.reset halves obstacleBox afterUpdate) = 0
  /\ ObstacleManager.getDifficulty
       (ObstacleManager.reset halves obstacleBox afterUpdate) = 1.
Proof.
  apply (difficulty_follows_the_clock halves obstacleBox 4 1 startLine
           sessionStart afterUpdate).
  - apply reachable_initialize.
  - discriminate.
  - vm_compute. reflexivity.
Defined.

Section ObstacleManagerCleanup.
Import Three ObstacleManager.

Variable carPosition : Vector3.

(** The obstacles [cleanupObstacles] keeps: those not behind the limit. *)
Lemma cleanupFilter_kept (obs : list (ObstacleData nat)) :
  forall s : ObstacleManager.t,
    fst (cleanupFilter carPosition obs s)
    = List.filter
        (fun o => negb (Qltb (z (position o))
                          (z carPosition + despawnDistance s)))
        obs.
Proof.
  induction obs as [|o rest IH]; intros s; [reflexivity|].
  cbn [cleanupFilter List.filter].
  destruct (Qltb (z (position o)) (z carPosition + despawnDistance s)) eqn:E;
    cbn [negb].
  - rewrite IH.
    rewrite (fr_despawn _ _ (returnObstacleToPool_frame (mesh o) s)).
    reflexivity.
  - specialize (IH s). destruct (cleanupFilter carPosition rest s) as [kept s1].
    cbn [fst] in *. rewrite IH. reflexivity.
Qed.

Lemma returnObstacleToPool_released (a : nat) (s : ObstacleManager.t) :
  let s' := returnObstacleToPool a (sceneRemove a s) in
  ~ inUse s' a
  /\ (forall ch, scene s' = Some ch -> a ∉ ch)
  /\ (forall b, inUse s' b -> inUse s b)
  /\ (forall ch', scene s' = Some ch' ->
        exists ch, scene s = Some ch /\ ch' ⊆ ch).
Proof.
  unfold returnObstacleToPool, sceneRemove, inUse.
  cbn [meshes scene set_meshes set_scene]. split_and!.
  - rewrite lookup_alter_eq. destruct (meshes s !! a); cbn; congruence.
  - intros ch H. destruct (scene s) as [ch0|]; cbn in H; [|discriminate].
    simplify_eq. apply not_elem_of_difference. right.
    apply elem_of_singleton. reflexivity.
  - intros b. destruct (decide (a = b)) as [->|Hne].
    + rewrite lookup_alter_eq. destruct (meshes s !! b); cbn; congruence.
    + rewrite lookup_alter_ne by exact Hne. trivial.
  - intros ch' H. destruct (scene s) as [ch0|]; cbn in H; [|discriminate].
    simplify_eq. exists ch0. split; [reflexivity|].
    apply subseteq_difference_l. reflexivity.
Qed.

Lemma cleanupFilter_monotone (obs : list (ObstacleData nat)) :
  forall s : ObstacleManager.t,
    let s' := snd (cleanupFilter carPosition obs s) in
    (forall b, inUse s' b -> inUse s b)
    /\ (forall ch', scene s' = Some ch' ->
          exists ch, scene s = Some ch /\ ch' ⊆ ch).
Proof.
  induction obs as [|o rest IH]; intros s; cbn [cleanupFilter].
  - cbn. split; [trivial|]. intros ch' H. exists ch'. split; [exact H | reflexivity].
  - destruct (Qltb (z (position o)) (z carPosition + despawnDistance s)).
    + destruct (IH (returnObstacleToPool (mesh o) (sceneRemove (mesh o) s)))
        as [H1 H2].
      destruct (returnObstacleToPool_released (mesh o) s) as (_ & _ & R1 & R2).
      split.
      * intros b Hb. apply R1, H1, Hb.
      * intros ch' Hch. destruct (H2 ch' Hch) as (ch1 & E1 & S1).
        destruct (R2 ch1 E1) as (ch & E & S). exists ch.
        split; [exact E | transitivity ch1; assumption].
    + generalize (IH s). destruct (cleanupFilter carPosition rest s) as [kept s1].
      trivial.
Qed.

Lemma cleanupFilter_released (obs : list (ObstacleData nat)) :
  forall (s : ObstacleManager.t) (o : ObstacleData nat),
    o ∈ obs ->
    z (position o) < z carPosition + despawnDistance s ->
    let s' := snd (cleanupFilter carPosition obs s) in
    ~ inUse s' (mesh o) /\ (forall ch, scene s' = Some ch -> mesh o ∉ ch).
Proof.
  induction obs as [|o1 rest IH]; intros s o Hin Hbehind;
    [apply elem_of_nil in Hin; contradiction|].
  cbn [cleanupFilter].
  destruct (Qltb (z (position o1)) (z carPosition + despawnDistance s)) eqn:E.
  - set (s1 := returnObstacleToPool (mesh o1) (sceneRemove (mesh o1) s)).
    assert (Ed : despawnDistance s1 = despawnDistance s)
      by apply (fr_despawn _ _ (returnObstacleToPool_frame (mesh o1) s)).
    apply elem_of_cons in Hin. destruct Hin as [->|Hin].
    + destruct (returnObstacleToPool_released (mesh o1) s) as (R1 & R2 & _).
      destruct (cleanupFilter_monotone rest s1) as [M1 M2].
      split.
      * intros Hu. apply R1, M1, Hu.
      * intros ch Hch Hel. destruct (M2 ch Hch) as (ch1 & E1 & S1).
        apply (R2 ch1 E1). apply S1, Hel.
    + apply IH; [exact Hin | rewrite Ed; exact Hbehind].
  - apply Qltb_false in E.
    apply elem_of_cons in Hin. destruct Hin as [->|Hin]; [lra|].
    generalize (IH s o Hin Hbehind).
    destruct (cleanupFilter carPosition rest s) as [kept s1]. trivial.
Qed.

End ObstacleManagerCleanup.

(** X22. [cleanupObstacles] keeps, in their order, exactly the obstacles that
    are not behind the despawn limit (the car's [z] plus [despawnDistance]).
    The mesh of every obstacle it drops is out of the scene and free for
    reuse, and under the pool discipline the meshes of the obstacles it
    keeps are untouched. *)
Theorem cleanupObstacles_keeps_what_is_ahead (carPosition : Three.Vector3)
    (s : ObstacleManager.t) :
  pool_invariant s ->
  let s' := ObstacleManager.cleanupObstacles carPosition s in
  let limit := Three.z carPosition + ObstacleManager.despawnDistance s in
  ObstacleManager.obstacles s'
  = List.filter
      (fun o => negb (Qltb (Three.z (ObstacleManager.position o)) limit))
      (ObstacleManager.obstacles s)
  /\ (forall o, o ∈ ObstacleManager.obstacles s' ->
        o ∈ ObstacleManager.obstacles s
        /\ limit <= Three.z (ObstacleManager.position o)
        /\ ObstacleManager.meshes s' !! ObstacleManager.mesh o
           = ObstacleManager.meshes s !! ObstacleManager.mesh o)
  /\ (forall o, o ∈ ObstacleManager.obstacles s ->
        Three.z (ObstacleManager.position o) < limit ->
        ~ inUse s' (ObstacleManager.mesh o)
        /\ forall ch, ObstacleManager.scene s' = Some ch ->
             ObstacleManager.mesh o ∉ ch).
Proof.
  intros Hinv s' limit. subst s' limit.
  unfold ObstacleManager.cleanupObstacles.
  pose proof (cleanupFilter_kept carPosition (ObstacleManager.obstacles s) s)
    as Hkept.
  pose proof (cleanupFilter_released carPosition (ObstacleManager.obstacles s) s)
    as Hrel.
  pose proof (cleanupFilter_spec carPosition (ObstacleManager.obstacles s) s
                (used_NoDup _ Hinv)) as (_ & _ & Hsame).
  destruct (ObstacleManager.cleanupFilter carPosition
              (ObstacleManager.obstacles s) s) as [kept s1].
  cbn [fst snd] in *. cbn [ObstacleManager.obstacles ObstacleManager.set_obstacles
    ObstacleManager.meshes ObstacleManager.scene].
  split; [exact Hkept|]. split.
  - intros o Ho.
    assert (Hin : o ∈ kept) by exact Ho.
    rewrite Hkept in Ho. apply list_elem_of_In, filter_In in Ho.
    destruct Ho as [Ho Hb]. apply negb_true_iff, Qltb_false in Hb.
    split; [apply list_elem_of_In, Ho|]. split; [exact Hb|].
    apply Hsame. apply list_elem_of_fmap. exists o. split; [reflexivity | exact Hin].
  - intros o Ho Hb. apply (Hrel o Ho Hb).
Qed.

Lemma cleanupObstacles_keeps_what_is_ahead_witness :
  let s' := ObstacleManager.cleanupObstacles farAhead sessionStart in
  let limit := Three.z farAhead + ObstacleManager.despawnDistance sessionStart in
  ObstacleManager.obstacles s'
  = List.filter
      (fun o => negb (Qltb (Three.z (ObstacleManager.position o)) limit))
      (ObstacleManager.obstacles sessionStart)
  /\ (forall o, o ∈ ObstacleManager.obstacles s' ->
        o ∈ ObstacleManager.obstacles sessionStart
        /\ limit <= Three.z (ObstacleManager.position o)
        /\ ObstacleManager.meshes s' !! ObstacleManager.mesh o
           = ObstacleManager.meshes sessionStart !! ObstacleManager.mesh o)
  /\ (forall o, o ∈ ObstacleManager.obstacles sessionStart ->
        Three.z (ObstacleManager.position o) < limit ->
        ~ inUse s' (ObstacleManager.mesh o)
        /\ forall ch, ObstacleManager.scene s' = Some ch ->
             ObstacleManager.mesh o ∉ ch).
Proof.
  apply (cleanupObstacles_keeps_what_is_ahead farAhead sessionStart).
  apply (si_pool _
           (reachable_invariant halves obstacleBox sessionStart
              (reachable_initialize halves obstacleBox))).
Defined.

Section Keeps.
Import Three ObstacleManager.

Variable Math_random : nat -> Q.
Variable setFromObject : ObstacleType -> Mesh -> Box3.

Variable P : ObstacleManager.t -> Prop.
Hypothesis P_objects : objects_only P.
Hypothesis P_create :
  forall ty px pz, keeps P (createObstacle setFromObject ty px pz).
Hypothesis P_scale : forall i v s, P s -> P (setMeshScaleX i v s).
Hypothesis P_motion :
  forall i sp dir s, sideways dir -> P s -> P (setMotion i sp dir s).

Lemma keeps_ret {A} (a : A) : keeps P (ret a).
Proof. intros s Hs. exact Hs. Qed.

Lemma keeps_bind {A B} (m : M A) (k : A -> M B) :
  keeps P m -> (forall a, keeps P (k a)) -> keeps P (bind m k).
Proof.
  intros Hm Hk s Hs. unfold bind. specialize (Hm s Hs).
  destruct (m s) as [a s1]. apply Hk, Hm.
Qed.

Lemma keeps_random_ : keeps P (random_ Math_random).
Proof.
  intros s Hs. unfold random_. cbn [snd].
  revert Hs. apply P_objects; reflexivity.
Qed.

Lemma keeps_random (lo hi : Q) :
  keeps P (ObstacleManager.random Math_random lo hi).
Proof.
  unfold ObstacleManager.random.
  apply keeps_bind; [apply keeps_random_ | intros r; apply keeps_ret].
Qed.

Lemma keeps_forLoop (n : nat) (start : Z) (body : Z -> M unit) :
  (forall i, keeps P (body i)) -> keeps P (forLoop n start body).
Proof.
  intros Hb. revert start. induction n as [|n IH]; intros start;
    cbn [forLoop].
  - apply keeps_ret.
  - apply keeps_bind; [apply Hb | intros _; apply IH].
Qed.

Lemma keeps_scaled (ty : ObstacleType) (px pz v : Q) :
  keeps P (bind (createObstacle setFromObject ty px pz)
             (fun created =>
                match created with
                | Some i => modify (setMeshScaleX i v)
                | None => ret tt
                end)).
Proof.
  apply keeps_bind; [apply P_create|].
  intros [i|]; [|apply keeps_ret]. intros s Hs. apply P_scale, Hs.
Qed.

Lemma keeps_spawnPattern (p : Pattern) (pz : Q) :
  keeps P (spawnPattern Math_random setFromObject p pz).
Proof.
  destruct p; cbn [spawnPattern].
  - unfold spawnSingleBarrier.
    apply keeps_bind; [apply keeps_random | intros px].
    apply keeps_bind; [apply P_create | intros _; apply keeps_ret].
  - unfold spawnDoubleBarrier.
    apply keeps_bind; [apply keeps_random | intros gap].
    apply keeps_bind; [apply keeps_random | intros centerX].
    do 2 (apply keeps_bind; [apply P_create | intros _]). apply keeps_ret.
  - unfold spawnWallGap.
    apply keeps_bind; [apply keeps_random | intros gapCenter].
    apply keeps_bind; [apply keeps_random | intros gapWidth].
    apply keeps_bind; [|intros _].
    + destruct (Qltb _ _); [apply keeps_scaled | apply keeps_ret].
    + destruct (Qltb _ _); [apply keeps_scaled | apply keeps_ret].
  - intros s. unfold spawnConeSlalom.
    apply keeps_forLoop. intros i.
    apply keeps_bind; [apply keeps_random | intros r].
    apply keeps_bind; [apply P_create | intros _; apply keeps_ret].
  - intros s. unfold spawnNarrowPassage.
    do 4 (apply keeps_bind; [apply P_create | intros _]). apply keeps_ret.
  - unfold spawnMovingBarriers.
    apply keeps_bind; [apply P_create | intros leftBarrier].
    apply keeps_bind; [apply P_create | intros rightBarrier].
    apply keeps_bind; [|intros _].
    + destruct leftBarrier as [i|]; [|apply keeps_ret].
      apply keeps_bind; [apply keeps_random | intros sp].
      intros s Hs. apply P_motion; [split; reflexivity | exact Hs].
    + destruct rightBarrier as [i|]; [|apply keeps_ret].
      apply keeps_bind; [apply keeps_random | intros sp].
      intros s Hs. apply P_motion; [split; reflexivity | exact Hs].
Qed.

Lemma keeps_spawnObstaclePattern (pz : Q) :
  keeps P (spawnObstaclePattern Math_random setFromObject pz).
Proof.
  intros s Hs. unfold spawnObstaclePattern.
  destruct (scene s); [|exact Hs].
  revert s Hs. apply keeps_bind; [apply keeps_random_ | intros r].
  destruct (patternAt r) as [p|]; [|apply keeps_ret].
  apply keeps_bind; [|intros _; apply keeps_spawnPattern].
  intros s Hs. cbn [modify snd]. revert Hs. apply P_objects; reflexivity.
Qed.

Lemma keeps_spawnInitialObstacles :
  keeps P (spawnInitialObstacles Math_random setFromObject).
Proof.
  unfold spawnInitialObstacles.
  repeat (apply keeps_bind; [apply keeps_spawnObstaclePattern | intros _]).
  apply keeps_spawnObstaclePattern.
Qed.

Lemma keeps_spawnLoop (spawnZ : Q) (fuel : nat) :
  forall s s',
    P s -> spawnLoop Math_random setFromObject fuel spawnZ s = Some s' -> P s'.
Proof.
  induction fuel as [|fuel IH]; intros s s' Hs.
  - rewrite spawnLoop_zero. destruct (Qltb _ _); [discriminate|].
    intros H. injection H as <-. exact Hs.
  - rewrite spawnLoop_unfold. destruct (Qltb _ _).
    + apply IH. apply keeps_spawnObstaclePattern.
      revert Hs. apply P_objects; reflexivity.
    + intros H. injection H as <-. exact Hs.
Qed.

End Keeps.

Section CoherentSessions.
Import Three ObstacleManager.

Variable Math_random : nat -> Q.
Variable setFromObject : ObstacleType -> Mesh -> Box3.

Local Abbreviation reachable := (reachable Math_random setFromObject).

Lemma coherent_objects : objects_only coherent.
Proof.
  intros s s' Eo Em Es Ep [H1 H2 H3]. constructor.
  - revert H1. apply pool_invariant_ext; assumption.
  - rewrite Eo. exact H2.
  - rewrite Eo. eapply Forall_impl; [exact H3|].
    intros o Ho. unfold in_step in *. rewrite Em. exact Ho.
Qed.

Lemma coherent_create (ty : ObstacleType) (px pz : Q) :
  keeps coherent (createObstacle setFromObject ty px pz).
Proof.
  intros s [H1 H2 H3].
  destruct (sound_createObstacle Math_random setFromObject ty px pz s) as [_ Hp].
  constructor; [apply Hp, H1| |]; unfold createObstacle;
    destruct (scene s) as [children|]; try assumption;
    destruct (getObstacleFromPool ty s) as [a|] eqn:Hg; try assumption;
    cbn [snd obstacles set_obstacles sceneAdd set_scene set_meshes meshes].
  - apply Forall_app. split; [exact H2|]. repeat constructor.
  - apply (getObstacleFromPool_Some Math_random) in Hg. destruct Hg as [_ Hfree].
    apply Forall_app. split.
    + apply Forall_forall. intros o Ho.
      pose proof (proj1 (Forall_forall _ _) H3 o Ho) as Hstep.
      assert (Hused : inUse s (mesh o)).
      { apply (used_inUse _ H1). unfold used. apply list_elem_of_fmap.
        exists o. split; [reflexivity | exact Ho]. }
      unfold in_step, inUse in *.
      cbn [meshes set_obstacles set_scene sceneAdd set_meshes].
      rewrite lookup_alter_ne; [exact Hstep|]. intros ->. congruence.
    + repeat constructor. unfold in_step.
      cbn [meshes mesh position set_obstacles set_scene sceneAdd set_meshes].
      rewrite lookup_alter_eq.
      destruct (meshes s !! a) as [m|]; [reflexivity | discriminate].
Qed.

Lemma coherent_scale (i : nat) (v : Q) (s : ObstacleManager.t) :
  coherent s -> coherent (setMeshScaleX i v s).
Proof.
  intros [H1 H2 H3].
  destruct (sound_setMeshScaleX Math_random i v s) as [_ Hp].
  constructor; [apply Hp, H1| |]; unfold setMeshScaleX;
    destruct (obstacles s !! i) as [o0|]; try assumption;
    cbn [obstacles set_meshes meshes].
  - eapply Forall_impl; [exact H3|]. intros o Ho.
    unfold in_step in *. cbn [meshes set_meshes].
    destruct (decide (mesh o0 = mesh o)) as [E|Hne].
    + rewrite E, lookup_alter_eq.
      destruct (meshes s !! mesh o) as [m|]; [exact Ho | discriminate].
    + rewrite lookup_alter_ne by exact Hne. exact Ho.
Qed.

Lemma coherent_motion (i : nat) (sp : Q) (dir : Vector3)
    (s : ObstacleManager.t) :
  coherent s -> coherent (setMotion i sp dir s).
Proof.
  intros [H1 H2 H3].
  destruct (sound_setMotion Math_random i sp dir s) as [_ Hp].
  constructor; [apply Hp, H1| |]; unfold setMotion;
    cbn [obstacles set_obstacles].
  - apply Forall_alter; [exact H2|]. intros o _ Ho. exact Ho.
  - apply (Forall_alter (in_step s)); [exact H3|]. intros o _ Ho. exact Ho.
Qed.

Lemma cleanupObstacles_obstacles (carPosition : Vector3)
    (s : ObstacleManager.t) :
  obstacles (cleanupObstacles carPosition s)
  = fst (cleanupFilter carPosition (obstacles s) s)
  /\ meshes (cleanupObstacles carPosition s)
     = meshes (snd (cleanupFilter carPosition (obstacles s) s)).
Proof.
  unfold cleanupObstacles.
  destruct (cleanupFilter carPosition (obstacles s) s) as [kept s1].
  split; reflexivity.
Qed.

Lemma coherent_cleanup (carPosition : Vector3) (s : ObstacleManager.t) :
  coherent s -> coherent (cleanupObstacles carPosition s).
Proof.
  intros [H1 H2 H3].
  destruct (cleanupObstacles_spec carPosition s) as [_ Hp].
  destruct (cleanupObstacles_obstacles carPosition s) as [Eo Em].
  pose proof (cleanupFilter_kept carPosition (obstacles s) s) as Hkept.
  destruct (cleanupFilter_spec carPosition (obstacles s) s (used_NoDup _ H1))
    as (_ & _ & Hsame).
  cbv zeta in Hsame.
  assert (Hsub : forall o, o ∈ fst (cleanupFilter carPosition (obstacles s) s) ->
                   o ∈ obstacles s).
  { intros o Ho. rewrite Hkept in Ho.
    apply list_elem_of_In, filter_In in Ho. apply list_elem_of_In, Ho. }
  constructor; [apply Hp, H1| |]; rewrite Eo; apply Forall_forall; intros o Ho.
  - apply (proj1 (Forall_forall _ _) H2 o (Hsub o Ho)).
  - pose proof (proj1 (Forall_forall _ _) H3 o (Hsub o Ho)) as Hstep.
    unfold in_step in *. rewrite Em, Hsame; [exact Hstep|].
    apply list_elem_of_fmap. exists o. split; [reflexivity | exact Ho].
Qed.

Lemma moveObstacle_coherent (deltaTime : Q) (o : ObstacleData nat)
    (s : ObstacleManager.t) :
  let o' := fst (moveObstacle setFromObject deltaTime o s) in
  let s' := snd (moveObstacle setFromObject deltaTime o s) in
  isActive o' = isActive o
  /\ (in_step s o -> in_step s' o')
  /\ (forall a, a <> mesh o -> meshes s' !! a = meshes s !! a).
Proof.
  unfold moveObstacle.
  destruct (speed o) as [sp|]; [|cbn; tauto].
  destruct (direction o) as [dir|]; [|cbn; tauto].
  destruct (Qeq_bool sp 0); [cbn; tauto|].
  destruct (meshes s !! mesh o) as [m|] eqn:E; [|cbn; tauto].
  cbn [fst snd isActive meshes set_meshes]. split; [reflexivity|]. split.
  - intros _. unfold in_step. cbn [meshes set_meshes mesh position].
    rewrite lookup_insert_eq. reflexivity.
  - intros a Hne. rewrite lookup_insert_ne by congruence. reflexivity.
Qed.

Lemma moveAll_coherent (deltaTime : Q) (obs : list (ObstacleData nat)) :
  forall s : ObstacleManager.t,
    NoDup (mesh <$> obs) ->
    Forall (fun o => isActive o = true) obs ->
    Forall (in_step s) obs ->
    let obs' := fst (moveAll setFromObject deltaTime obs s) in
    let s' := snd (moveAll setFromObject deltaTime obs s) in
    Forall (fun o => isActive o = true) obs'
    /\ Forall (in_step s') obs'
    /\ (forall a, a ∉ mesh <$> obs -> meshes s' !! a = meshes s !! a).
Proof.
  induction obs as [|o rest IH]; intros s Hnd Hact Hstep.
  - cbn. split_and!; [constructor | constructor | reflexivity].
  - cbn [moveAll].
    destruct (moveObstacle_coherent deltaTime o s) as (Ea & Es & Ef).
    destruct (moveObstacle_spec setFromObject deltaTime o s) as (Em & _).
    cbv zeta in Em.
    destruct (moveObstacle setFromObject deltaTime o s) as [o1 s1].
    cbn [fst snd] in *.
    rewrite fmap_cons in Hnd. apply NoDup_cons in Hnd.
    destruct Hnd as [Hnotin Hnd].
    apply Forall_cons in Hact. destruct Hact as [Ho Hact].
    apply Forall_cons in Hstep. destruct Hstep as [Hso Hstep].
    assert (Hstep1 : Forall (in_step s1) rest).
    { apply Forall_forall. intros r Hr.
      pose proof (proj1 (Forall_forall _ _) Hstep r Hr) as Hsr.
      unfold in_step in *. rewrite Ef; [exact Hsr|].
      intros E. apply Hnotin. rewrite <- E. apply list_elem_of_fmap.
      exists r. split; [reflexivity | exact Hr]. }
    specialize (IH s1 Hnd Hact Hstep1). cbv zeta in IH.
    destruct (moveAll setFromObject deltaTime rest s1) as [rest1 s2].
    cbn [fst snd] in *. destruct IH as (I1 & I2 & I3).
    split_and!.
    + constructor; [congruence | exact I1].
    + constructor; [|exact I2].
      specialize (Es Hso). unfold in_step in *.
      rewrite I3; [exact Es|]. rewrite Em. exact Hnotin.
    + intros a Ha. rewrite fmap_cons in Ha. apply not_elem_of_cons in Ha.
      destruct Ha as [Hne Ha]. rewrite I3 by exact Ha. apply Ef, Hne.
Qed.

Lemma coherent_moving (deltaTime : Q) (s : ObstacleManager.t) :
  coherent s -> coherent (updateMovingObstacles setFromObject deltaTime s).
Proof.
  intros [H1 H2 H3].
  destruct (updateMovingObstacles_spec setFromObject deltaTime s) as [_ Hp].
  destruct (moveAll_coherent deltaTime (obstacles s) s (used_NoDup _ H1) H2 H3)
    as (M1 & M2 & _).
  constructor; [apply Hp, H1| |]; unfold updateMovingObstacles;
    destruct (moveAll setFromObject deltaTime (obstacles s) s) as [obs s1];
    cbn [fst snd obstacles set_obstacles] in *; assumption.
Qed.

Lemma coherent_empty (s : ObstacleManager.t) :
  obstacles s = [] ->
  (forall ty pool, obstaclePool s !! ty = Some pool ->
     (length pool <= poolSize)%nat) ->
  coherent s.
Proof.
  intros E Hsizes. constructor.
  - apply empty_pool_invariant; assumption.
  - rewrite E. constructor.
  - rewrite E. constructor.
Qed.

Lemma coherent_spawnInitialObstacles :
  keeps coherent (spawnInitialObstacles Math_random setFromObject).
Proof.
  apply keeps_spawnInitialObstacles;
    [apply coherent_objects | apply coherent_create | apply coherent_scale
    | intros i sp dir s0 _; apply coherent_motion].
Qed.

Lemma reachable_coherent (s : ObstacleManager.t) : reachable s -> coherent s.
Proof.
  induction 1 as [|fuel dt p s s' Hs IH Hdt Hup|s Hs IH].
  - unfold initialize. apply coherent_spawnInitialObstacles.
    destruct (createObstaclePool_spec (set_scene (Some ∅) ObstacleManager.new))
      as (Eo & _ & _ & _ & _ & Hsz).
    apply coherent_empty; [rewrite Eo; reflexivity|].
    intros ty pool Hpool. rewrite (Hsz ty pool Hpool). reflexivity.
  - unfold ObstacleManager.update in Hup. cbv zeta in Hup.
    destruct (spawnObstacles _ _ _ _ _) as [s4|] eqn:E; [|discriminate].
    injection Hup as <-. apply coherent_moving.
    unfold spawnObstacles in E. revert E.
    apply keeps_spawnLoop;
      [apply coherent_objects | apply coherent_create | apply coherent_scale
      | intros i sp dir s0 _; apply coherent_motion |].
    apply coherent_cleanup. revert IH. apply coherent_objects; reflexivity.
  - unfold reset. cbv zeta. apply coherent_spawnInitialObstacles.
    apply coherent_empty; [reflexivity|].
    intros ty pool Hpool. cbn in Hpool.
    rewrite (fr_pool _ _ (returnAll_frame (obstacles s) s)) in Hpool.
    apply (pool_sizes _ (co_pool _ IH) ty pool Hpool).
Qed.

End CoherentSessions.

Lemma getObstacles_all (s : ObstacleManager.t) :
  Forall (fun o => ObstacleManager.isActive o = true)
    (ObstacleManager.obstacles s) ->
  ObstacleManager.getObstacles s = ObstacleManager.obstacles s.
Proof.
  unfold ObstacleManager.getObstacles.
  generalize (ObstacleManager.obstacles s).
  induction 1 as [|o l Ho _ IH]; [reflexivity|].
  rewrite filter_cons_True by exact Ho. rewrite IH. reflexivity.
Qed.

(** X23. In every state of a session the obstacle list is coherent: every
    obstacle is active, so [getObstacles] returns the whole list and
    [getActiveObstacleCount] counts what it returns; no two obstacles share
    a mesh; and each obstacle's mesh is shown and sits exactly where the
    obstacle's record says, moving obstacles included. *)
Theorem obstacles_listed_active_and_in_place (Math_random : nat -> Q)
    (setFromObject : ObstacleManager.ObstacleType -> ObstacleManager.Mesh
                     -> Three.Box3)
    (s : ObstacleManager.t) :
  reachable Math_random setFromObject s ->
  ObstacleManager.getObstacles s = ObstacleManager.obstacles s
  /\ ObstacleManager.getActiveObstacleCount s
     = length (ObstacleManager.getObstacles s)
  /\ NoDup (ObstacleManager.mesh <$> ObstacleManager.obstacles s)
  /\ forall o, o ∈ ObstacleManager.obstacles s ->
       ObstacleManager.isActive o = true
       /\ exists m,
            ObstacleManager.meshes s !! ObstacleManager.mesh o = Some m
            /\ ObstacleManager.visible m = true
            /\ ObstacleManager.mesh_position m = ObstacleManager.position o.
Proof.
  intros Hs.
  destruct (reachable_coherent Math_random setFromObject s Hs) as [H1 H2 H3].
  assert (Hall : ObstacleManager.getObstacles s = ObstacleManager.obstacles s).
  { apply getObstacles_all, H2. }
  split; [exact Hall|]. split; [rewrite Hall; reflexivity|].
  split; [exact (used_NoDup _ H1)|].
  intros o Ho. split; [apply (proj1 (Forall_forall _ _) H2 o Ho)|].
  pose proof (proj1 (Forall_forall _ _) H3 o Ho) as Hstep.
  assert (Hused : inUse s (ObstacleManager.mesh o)).
  { apply (used_inUse _ H1). unfold used. apply list_elem_of_fmap.
    exists o. split; [reflexivity | exact Ho]. }
  unfold in_step, inUse in *.
  destruct (ObstacleManager.meshes s !! ObstacleManager.mesh o) as [m|];
    [|discriminate].
  exists m. cbn in Hstep, Hused. split; [reflexivity|].
  split; congruence.
Qed.

Lemma obstacles_listed_active_and_in_place_witness :
  ObstacleManager.getObstacles afterUpdate = ObstacleManager.obstacles afterUpdate
  /\ ObstacleManager.getActiveObstacleCount afterUpdate
     = length (ObstacleManager.getObstacles afterUpdate)
  /\ NoDup (ObstacleManager.mesh <$> ObstacleManager.obstacles afterUpdate)
  /\ forall o, o ∈ ObstacleManager.obstacles afterUpdate ->
       ObstacleManager.isActive o = true
       /\ exists m,
            ObstacleManager.meshes afterUpdate !! ObstacleManager.mesh o = Some m
            /\ ObstacleManager.visible m = true
            /\ ObstacleManager.mesh_position m = ObstacleManager.position o.
Proof.
  apply (obstacles_listed_active_and_in_place halves obstacleBox afterUpdate).
  apply (reachable_update halves obstacleBox 4 1 startLine sessionStart).
  - apply reachable_initialize.
  - discriminate.
  - vm_compute. reflexivity.
Defined.

Section IdleManager.
Import Three ObstacleManager.

Variable Math_random : nat -> Q.
Variable setFromObject : ObstacleType -> Mesh -> Box3.

Lemma cannot_spawn_objects : objects_only cannot_spawn.
Proof.
  intros s s' Eo Em Es Ep [H1 H2]. unfold cannot_spawn.
  rewrite Eo, Es, Ep. split; assumption.
Qed.

Lemma cannot_spawn_create (ty : ObstacleType) (px pz : Q) (s : ObstacleManager.t) :
  cannot_spawn s -> createObstacle setFromObject ty px pz s = (None, s).
Proof.
  intros [[H|H] _]; unfold createObstacle.
  - rewrite H. reflexivity.
  - destruct (scene s); [|reflexivity].
    unfold getObstacleFromPool. rewrite H, lookup_empty. reflexivity.
Qed.

Lemma cannot_spawn_keeps_create (ty : ObstacleType) (px pz : Q) :
  keeps cannot_spawn (createObstacle setFromObject ty px pz).
Proof. intros s Hs. rewrite (cannot_spawn_create ty px pz s Hs). exact Hs. Qed.

Lemma cannot_spawn_scale (i : nat) (v : Q) (s : ObstacleManager.t) :
  cannot_spawn s -> cannot_spawn (setMeshScaleX i v s).
Proof.
  intros Hs. unfold setMeshScaleX.
  destruct (obstacles s !! i); exact Hs.
Qed.

Lemma cannot_spawn_motion (i : nat) (sp : Q) (dir : Vector3)
    (s : ObstacleManager.t) :
  cannot_spawn s -> cannot_spawn (setMotion i sp dir s).
Proof.
  intros [H1 H2]. unfold cannot_spawn, setMotion.
  cbn [scene obstaclePool obstacles set_obstacles]. rewrite H2.
  split; [exact H1 | reflexivity].
Qed.

Lemma cannot_spawn_update (fuel : nat) (deltaTime : Q) (carPosition : Vector3)
    (s s' : ObstacleManager.t) :
  cannot_spawn s ->
  update Math_random setFromObject fuel deltaTime carPosition s = Some s' ->
  cannot_spawn s'.
Proof.
  intros Hs Hup. unfold ObstacleManager.update in Hup. cbv zeta in Hup.
  destruct (spawnObstacles _ _ _ _ _) as [s4|] eqn:E; [|discriminate].
  injection Hup as <-.
  assert (H4 : cannot_spawn s4).
  { unfold spawnObstacles in E. revert E.
    apply keeps_spawnLoop;
      [apply cannot_spawn_objects | apply cannot_spawn_keeps_create
      | apply cannot_spawn_scale
      | intros i sp dir s0 _; apply cannot_spawn_motion |].
    destruct Hs as [H1 H2]. unfold cleanupObstacles, updateDifficulty.
    cbn [obstacles set_difficulty set_timeSinceStart]. rewrite H2.
    cbn [cleanupFilter]. split; [exact H1 | reflexivity]. }
  destruct H4 as [H1 H2]. unfold updateMovingObstacles. rewrite H2.
  cbn [moveAll]. split; [exact H1 | reflexivity].
Qed.

Lemma cannot_spawn_reset (s : ObstacleManager.t) :
  cannot_spawn s -> cannot_spawn (reset Math_random setFromObject s).
Proof.
  intros [H1 H2].
  pose proof (keeps_spawnInitialObstacles Math_random setFromObject
                cannot_spawn cannot_spawn_objects cannot_spawn_keeps_create
                cannot_spawn_scale
                (fun i sp dir s0 _ => cannot_spawn_motion i sp dir s0)) as K.
  unfold reset. rewrite H2. cbn [fold_left]. apply K.
  split; [exact H1 | reflexivity].
Qed.

Lemma sceneRemove_all_subset (obs : list (ObstacleData nat)) :
  forall (s : ObstacleManager.t) ch',
    scene (fold_left (fun st o => sceneRemove (mesh o) st) obs s) = Some ch' ->
    exists ch, scene s = Some ch /\ ch' ⊆ ch.
Proof.
  induction obs as [|o rest IH]; intros s ch' H; cbn [fold_left] in H.
  - exists ch'. split; [exact H | reflexivity].
  - destruct (IH _ _ H) as (ch1 & E1 & S1).
    unfold sceneRemove in E1. cbn [scene set_scene] in E1.
    destruct (scene s) as [ch|]; [|discriminate]. cbn in E1.
    exists ch. split; [reflexivity|]. simplify_eq.
    transitivity (ch ∖ {[mesh o]}); [exact S1|].
    apply subseteq_difference_l. reflexivity.
Qed.

Lemma sceneRemove_all_removed (obs : list (ObstacleData nat)) :
  forall (s : ObstacleManager.t) o ch',
    o ∈ obs ->
    scene (fold_left (fun st o => sceneRemove (mesh o) st) obs s) = Some ch' ->
    mesh o ∉ ch'.
Proof.
  induction obs as [|o1 rest IH]; intros s o ch' Ho H;
    [apply elem_of_nil in Ho; contradiction|].
  cbn [fold_left] in H. apply elem_of_cons in Ho. destruct Ho as [->|Ho].
  - destruct (sceneRemove_all_subset rest _ _ H) as (ch1 & E1 & S1).
    unfold sceneRemove in E1. cbn [scene set_scene] in E1.
    destruct (scene s) as [ch|]; [|discriminate]. cbn in E1. simplify_eq.
    intros Hel. apply S1 in Hel. apply elem_of_difference in Hel.
    destruct Hel as [_ Hel]. apply Hel, elem_of_singleton. reflexivity.
  - apply (IH _ _ _ Ho H).
Qed.

End IdleManager.

(** X24. A manager with nothing to spawn from never shows an obstacle. That
    is the case before [initialize] (there is no scene yet) and after
    [dispose] (the pools are gone, and the obstacles' meshes have left the
    scene): every later [update] and [reset] leaves the obstacle list
    empty. *)
Theorem idle_manager_spawns_nothing (Math_random : nat -> Q)
    (setFromObject : ObstacleManager.ObstacleType -> ObstacleManager.Mesh
                     -> Three.Box3)
    (fuel : nat) (deltaTime : Q) (carPosition : Three.Vector3)
    (s0 s s' : ObstacleManager.t) :
  s = ObstacleManager.new \/ s = ObstacleManager.dispose s0 ->
  ObstacleManager.update Math_random setFromObject fuel deltaTime carPosition s
  = Some s' ->
  ObstacleManager.getObstacles s' = []
  /\ ObstacleManager.getActiveObstacleCount s' = 0%nat
  /\ cannot_spawn s'
  /\ ObstacleManager.getObstacles
       (ObstacleManager.reset Math_random setFromObject s') = []
  /\ (forall o ch, o ∈ ObstacleManager.obstacles s0 ->
        ObstacleManager.scene (ObstacleManager.dispose s0) = Some ch ->
        ObstacleManager.mesh o ∉ ch).
Proof.
  intros Hs Hup.
  assert (H0 : cannot_spawn s).
  { destruct Hs as [->| ->].
    - split; [left|]; reflexivity.
    - split; [right|]; reflexivity. }
  pose proof (cannot_spawn_update Math_random setFromObject _ _ _ _ _ H0 Hup)
    as H1.
  pose proof (cannot_spawn_reset Math_random setFromObject s' H1) as H2.
  unfold ObstacleManager.getObstacles, ObstacleManager.getActiveObstacleCount.
  rewrite (proj2 H1), (proj2 H2).
  split; [reflexivity|]. split; [reflexivity|]. split; [exact H1|].
  split; [reflexivity|].
  intros o ch Ho Hch. unfold ObstacleManager.dispose in Hch.
  cbn [ObstacleManager.scene ObstacleManager.set_obstaclePool
         ObstacleManager.set_obstacles] in Hch.
  apply (sceneRemove_all_removed _ _ _ _ Ho Hch).
Qed.

Lemma idle_manager_spawns_nothing_witness :
  ObstacleManager.getObstacles beforeInitialize = []
  /\ ObstacleManager.getActiveObstacleCount beforeInitialize = 0%nat
  /\ cannot_spawn beforeInitialize
  /\ ObstacleManager.getObstacles
       (ObstacleManager.reset halves obstacleBox beforeInitialize) = []
  /\ (forall o ch, o ∈ ObstacleManager.obstacles sessionStart ->
        ObstacleManager.scene (ObstacleManager.dispose sessionStart) = Some ch ->
        ObstacleManager.mesh o ∉ ch).
Proof.
  apply (idle_manager_spawns_nothing halves obstacleBox 4 1 startLine
           sessionStart ObstacleManager.new beforeInitialize).
  - left. reflexivity.
  - vm_compute. reflexivity.
Defined.

Section MovingObstacles.
Import Three ObstacleManager.

Variable Math_random : nat -> Q.
Variable setFromObject : ObstacleType -> Mesh -> Box3.

Local Abbreviation reachable := (reachable Math_random setFromObject).
Local Abbreviation moveObstacle := (ObstacleManager.moveObstacle setFromObject).
Local Abbreviation moveAll := (ObstacleManager.moveAll setFromObject).

Lemma sideways_objects : objects_only moves_sideways.
Proof.
  intros s s' Eo _ _ _ H. unfold moves_sideways. rewrite Eo. exact H.
Qed.

Lemma sideways_create (ty : ObstacleType) (px pz : Q) :
  keeps moves_sideways (createObstacle setFromObject ty px pz).
Proof.
  intros s H. unfold createObstacle.
  destruct (scene s); [|exact H].
  destruct (getObstacleFromPool ty s); [|exact H].
  unfold moves_sideways.
  cbn [snd obstacles set_obstacles sceneAdd set_scene set_meshes].
  apply Forall_app. split; [exact H|].
  constructor; [|constructor]. intros d Hd. discriminate.
Qed.

Lemma sideways_scale (i : nat) (v : Q) (s : ObstacleManager.t) :
  moves_sideways s -> moves_sideways (setMeshScaleX i v s).
Proof.
  intros H. unfold setMeshScaleX. destruct (obstacles s !! i); exact H.
Qed.

Lemma sideways_motion (i : nat) (sp : Q) (dir : Vector3)
    (s : ObstacleManager.t) :
  sideways dir -> moves_sideways s -> moves_sideways (setMotion i sp dir s).
Proof.
  intros Hdir H. unfold moves_sideways, setMotion.
  cbn [obstacles set_obstacles].
  apply Forall_alter; [exact H|]. intros o _ _ d Hd.
  cbn in Hd. injection Hd as <-. exact Hdir.
Qed.

Lemma sideways_cleanup (carPosition : Vector3) (s : ObstacleManager.t) :
  moves_sideways s -> moves_sideways (cleanupObstacles carPosition s).
Proof.
  intros H. unfold moves_sideways.
  rewrite (proj1 (cleanupObstacles_obstacles carPosition s)).
  rewrite cleanupFilter_kept. apply Forall_forall. intros o Ho.
  apply list_elem_of_In, filter_In in Ho. destruct Ho as [Ho _].
  apply (proj1 (Forall_forall _ _) H o), list_elem_of_In, Ho.
Qed.

(** One obstacle's step, case by case. *)
Lemma moveObstacle_cases (deltaTime : Q) (o : ObstacleData nat)
    (s : ObstacleManager.t) :
  let o' := fst (moveObstacle deltaTime o s) in
  mesh o' = mesh o /\ type o' = type o
  /\ (speed o = None -> o' = o)
  /\ (direction o = None -> o' = o)
  /\ (forall sp, speed o = Some sp -> sp == 0 -> o' = o)
  /\ (forall sp dir m,
        speed o = Some sp -> direction o = Some dir -> ~ sp == 0 ->
        meshes s !! mesh o = Some m ->
        let pos := add (mesh_position m) (multiplyScalar dir (sp * deltaTime)) in
        position o' = pos
        /\ speed o' = Some sp
        /\ direction o'
           = Some (if Qltb 7 (x pos) || Qltb (x pos) (-7)
                   then set_x dir (x dir * -1) else dir)
        /\ boundingBox o'
           = setFromObject (type o) (mkMesh (visible m) pos (scale_x m))).
Proof.
  unfold ObstacleManager.moveObstacle.
  destruct (speed o) as [sp|] eqn:Es;
    [|cbn; split_and!; try reflexivity; intros; discriminate].
  destruct (direction o) as [dir|] eqn:Ed;
    [|cbn; split_and!; try reflexivity; intros; discriminate].
  destruct (Qeq_bool sp 0) eqn:E0.
  { apply Qeq_bool_iff in E0. cbn. split_and!; try reflexivity.
    intros sp' dir' m Hsp _ Hne. injection Hsp as <-. contradiction. }
  destruct (meshes s !! mesh o) as [m|] eqn:Em.
  - cbn [fst mesh type]. split_and!; try reflexivity; try discriminate.
    + intros sp' Hsp H0. injection Hsp as <-.
      apply Qeq_bool_iff in H0. congruence.
    + intros sp' dir' m' Hsp Hdir _ Hm.
      injection Hsp as <-. injection Hdir as <-. injection Hm as <-.
      cbn. split_and!; reflexivity.
  - cbn. split_and!; try reflexivity; intros; discriminate.
Qed.

Lemma moveObstacle_ext (deltaTime : Q) (o : ObstacleData nat)
    (s s1 : ObstacleManager.t) :
  meshes s1 !! mesh o = meshes s !! mesh o ->
  fst (moveObstacle deltaTime o s1) = fst (moveObstacle deltaTime o s).
Proof.
  intros E. unfold ObstacleManager.moveObstacle. rewrite E.
  destruct (speed o); [|reflexivity].
  destruct (direction o); [|reflexivity].
  destruct (Qeq_bool _ _); [reflexivity|].
  destruct (meshes s !! mesh o); reflexivity.
Qed.

Lemma moveAll_lookup (deltaTime : Q) (obs : list (ObstacleData nat)) :
  forall (s : ObstacleManager.t) (i : nat) (o : ObstacleData nat),
    NoDup (mesh <$> obs) ->
    obs !! i = Some o ->
    fst (moveAll deltaTime obs s) !! i = Some (fst (moveObstacle deltaTime o s)).
Proof.
  induction obs as [|o1 rest IH]; intros s i o Hnd Hi; [discriminate|].
  cbn [ObstacleManager.moveAll].
  destruct (moveObstacle_coherent Math_random setFromObject deltaTime o1 s) as (_ & _ & Ef).
  cbv zeta in Ef.
  rewrite fmap_cons in Hnd. apply NoDup_cons in Hnd.
  destruct Hnd as [Hnotin Hnd].
  destruct i as [|j].
  - injection Hi as <-.
    destruct (moveObstacle deltaTime o1 s) as [o2 s1].
    destruct (moveAll deltaTime rest s1) as [rest1 s2]. reflexivity.
  - cbn in Hi.
    assert (Hne : mesh o <> mesh o1).
    { intros E. apply Hnotin. rewrite <- E. apply list_elem_of_fmap.
      exists o. split; [reflexivity|]. apply (list_elem_of_lookup_2 _ _ _ Hi). }
    specialize (Ef (mesh o) Hne).
    destruct (moveObstacle deltaTime o1 s) as [o2 s1]. cbn [snd] in Ef.
    specialize (IH s1 j o Hnd Hi).
    rewrite (moveObstacle_ext deltaTime o s s1 Ef) in IH.
    destruct (moveAll deltaTime rest s1) as [rest1 s2]. exact IH.
Qed.

Lemma moveAll_sideways (deltaTime : Q) (obs : list (ObstacleData nat)) :
  forall s : ObstacleManager.t,
    Forall (fun o => forall dir, direction o = Some dir -> sideways dir) obs ->
    Forall (fun o => forall dir, direction o = Some dir -> sideways dir)
      (fst (moveAll deltaTime obs s)).
Proof.
  induction obs as [|o rest IH]; intros s H; [constructor|].
  cbn [ObstacleManager.moveAll].
  apply Forall_cons in H. destruct H as [Ho H].
  assert (Ho1 : forall dir,
            direction (fst (moveObstacle deltaTime o s)) = Some dir ->
            sideways dir).
  { unfold ObstacleManager.moveObstacle.
    destruct (direction o) as [dir|] eqn:Ed.
    2:{ destruct (speed o); intros d Hd; cbn [fst] in Hd; rewrite Ed in Hd;
          discriminate. }
    destruct (speed o) as [sp|];
      [|intros d Hd; cbn [fst] in Hd; rewrite Ed in Hd; apply Ho, Hd].
    destruct (Qeq_bool sp 0);
      [intros d Hd; cbn [fst] in Hd; rewrite Ed in Hd; apply Ho, Hd|].
    destruct (meshes s !! mesh o) as [m|];
      [|intros d Hd; cbn [fst] in Hd; rewrite Ed in Hd; apply Ho, Hd].
    cbn [fst direction]. intros d Hdir. injection Hdir as <-.
    specialize (Ho dir eq_refl). destruct (_ || _); [|exact Ho].
    destruct Ho as [Hy Hz]. split; assumption. }
  destruct (moveObstacle deltaTime o s) as [o1 s1].
  specialize (IH s1 H).
  destruct (moveAll deltaTime rest s1) as [rest1 s2].
  constructor; assumption.
Qed.

Lemma sideways_moving (deltaTime : Q) (s : ObstacleManager.t) :
  moves_sideways s ->
  moves_sideways (updateMovingObstacles setFromObject deltaTime s).
Proof.
  intros H. pose proof (moveAll_sideways deltaTime (obstacles s) s H) as H1.
  unfold moves_sideways, updateMovingObstacles.
  destruct (moveAll deltaTime (obstacles s) s) as [obs s1]. exact H1.
Qed.

Lemma reachable_sideways (s : ObstacleManager.t) :
  reachable s -> moves_sideways s.
Proof.
  pose proof (keeps_spawnInitialObstacles Math_random setFromObject
                moves_sideways sideways_objects sideways_create
                sideways_scale sideways_motion) as K.
  induction 1 as [|fuel dt p s s' Hs IH Hdt Hup|s Hs IH].
  - unfold initialize. apply K.
    unfold moves_sideways.
    rewrite (proj1 (createObstaclePool_spec
                      (set_scene (Some ∅) ObstacleManager.new))).
    constructor.
  - unfold ObstacleManager.update in Hup. cbv zeta in Hup.
    destruct (spawnObstacles _ _ _ _ _) as [s4|] eqn:E; [|discriminate].
    injection Hup as <-. apply sideways_moving.
    unfold spawnObstacles in E. revert E.
    apply keeps_spawnLoop;
      [apply sideways_objects | apply sideways_create | apply sideways_scale
      | apply sideways_motion |].
    apply sideways_cleanup. exact IH.
  - unfold reset. cbv zeta. apply K. constructor.
Qed.

End MovingObstacles.

(** X25. What [updateMovingObstacles] does to the obstacles of a session
    state, one by one and in place: an obstacle without a speed, or with
    speed zero, is left as it is; a moving one is carried along its
    direction by speed times the frame's duration, which only changes its
    [x], and its direction is reversed once it is beyond 7 on either side.
    The record and the mesh move together. *)
Theorem moving_obstacles_move_sideways (Math_random : nat -> Q)
    (setFromObject : ObstacleManager.ObstacleType -> ObstacleManager.Mesh
                     -> Three.Box3)
    (deltaTime : Q) (s : ObstacleManager.t) (i : nat)
    (o : ObstacleManager.ObstacleData nat) :
  reachable Math_random setFromObject s ->
  ObstacleManager.obstacles s !! i = Some o ->
  let s' := ObstacleManager.updateMovingObstacles setFromObject deltaTime s in
  exists o',
    ObstacleManager.obstacles s' !! i = Some o'
    /\ ObstacleManager.mesh o' = ObstacleManager.mesh o
    /\ ObstacleManager.type o' = ObstacleManager.type o
    /\ in_step s' o'
    /\ Three.y (ObstacleManager.position o')
       == Three.y (ObstacleManager.position o)
    /\ Three.z (ObstacleManager.position o')
       == Three.z (ObstacleManager.position o)
    /\ (ObstacleManager.speed o = None -> o' = o)
    /\ (forall sp, ObstacleManager.speed o = Some sp -> sp == 0 -> o' = o)
    /\ (forall sp dir,
          ObstacleManager.speed o = Some sp ->
          ObstacleManager.direction o = Some dir -> ~ sp == 0 ->
          Three.x (ObstacleManager.position o')
          = Three.x (ObstacleManager.position o)
            + Three.x dir * (sp * deltaTime)
          /\ ObstacleManager.speed o' = Some sp
          /\ ObstacleManager.direction o'
             = Some (if Qltb 7 (Three.x (ObstacleManager.position o'))
                        || Qltb (Three.x (ObstacleManager.position o')) (-7)
                     then Three.set_x dir (Three.x dir * -1) else dir)).
Proof.
  intros Hs Hi s'.
  pose proof (reachable_coherent Math_random setFromObject s Hs) as Hco.
  pose proof (reachable_sideways Math_random setFromObject s Hs) as Hside.
  pose proof (coherent_moving Math_random setFromObject deltaTime s Hco)
    as Hco'.
  fold s' in Hco'.
  pose proof (moveAll_lookup Math_random setFromObject deltaTime
                (ObstacleManager.obstacles s) s i o
                (used_NoDup _ (co_pool _ Hco)) Hi) as Hlook.
  assert (Eobs : ObstacleManager.obstacles s'
                 = fst (ObstacleManager.moveAll setFromObject deltaTime
                          (ObstacleManager.obstacles s) s)).
  { unfold s', ObstacleManager.updateMovingObstacles.
    destruct (ObstacleManager.moveAll _ _ _ _) as [obs s1]. reflexivity. }
  rewrite <- Eobs in Hlook.
  set (o' := fst (ObstacleManager.moveObstacle setFromObject deltaTime o s))
    in *.
  pose proof (list_elem_of_lookup_2 _ _ _ Hi) as Hin.
  pose proof (list_elem_of_lookup_2 _ _ _ Hlook) as Hin'.
  pose proof (proj1 (Forall_forall _ _) (co_in_step _ Hco) o Hin) as Hstep.
  pose proof (proj1 (Forall_forall _ _) (co_in_step _ Hco') o' Hin') as Hstep'.
  pose proof (proj1 (Forall_forall _ _) Hside o Hin) as Hdir.
  cbv beta in Hdir.
  destruct (moveObstacle_cases setFromObject deltaTime o s)
    as (Em & Et & Hnone & Hnodir & Hzero & Hmove).
  fold o' in Em, Et, Hnone, Hnodir, Hzero, Hmove.
  unfold in_step in Hstep.
  destruct (ObstacleManager.meshes s !! ObstacleManager.mesh o) as [m|] eqn:Emesh;
    [|discriminate].
  cbn in Hstep. injection Hstep as Hpos.
  assert (Hmoved : forall sp dir,
            ObstacleManager.speed o = Some sp ->
            ObstacleManager.direction o = Some dir -> ~ sp == 0 ->
            ObstacleManager.position o'
            = Three.add (ObstacleManager.position o)
                (Three.multiplyScalar dir (sp * deltaTime))
            /\ ObstacleManager.speed o' = Some sp
            /\ ObstacleManager.direction o'
               = Some (if Qltb 7 (Three.x (ObstacleManager.position o'))
                          || Qltb (Three.x (ObstacleManager.position o')) (-7)
                       then Three.set_x dir (Three.x dir * -1) else dir)).
  { intros sp dir Hsp Hd Hnz.
    destruct (Hmove sp dir m Hsp Hd Hnz eq_refl) as (Ep & Esp & Edir & _).
    rewrite Hpos in Ep, Edir. split; [exact Ep|]. split; [exact Esp|].
    rewrite Ep. exact Edir. }
  exists o'. split; [exact Hlook|]. split; [exact Em|]. split; [exact Et|].
  split; [exact Hstep'|].
  assert (Hyz : Three.y (ObstacleManager.position o')
                == Three.y (ObstacleManager.position o)
                /\ Three.z (ObstacleManager.position o')
                   == Three.z (ObstacleManager.position o)).
  { destruct (ObstacleManager.speed o) as [sp|] eqn:Esp;
      [|rewrite (Hnone eq_refl); split; reflexivity].
    destruct (ObstacleManager.direction o) as [dir|] eqn:Ed;
      [|rewrite (Hnodir eq_refl); split; reflexivity].
    destruct (Qeq_dec sp 0) as [Hz|Hnz];
      [rewrite (Hzero sp eq_refl Hz); split; reflexivity|].
    destruct (Hmoved sp dir eq_refl eq_refl Hnz) as (-> & _).
    destruct (Hdir dir eq_refl) as [Hy Hz]. cbn. rewrite Hy, Hz.
    split; ring. }
  split; [apply Hyz|]. split; [apply Hyz|].
  split; [exact Hnone|]. split; [exact Hzero|].
  intros sp dir Hsp Hd Hnz.
  destruct (Hmoved sp dir Hsp Hd Hnz) as (Ep & Esp & Edir).
  split; [rewrite Ep; reflexivity|]. split; assumption.
Qed.

Lemma moving_obstacles_move_sideways_witness :
  let s' := ObstacleManager.updateMovingObstacles obstacleBox 1 movingStart in
  exists o',
    ObstacleManager.obstacles s' !! 0%nat = Some o'
    /\ ObstacleManager.mesh o' = ObstacleManager.mesh firstBarrier
    /\ ObstacleManager.type o' = ObstacleManager.type firstBarrier
    /\ in_step s' o'
    /\ Three.y (ObstacleManager.position o')
       == Three.y (ObstacleManager.position firstBarrier)
    /\ Three.z (ObstacleManager.position o')
       == Three.z (ObstacleManager.position firstBarrier)
    /\ (ObstacleManager.speed firstBarrier = None -> o' = firstBarrier)
    /\ (forall sp, ObstacleManager.speed firstBarrier = Some sp -> sp == 0 ->
          o' = firstBarrier)
    /\ (forall sp dir,
          ObstacleManager.speed firstBarrier = Some sp ->
          ObstacleManager.direction firstBarrier = Some dir -> ~ sp == 0 ->
          Three.x (ObstacleManager.position o')
          = Three.x (ObstacleManager.position firstBarrier)
            + Three.x dir * (sp * 1)
          /\ ObstacleManager.speed o' = Some sp
          /\ ObstacleManager.direction o'
             = Some (if Qltb 7 (Three.x (ObstacleManager.position o'))
                        || Qltb (Three.x (ObstacleManager.position o')) (-7)
                     then Three.set_x dir (Three.x dir * -1) else dir)).
Proof.
  apply (moving_obstacles_move_sideways nines obstacleBox 1 movingStart 0
           firstBarrier).
  - apply reachable_initialize.
  - vm_compute. reflexivity.
Defined.

(** The first barrier of that session moves right at speed 3.8, from
    [x = -4]. *)
Example firstBarrier_values :
  ObstacleManager.type firstBarrier = ObstacleManager.barrier
  /\ ObstacleManager.position firstBarrier = Three.mkVector3 (-4) 1 20
  /\ ObstacleManager.direction firstBarrier = Some (Three.mkVector3 1 0 0)
  /\ (ObstacleManager.speed firstBarrier = Some ((9 # 10) * (4 - 2) + 2)).
Proof. vm_compute. split_and!; reflexivity. Qed.

(** ** CollisionDetector.ts *)

(** X26. [checkCollisions] reports the first obstacle of the list, in order,
    that collides with the car (active, box intersecting the car's, reached
    by a ray of the narrow phase), with the result of its narrow phase; it
    reports no collision exactly when no obstacle of the list collides. The
    obstacles up to the one reported have their bounding boxes refreshed if
    they are active; the ones after it are not visited. *)
Theorem checkCollisions_reports_first_hit (M : Type)
    (setFromObject : M -> Three.Box3)
    (intersectObject :
       Three.Vector3 -> Three.Vector3 -> M -> list CollisionDetector.Intersection)
    (carBoundingBox : Three.Box3)
    (obstacles : list (ObstacleManager.ObstacleData M)) :
  let out :=
    CollisionDetector.checkCollisions M setFromObject intersectObject
      carBoundingBox obstacles in
  let hit := hits M setFromObject intersectObject carBoundingBox in
  match list_find (fun o => hit o = true) obstacles with
  | Some (i, o) =>
      CollisionDetector.result out
      = CollisionDetector.detailedCollisionCheck M intersectObject
          carBoundingBox (refreshed M setFromObject o)
      /\ CollisionDetector.hasCollision (CollisionDetector.result out) = true
      /\ CollisionDetector.obstacle (CollisionDetector.result out)
         = Some (refreshed M setFromObject o)
      /\ CollisionDetector.obstaclesAfter out
         = (refreshed M setFromObject <$> take (S i) obstacles)
           ++ drop (S i) obstacles
  | None =>
      CollisionDetector.result out = CollisionDetector.noCollision
      /\ CollisionDetector.obstaclesAfter out
         = (refreshed M setFromObject <$> obstacles)
  end.
Proof.
  intros out hit. subst out hit.
  induction obstacles as [|o rest IH];
    cbn [CollisionDetector.checkCollisions list_find];
    [split; reflexivity|].
  assert (Hskip :
    hits M setFromObject intersectObject carBoundingBox o = false ->
    forall out',
      CollisionDetector.result out'
      = CollisionDetector.result
          (CollisionDetector.checkCollisions M setFromObject intersectObject
             carBoundingBox rest) ->
      CollisionDetector.obstaclesAfter out'
      = refreshed M setFromObject o
        :: CollisionDetector.obstaclesAfter
             (CollisionDetector.checkCollisions M setFromObject intersectObject
                carBoundingBox rest) ->
      match
        (if decide (hits M setFromObject intersectObject carBoundingBox o = true)
         then Some (0%nat, o)
         else prod_map S id
                <$> list_find
                      (fun o0 =>
                         hits M setFromObject intersectObject carBoundingBox o0
                         = true) rest)
      with
      | Some (i, o0) =>
          CollisionDetector.result out'
          = CollisionDetector.detailedCollisionCheck M intersectObject
              carBoundingBox (refreshed M setFromObject o0)
          /\ CollisionDetector.hasCollision (CollisionDetector.result out')
             = true
          /\ CollisionDetector.obstacle (CollisionDetector.result out')
             = Some (refreshed M setFromObject o0)
          /\ CollisionDetector.obstaclesAfter out'
             = (refreshed M setFromObject <$> take (S i) (o :: rest))
               ++ drop (S i) (o :: rest)
      | None =>
          CollisionDetector.result out' = CollisionDetector.noCollision
          /\ CollisionDetector.obstaclesAfter out'
             = (refreshed M setFromObject <$> o :: rest)
      end).
  { intros Hno out' Er Eo.
    destruct (decide (hits M setFromObject intersectObject carBoundingBox o
                      = true)) as [Hyes|_]; [congruence|].
    destruct (list_find _ rest) as [[i o0]|]; cbn [fmap option_fmap option_map
      prod_map fst snd id].
    - destruct IH as (I1 & I2 & I3 & I4). rewrite Er, Eo.
      split; [exact I1|]. split; [exact I2|]. split; [exact I3|].
      rewrite I4. reflexivity.
    - destruct IH as (I1 & I2). rewrite Er, Eo.
      split; [exact I1|]. rewrite I2. reflexivity. }
  unfold hits, refreshed in *.
  destruct (ObstacleManager.isActive o) eqn:Ha; cbn [negb andb] in *.
  2:{ apply Hskip; reflexivity. }
  cbn [ObstacleManager.boundingBox CollisionDetector.set_boundingBox].
  destruct (Three.intersectsBox carBoundingBox
              (setFromObject (ObstacleManager.mesh o))) eqn:Hb;
    cbn [andb] in *.
  2:{ apply Hskip; reflexivity. }
  destruct (CollisionDetector.hasCollision
              (CollisionDetector.detailedCollisionCheck M intersectObject
                 carBoundingBox
                 (CollisionDetector.set_boundingBox M
                    (setFromObject (ObstacleManager.mesh o)) o))) eqn:Hd.
  2:{ apply Hskip; reflexivity. }
  destruct (decide (true = true)) as [_|Hne]; [|congruence].
  cbn [CollisionDetector.result CollisionDetector.obstaclesAfter take drop
         fmap list_fmap app].
  rewrite Ha. split; [reflexivity|]. split; [exact Hd|].
  split; [|reflexivity].
  destruct (detailedCollisionCheck_result M intersectObject carBoundingBox
              (CollisionDetector.set_boundingBox M
                 (setFromObject (ObstacleManager.mesh o)) o))
    as [[_ Ho]|[Hh _]]; [exact Ho | congruence].
Qed.

Lemma checkBoxCollision_true (box1 box2 : Three.Box3) (tolerance : Q) :
  CollisionDetector.checkBoxCollision box1 box2 tolerance = true <->
  Three.x (Three.bmin box1) - Three.x (Three.bmax box2) <= 2 * tolerance
  /\ Three.x (Three.bmin box2) - Three.x (Three.bmax box1) <= 2 * tolerance
  /\ Three.y (Three.bmin box1) - Three.y (Three.bmax box2) <= 2 * tolerance
  /\ Three.y (Three.bmin box2) - Three.y (Three.bmax box1) <= 2 * tolerance
  /\ Three.z (Three.bmin box1) - Three.z (Three.bmax box2) <= 2 * tolerance
  /\ Three.z (Three.bmin box2) - Three.z (Three.bmax box1) <= 2 * tolerance.
Proof.
  unfold CollisionDetector.checkBoxCollision.
  destruct (Qeq_bool tolerance 0) eqn:E.
  - apply Qeq_bool_iff in E. rewrite intersectsBox_true.
    split; intros H; split_and!; lra.
  - rewrite intersectsBox_true. unfold Three.expandByScalar.
    cbn [Three.bmin Three.bmax Three.x Three.y Three.z].
    split; intros H; split_and!; lra.
Qed.

(** X27. [checkBoxCollision] accepts two boxes exactly when, on every axis,
    the gap between them is at most twice the tolerance (the case of a zero
    tolerance is no exception). So the check is symmetric in the two boxes,
    a larger tolerance accepts whatever a smaller one accepts, and with a
    tolerance that is not negative every pair of intersecting boxes is
    accepted. *)
Theorem checkBoxCollision_tolerance (box1 box2 : Three.Box3)
    (tolerance tolerance' : Q) :
  tolerance <= tolerance' ->
  CollisionDetector.checkBoxCollision box1 box2 tolerance
  = CollisionDetector.checkBoxCollision box2 box1 tolerance
  /\ (CollisionDetector.checkBoxCollision box1 box2 tolerance = true ->
      CollisionDetector.checkBoxCollision box1 box2 tolerance' = true)
  /\ (0 <= tolerance -> Three.intersectsBox box1 box2 = true ->
      CollisionDetector.checkBoxCollision box1 box2 tolerance = true)
  /\ (CollisionDetector.checkBoxCollision box1 box2 0
      = Three.intersectsBox box1 box2).
Proof.
  intros Hle. split; [|split; [|split]].
  - destruct (CollisionDetector.checkBoxCollision box2 box1 tolerance) eqn:E.
    + apply checkBoxCollision_true. apply checkBoxCollision_true in E. tauto.
    + destruct (CollisionDetector.checkBoxCollision box1 box2 tolerance) eqn:E';
        [|reflexivity].
      apply checkBoxCollision_true in E'.
      assert (CollisionDetector.checkBoxCollision box2 box1 tolerance = true)
        by (apply checkBoxCollision_true; tauto).
      congruence.
  - rewrite !checkBoxCollision_true. intros H. split_and!; lra.
  - intros H0. rewrite checkBoxCollision_true, intersectsBox_true.
    intros H. split_and!; lra.
  - reflexivity.
Qed.

Lemma checkBoxCollision_tolerance_witness :
  CollisionDetector.checkBoxCollision (meshBox 1) (meshBox 2) 1
  = CollisionDetector.checkBoxCollision (meshBox 2) (meshBox 1) 1
  /\ (CollisionDetector.checkBoxCollision (meshBox 1) (meshBox 2) 1 = true ->
      CollisionDetector.checkBoxCollision (meshBox 1) (meshBox 2) 5 = true)
  /\ (0 <= 1 -> Three.intersectsBox (meshBox 1) (meshBox 2) = true ->
      CollisionDetector.checkBoxCollision (meshBox 1) (meshBox 2) 1 = true)
  /\ (CollisionDetector.checkBoxCollision (meshBox 1) (meshBox 2) 0
      = Three.intersectsBox (meshBox 1) (meshBox 2)).
Proof.
  apply (checkBoxCollision_tolerance (meshBox 1) (meshBox 2) 1 5).
  vm_compute. discriminate.
Defined.

(** The boxes of the meshes 1 and 2 are 9 apart: a tolerance of 4 is not
    enough to bring them together, a tolerance of 5 is. *)
Example tolerance_bridges_the_gap :
  CollisionDetector.checkBoxCollision (meshBox 1) (meshBox 2) 4 = false
  /\ CollisionDetector.checkBoxCollision (meshBox 1) (meshBox 2) 5 = true.
Proof. vm_compute. split; reflexivity. Qed.

Lemma Qmax_Qmin_between (lo hi p : Q) :
  lo <= hi ->
  lo <= Qmax lo (Qmin p hi) <= hi
  /\ (lo <= p <= hi -> Qmax lo (Qmin p hi) == p)
  /\ (forall q, lo <= q <= hi ->
        (p - Qmax lo (Qmin p hi)) * (p - Qmax lo (Qmin p hi))
        <= (p - q) * (p - q)).
Proof.
  intros Hle.
  assert (Hc : (p <= lo /\ Qmax lo (Qmin p hi) == lo)
               \/ (lo <= p <= hi /\ Qmax lo (Qmin p hi) == p)
               \/ (hi <= p /\ Qmax lo (Qmin p hi) == hi)).
  { destruct (Qmin_case_le p hi) as [[H1 E1]|[H1 E1]];
      destruct (Qmax_case_le lo (Qmin p hi)) as [[H2 E2]|[H2 E2]].
    - right. left. split; lra.
    - left. split; lra.
    - right. right. split; lra.
    - right. right. split; lra. }
  split; [|split].
  - destruct Hc as [[H E]|[[H E]|[H E]]]; rewrite E; lra.
  - intros Hp. destruct Hc as [[H E]|[[H E]|[H E]]]; rewrite E; lra.
  - intros q Hq.
    assert (Hsq : forall a b, 0 <= a -> a <= b -> a * a <= b * b).
    { intros a b Ha Hab.
      assert (E : b * b - a * a == (b - a) * (b + a)) by ring.
      assert (0 <= (b - a) * (b + a)) by (apply Qmult_le_0_compat; lra).
      lra. }
    destruct Hc as [[H E]|[[H E]|[H E]]]; rewrite E.
    + assert (E1 : (p - lo) * (p - lo) == (lo - p) * (lo - p)) by ring.
      assert (E2 : (p - q) * (p - q) == (q - p) * (q - p)) by ring.
      rewrite E1, E2. apply Hsq; lra.
    + assert (E1 : (p - p) * (p - p) == 0) by ring. rewrite E1.
      apply Qsquare_nonneg.
    + apply Hsq; lra.
Qed.

(** X28. For a box that is not empty, [getClosestPointOnBox] returns a point
    of the box, the argument itself when that already lies in the box, and
    no point of the box is nearer to the argument than the one returned. *)
Theorem getClosestPointOnBox_is_closest (point q : Three.Vector3)
    (box : Three.Box3) :
  Three.isEmpty box = false ->
  let closest := CollisionDetector.getClosestPointOnBox point box in
  CollisionDetector.isPointInBox closest box = true
  /\ (CollisionDetector.isPointInBox point box = true ->
      Three.veq closest point)
  /\ (CollisionDetector.isPointInBox q box = true ->
      Three.lengthSq (Three.sub point closest)
      <= Three.lengthSq (Three.sub point q)).
Proof.
  intros Hne closest. subst closest.
  apply isEmpty_false in Hne. destruct Hne as (Hx & Hy & Hz).
  destruct (Qmax_Qmin_between _ _ (Three.x point) Hx) as (Bx & Fx & Cx).
  destruct (Qmax_Qmin_between _ _ (Three.y point) Hy) as (By & Fy & Cy).
  destruct (Qmax_Qmin_between _ _ (Three.z point) Hz) as (Bz & Fz & Cz).
  assert (Hin : forall p,
            CollisionDetector.isPointInBox p box = true <->
            (Three.x (Three.bmin box) <= Three.x p <= Three.x (Three.bmax box))
            /\ (Three.y (Three.bmin box) <= Three.y p <= Three.y (Three.bmax box))
            /\ (Three.z (Three.bmin box) <= Three.z p
                <= Three.z (Three.bmax box))).
  { intros p. unfold CollisionDetector.isPointInBox, Three.containsPoint.
    rewrite !andb_true_iff, !Qleb_true. tauto. }
  unfold CollisionDetector.getClosestPointOnBox.
  split; [|split].
  - apply Hin. cbn [Three.x Three.y Three.z]. tauto.
  - intros Hp. apply Hin in Hp. destruct Hp as (Px & Py & Pz).
    unfold Three.veq. cbn [Three.x Three.y Three.z].
    split; [apply Fx, Px|]. split; [apply Fy, Py | apply Fz, Pz].
  - intros Hq. apply Hin in Hq. destruct Hq as (Qx & Qy & Qz).
    unfold Three.lengthSq, Three.sub. cbn [Three.x Three.y Three.z].
    pose proof (Cx _ Qx). pose proof (Cy _ Qy). pose proof (Cz _ Qz). lra.
Qed.

Lemma getClosestPointOnBox_is_closest_witness :
  let closest :=
    CollisionDetector.getClosestPointOnBox (Three.mkVector3 5 5 5) (meshBox 1) in
  CollisionDetector.isPointInBox closest (meshBox 1) = true
  /\ (CollisionDetector.isPointInBox (Three.mkVector3 5 5 5) (meshBox 1) = true ->
      Three.veq closest (Three.mkVector3 5 5 5))
  /\ (CollisionDetector.isPointInBox (Three.mkVector3 0 1 10) (meshBox 1) = true ->
      Three.lengthSq (Three.sub (Three.mkVector3 5 5 5) closest)
      <= Three.lengthSq
           (Three.sub (Three.mkVector3 5 5 5) (Three.mkVector3 0 1 10))).
Proof.
  apply (getClosestPointOnBox_is_closest (Three.mkVector3 5 5 5)
           (Three.mkVector3 0 1 10) (meshBox 1)).
  vm_compute. reflexivity.
Defined.

(** X29. The collision response against a unit normal turns the normal
    component of the velocity around and scales everything by the
    restitution: the component along the normal is [-restitution] times what
    it was, and the squared speed is [restitution] squared times what it
    was. A restitution of zero stops the car. *)
Theorem collisionResponse_reflects_and_damps
    (carVelocity impactNormal : Three.Vector3) (restitution : Q) :
  Three.dot impactNormal impactNormal == 1 ->
  let response :=
    CollisionDetector.calculateCollisionResponse carVelocity impactNormal
      restitution in
  Three.dot response impactNormal
  == - restitution * Three.dot carVelocity impactNormal
  /\ Three.lengthSq response
     == restitution * restitution * Three.lengthSq carVelocity
  /\ (restitution == 0 -> Three.veq response (Three.mkVector3 0 0 0))
  /\ (Three.dot carVelocity impactNormal == 0 ->
      Three.veq response (Three.multiplyScalar carVelocity restitution)).
Proof.
  intros Hunit response. subst response.
  unfold CollisionDetector.calculateCollisionResponse, Three.reflect,
    Three.multiplyScalar, Three.sub, Three.dot, Three.lengthSq, Three.veq in *.
  cbn [Three.x Three.y Three.z] in *.
  destruct carVelocity as [vx vy vz]. destruct impactNormal as [nx ny nz].
  cbn [Three.x Three.y Three.z] in *.
  set (d := vx * nx + vy * ny + vz * nz).
  split; [|split; [|split]].
  - transitivity (restitution * (d - 2 * d * (nx * nx + ny * ny + nz * nz)));
      [unfold d; ring|].
    rewrite Hunit. ring.
  - transitivity (restitution * restitution
                  * (vx * vx + vy * vy + vz * vz
                     - 4 * d * d
                     + 4 * d * d * (nx * nx + ny * ny + nz * nz)));
      [unfold d; ring|].
    rewrite Hunit. ring.
  - intros H0. rewrite H0. split_and!; ring.
  - intros H0. fold d in H0. rewrite H0. split_and!; ring.
Qed.

Lemma collisionResponse_reflects_and_damps_witness :
  let response :=
    CollisionDetector.calculateCollisionResponse (Three.mkVector3 3 0 (-4))
      (Three.mkVector3 0 0 1) (3 # 10) in
  Three.dot response (Three.mkVector3 0 0 1)
  == - (3 # 10) * Three.dot (Three.mkVector3 3 0 (-4)) (Three.mkVector3 0 0 1)
  /\ Three.lengthSq response
     == (3 # 10) * (3 # 10) * Three.lengthSq (Three.mkVector3 3 0 (-4))
  /\ ((3 # 10) == 0 -> Three.veq response (Three.mkVector3 0 0 0))
  /\ (Three.dot (Three.mkVector3 3 0 (-4)) (Three.mkVector3 0 0 1) == 0 ->
      Three.veq response
        (Three.multiplyScalar (Three.mkVector3 3 0 (-4)) (3 # 10))).
Proof.
  apply (collisionResponse_reflects_and_damps (Three.mkVector3 3 0 (-4))
           (Three.mkVector3 0 0 1) (3 # 10)).
  vm_compute. reflexivity.
Defined.

(** ** GameEngine.ts *)

Section GameEnginePaused.
Import GameEngine.

Lemma handle_paused (ev : Event) (tk : Tick) (e : GameEngine.t) :
  leaves_paused ev -> gameState e = PAUSED ->
  gameState (handle ev tk e) = PAUSED
  /\ stats (handle ev tk e) = stats e
  /\ updates (handle ev tk e) = updates e
  /\ emitted (handle ev tk e) = emitted e
  /\ clockRunning (handle ev tk e) = clockRunning e
  /\ sublist (pendingGameLoops (handle ev tk e)) (pendingGameLoops e).
Proof.
  intros Hev Hp.
  assert (Hnp : gameState e <> PLAYING) by (rewrite Hp; discriminate).
  destruct ev as [id|code|code| | | | | | |]; cbn [handle leaves_paused] in *;
    try contradiction.
  - unfold fireFrame.
    destruct (list_find _ (frames e)) as [[i [id' cb]]|];
      [|split_and!; first [assumption | reflexivity]].
    pose proof (cancelAnimationFrame_pending id e) as Hsub.
    destruct cb as [|shakeTime].
    + rewrite gameLoop_not_playing by exact Hnp.
      split_and!; first [assumption | reflexivity].
    + destruct (shake_fields shakeTime (cancelAnimationFrame id e))
        as (-> & -> & -> & ->).
      split_and!; try reflexivity; try assumption.
      * unfold shake. destruct (Qltb shakeTime 0.3); reflexivity.
      * unfold shake. destruct (Qltb shakeTime 0.3); reflexivity.
  - unfold handleKeyDown.
    destruct (decide (gameState e = PLAYING)) as [|_]; [contradiction|].
    destruct (decide (gameState e = PAUSED)) as [_|]; [|contradiction].
    destruct (String.eqb code "Escape") eqn:E;
      [apply String.eqb_eq in E; contradiction|].
    split_and!; first [assumption | reflexivity].
  - split_and!; first [assumption | reflexivity].
  - unfold handleWindowBlur.
    destruct (decide (gameState e = PLAYING)) as [|_]; [contradiction|].
    split_and!; first [assumption | reflexivity].
  - split_and!; first [assumption | reflexivity].
  - unfold pauseGame.
    destruct (decide (gameState e = PLAYING)) as [|_]; [contradiction|].
    split_and!; first [assumption | reflexivity].
Qed.

End GameEnginePaused.

(** X30. A paused game stands still. Whatever frames the browser still runs,
    whatever keys other than Escape are pressed, whatever focus changes
    occur, the engine stays paused: no update runs, the statistics and the
    notifications are what they were, and no new request for the game loop
    appears. Only a playing game can be paused, and Escape leaves the
    pause. *)
Theorem paused_game_stands_still
    (evs : list (GameEngine.Event * GameEngine.Tick)) (tk : GameEngine.Tick)
    (e : GameEngine.t) :
  GameEngine.gameState e = GameEngine.PAUSED ->
  Forall (fun et => leaves_paused (fst et)) evs ->
  let e' := GameEngine.run evs e in
  GameEngine.gameState e' = GameEngine.PAUSED
  /\ GameEngine.stats e' = GameEngine.stats e
  /\ GameEngine.updates e' = GameEngine.updates e
  /\ GameEngine.emitted e' = GameEngine.emitted e
  /\ GameEngine.clockRunning e' = GameEngine.clockRunning e
  /\ sublist (pendingGameLoops e') (pendingGameLoops e)
  /\ GameEngine.pauseGame e' = e'
  /\ GameEngine.gameState (GameEngine.handleKeyDown "Escape" tk e')
     <> GameEngine.PAUSED.
Proof.
  intros Hp Hevs e'. subst e'.
  assert (H : GameEngine.gameState (GameEngine.run evs e) = GameEngine.PAUSED
              /\ GameEngine.stats (GameEngine.run evs e) = GameEngine.stats e
              /\ GameEngine.updates (GameEngine.run evs e)
                 = GameEngine.updates e
              /\ GameEngine.emitted (GameEngine.run evs e)
                 = GameEngine.emitted e
              /\ GameEngine.clockRunning (GameEngine.run evs e)
                 = GameEngine.clockRunning e
              /\ sublist (pendingGameLoops (GameEngine.run evs e))
                   (pendingGameLoops e)).
  { revert e Hp. induction Hevs as [|[ev tk0] evs Hev Hevs IH]; intros e Hp.
    - cbn. split_and!; first [assumption | reflexivity].
    - cbn [GameEngine.run fold_left fst snd].
      change (fold_left (fun st et => GameEngine.handle (fst et) (snd et) st) evs)
        with (GameEngine.run evs).
      destruct (handle_paused ev tk0 e Hev Hp) as (H1 & H2 & H3 & H4 & H5 & H6).
      destruct (IH _ H1) as (I1 & I2 & I3 & I4 & I5 & I6).
      split_and!; try congruence. etrans; eassumption. }
  destruct H as (H1 & H2 & H3 & H4 & H5 & H6).
  split_and!; try assumption.
  - unfold GameEngine.pauseGame. rewrite H1.
    destruct (decide (GameEngine.PAUSED = GameEngine.PLAYING)) as [E|_];
      [discriminate | reflexivity].
  - unfold GameEngine.handleKeyDown, GameEngine.resumeGame. rewrite H1.
    cbn [decide GameEngine.GameState_eq_dec].
    destruct (decide (GameEngine.PAUSED = GameEngine.PLAYING)) as [E|_];
      [discriminate|].
    destruct (decide (GameEngine.PAUSED = GameEngine.PAUSED)) as [_|E];
      [|congruence].
    cbn [String.eqb Ascii.eqb Bool.eqb].
    set (e1 := GameEngine.emit _ _).
    assert (Hplay : GameEngine.gameState e1 = GameEngine.PLAYING) by reflexivity.
    unfold GameEngine.gameLoop. rewrite Hplay.
    destruct (decide (GameEngine.PLAYING = GameEngine.PLAYING)) as [_|E];
      [|congruence].
    cbn [GameEngine.requestAnimationFrame GameEngine.set_animationId
           GameEngine.gameState].
    unfold GameEngine.updateGame. cbv zeta.
    match goal with
    | |- context [if ?b then GameEngine.endGame ?u else _] =>
        destruct b;
          [rewrite (proj1 (endGame_fields u)); discriminate|]
    end.
    cbn [GameEngine.emit GameEngine.set_stats GameEngine.gameState].
    destruct (GameEngine.collision tk).
    + rewrite (proj1 (handleCollision_fields _)). cbn. discriminate.
    + cbn. discriminate.
Qed.

Lemma paused_game_stands_still_witness :
  let e' := GameEngine.run whilePaused pausedGame in
  GameEngine.gameState e' = GameEngine.PAUSED
  /\ GameEngine.stats e' = GameEngine.stats pausedGame
  /\ GameEngine.updates e' = GameEngine.updates pausedGame
  /\ GameEngine.emitted e' = GameEngine.emitted pausedGame
  /\ GameEngine.clockRunning e' = GameEngine.clockRunning pausedGame
  /\ sublist (pendingGameLoops e') (pendingGameLoops pausedGame)
  /\ GameEngine.pauseGame e' = e'
  /\ GameEngine.gameState (GameEngine.handleKeyDown "Escape" quietTick e')
     <> GameEngine.PAUSED.
Proof.
  apply (paused_game_stands_still whilePaused quietTick pausedGame).
  - vm_compute. reflexivity.
  - unfold whilePaused.
    repeat (apply Forall_cons; split;
            [first [exact I | cbn; discriminate]|]).
    apply Forall_nil. exact I.
Defined.

(** The frame that was pending when the game was paused is used up while it
    is paused: none is left afterwards. *)
Example stale_frame_is_used_up :
  length (pendingGameLoops pausedGame) = 1%nat
  /\ length (pendingGameLoops (GameEngine.run whilePaused pausedGame)) = 0%nat.
Proof. vm_compute. split; reflexivity. Qed.

Section GameEngineLoop.
Import GameEngine.

Lemma handleCollision_stats (e : GameEngine.t) :
  stats (handleCollision e)
  = mkStats (score (stats e)) (distance (stats e)) (speed (stats e))
      (lives (stats e) - 1)%Z 0%Z (obstaclesAvoided (stats e))
      (timeElapsed (stats e)) (level (stats e))
  /\ gameState (handleCollision e) = gameState e
  /\ updates (handleCollision e) = updates e
  /\ animationId (handleCollision e) = animationId e
  /\ emitted (handleCollision e) = emitted e
  /\ pendingGameLoops (handleCollision e) = pendingGameLoops e.
Proof.
  unfold handleCollision, addScreenShake.
  match goal with |- context [shake 0 ?u] =>
    destruct (shake_fields 0 u) as (E1 & E2 & E3 & E4) end.
  rewrite E1, E2, E3, E4.
  split_and!; try reflexivity;
    unfold shake; destruct (Qltb 0 0.3); reflexivity.
Qed.

(** A tick that leaves the car at least one life. *)
Lemma updateGame_playing (tk : Tick) (e : GameEngine.t) :
  (0 < livesAfter tk e)%Z ->
  let e' := updateGame tk e in
  gameState e' = gameState e
  /\ updates e' = S (updates e)
  /\ lives (stats e') = livesAfter tk e
  /\ timeElapsed (stats e') = timeElapsed (stats e) + deltaTime tk
  /\ distance (stats e') = distanceTraveled tk
  /\ speed (stats e') = carSpeed tk
  /\ (level (stats e) <= level (stats e'))%Z
  /\ combo (stats e') = (if collision tk then 0%Z else combo (stats e))
  /\ animationId e' = animationId e
  /\ pendingGameLoops e' = pendingGameLoops e
  /\ emitted e' = emitted e ++ [StatsUpdate (stats e')].
Proof.
  intros Hl e'. subst e'. unfold updateGame, livesAfter in *. cbv zeta.
  set (e1 := set_stats _ (countUpdate e)).
  set (e2 := if collision tk then handleCollision e1 else e1).
  assert (H2 : stats e2
               = mkStats (score (stats e)) (distanceTraveled tk) (carSpeed tk)
                   (if collision tk then (lives (stats e) - 1)%Z
                    else lives (stats e))
                   (if collision tk then 0%Z else combo (stats e))
                   (obstaclesAvoided (stats e))
                   (timeElapsed (stats e) + deltaTime tk) (level (stats e))
               /\ gameState e2 = gameState e
               /\ updates e2 = S (updates e)
               /\ animationId e2 = animationId e
               /\ emitted e2 = emitted e
               /\ pendingGameLoops e2 = pendingGameLoops e).
  { subst e2. destruct (collision tk).
    - destruct (handleCollision_stats e1) as (-> & -> & -> & -> & -> & ->).
      split_and!; reflexivity.
    - split_and!; reflexivity. }
  destruct H2 as (Es & Eg & Eu & Ea & Ee & Ep).
  match goal with
  | |- context [if (lives (stats ?u) <=? 0)%Z then _ else _] => set (e3 := u)
  end.
  assert (H3 : lives (stats e3) = lives (stats e2)) by reflexivity.
  rewrite Es in H3. cbn [lives] in H3.
  destruct (lives (stats e3) <=? 0)%Z eqn:E; [apply Z.leb_le in E; lia|].
  subst e3.
  cbn [emit set_stats gameState updates stats lives timeElapsed distance speed
         level combo animationId emitted].
  rewrite Es, Eg, Eu, Ea, Ee.
  cbn [lives timeElapsed distance speed level combo].
  split_and!; try reflexivity.
  - destruct (level (stats e) <? _)%Z eqn:E'; [apply Z.ltb_lt in E'; lia | lia].
  - exact Ep.
Qed.

End GameEngineLoop.

(** X2. While the game is playing and the tick leaves the car a life, a run
    of the game loop performs exactly one update and arms exactly one more
    run of itself, whose request it records. The update takes one life and
    clears the combo if the tick saw a collision, adds the frame's duration
    to the time elapsed, copies the car's distance and speed, never lowers
    the level, and reports the new statistics last. *)
Theorem game_loop_keeps_running (tk : GameEngine.Tick) (e : GameEngine.t) :
  GameEngine.gameState e = GameEngine.PLAYING ->
  (0 < livesAfter tk e)%Z ->
  let e' := GameEngine.gameLoop tk e in
  GameEngine.gameState e' = GameEngine.PLAYING
  /\ GameEngine.updates e' = S (GameEngine.updates e)
  /\ GameEngine.lives (GameEngine.stats e') = livesAfter tk e
  /\ GameEngine.timeElapsed (GameEngine.stats e')
     = GameEngine.timeElapsed (GameEngine.stats e) + GameEngine.deltaTime tk
  /\ GameEngine.distance (GameEngine.stats e') = GameEngine.distanceTraveled tk
  /\ GameEngine.speed (GameEngine.stats e') = GameEngine.carSpeed tk
  /\ (GameEngine.level (GameEngine.stats e)
      <= GameEngine.level (GameEngine.stats e'))%Z
  /\ GameEngine.combo (GameEngine.stats e')
     = (if GameEngine.collision tk then 0%Z
        else GameEngine.combo (GameEngine.stats e))
  /\ last (GameEngine.emitted e')
     = Some (GameEngine.StatsUpdate (GameEngine.stats e'))
  /\ exists id,
       GameEngine.animationId e' = Some id
       /\ pendingGameLoops e'
          = pendingGameLoops e ++ [(id, GameEngine.gameLoopCb)].
Proof.
  intros Hp Hl e'. subst e'. unfold GameEngine.gameLoop.
  destruct (decide (GameEngine.gameState e = GameEngine.PLAYING)) as [_|Hn];
    [|contradiction].
  destruct (updateGame_playing tk e Hl)
    as (Eg & Eu & El & Et & Ed & Es & Elv & Ec & Ea & Ep & Ee).
  cbv zeta in *.
  set (e1 := GameEngine.updateGame tk e) in *.
  cbn [GameEngine.requestAnimationFrame GameEngine.set_animationId
         GameEngine.gameState GameEngine.updates GameEngine.stats
         GameEngine.emitted GameEngine.animationId].
  rewrite Eg, Eu, El, Et, Ed, Es, Ec, Ee, Hp.
  split_and!; try reflexivity; try assumption.
  - apply last_snoc.
  - exists (GameEngine.nextFrameId e1). split; [reflexivity|].
    unfold pendingGameLoops in *.
    cbn [GameEngine.frames GameEngine.set_animationId].
    rewrite filter_app, Ep, filter_cons, filter_nil.
    cbn [snd]. destruct (decide _) as [_|Hn]; [reflexivity | congruence].
Qed.

Lemma game_loop_keeps_running_witness :
  let e := GameEngine.startGame quietTick GameEngine.new in
  let e' := GameEngine.gameLoop crashTick e in
  GameEngine.gameState e' = GameEngine.PLAYING
  /\ GameEngine.updates e' = S (GameEngine.updates e)
  /\ GameEngine.lives (GameEngine.stats e') = livesAfter crashTick e
  /\ GameEngine.timeElapsed (GameEngine.stats e')
     = GameEngine.timeElapsed (GameEngine.stats e)
       + GameEngine.deltaTime crashTick
  /\ GameEngine.distance (GameEngine.stats e')
     = GameEngine.distanceTraveled crashTick
  /\ GameEngine.speed (GameEngine.stats e') = GameEngine.carSpeed crashTick
  /\ (GameEngine.level (GameEngine.stats e)
      <= GameEngine.level (GameEngine.stats e'))%Z
  /\ GameEngine.combo (GameEngine.stats e')
     = (if GameEngine.collision crashTick then 0%Z
        else GameEngine.combo (GameEngine.stats e))
  /\ last (GameEngine.emitted e')
     = Some (GameEngine.StatsUpdate (GameEngine.stats e'))
  /\ exists id,
       GameEngine.animationId e' = Some id
       /\ pendingGameLoops e'
          = pendingGameLoops e ++ [(id, GameEngine.gameLoopCb)].
Proof.
  apply (game_loop_keeps_running crashTick
           (GameEngine.startGame quietTick GameEngine.new)).
  - vm_compute. reflexivity.
  - vm_compute. reflexivity.
Defined.
